(** * Request assembly and response reassembly of the Nixtla client

    A shallow embedding of the pipeline functions of
    [nixtla/nixtla_client.py]: the ragged-array tail extraction
    ([_array_tails], [_tail]), the request partitioner
    ([_partition_series]), the merge of partitioned responses
    ([_make_partitioned_requests]), the level/quantile conversion, the
    frequency check of [_run_validations], the retry policy
    ([_retry_strategy]) and the transport ([_make_request]); and, around
    them, the sizing of the input ([_validate_input_size],
    [_restrict_input_samples]), the exogenous features ([_validate_exog],
    [_process_exog_features]), the assembly of the output
    ([_maybe_add_intervals], [_parse_in_sample_output],
    [_forecast_payload_to_in_sample]), the model metadata ([_get_request],
    [_get_model_params]) and the data audit ([audit_data]).

    Conventions.  Sizes, offsets and positions are [nat]; Python slices
    [l[a:b]] with non-negative bounds are [slice a b l] and clamp at the
    end of the list as Python does.  A Python call that may raise returns
    a [result]. *)

From Stdlib Require Import ZArith QArith Qround Qabs Lia String Ascii Bool DecimalString.
From Stdlib Require Import Floats.SpecFloat.
From stdpp Require Import base option list gmap.

Set Warnings "-register-all".
Local Open Scope nat_scope.

(** ** Python values shared by the components *)

(** Parsed JSON, as [orjson.loads] returns it. *)
Inductive Json : Type :=
| JNull
| JBool (b : bool)
| JNum (q : Q)
| JStr (s : string)
| JArr (l : list Json)
| JObj (kvs : list (string * Json)).

(** The body attached to an [ApiError]: the parsed body, or a text. *)
Inductive ErrBody : Type :=
| BodyJson (j : Json)
| BodyText (s : string).

(** The exception classes the pipeline raises or tests with
    [isinstance].  [OtherException] stands for any class unrelated to
    those named here. *)
Inductive exn : Type :=
| ConnectionResetError
| httpcore_ConnectError
| httpcore_RemoteProtocolError
| httpx_ConnectTimeout
| httpx_ReadError
| httpx_RemoteProtocolError
| httpx_ReadTimeout
| httpx_PoolTimeout
| httpx_WriteError
| httpx_WriteTimeout
| ApiError (status_code : option Z) (body : ErrBody)
| ValueError (msg : string)
| TypeError (msg : string)
| KeyError (key : string)
| IndexError
| ZeroDivisionError
| OtherException (name : string).

Inductive result (A : Type) : Type :=
| Ok (a : A)
| Raise (e : exn).
Arguments Ok {A} a.
Arguments Raise {A} e.

Definition rbind {A B} (r : result A) (k : A -> result B) : result B :=
  match r with
  | Ok a => k a
  | Raise e => Raise e
  end.

Notation "'let*' x ':=' r 'in' k" := (rbind r (fun x => k))
  (at level 10, x name, r at level 100, k at level 200).

(** [str(z)] for an integer, as an f-string prints it. *)
Definition decimal (z : Z) : string := NilZero.string_of_int (Z.to_int z).

(** [a < b] on rationals. *)
Definition Qltb (a b : Q) : bool := negb (Qle_bool b a).

(** [needle in s] for two strings. *)
Fixpoint contains (needle s : string) : bool :=
  String.prefix needle s
  || match s with
     | EmptyString => false
     | String _ r => contains needle r
     end.

(** [l[a:b]] for [0 <= a] and [0 <= b]. *)
Definition slice {A} (a b : nat) (l : list A) : list A := take (b - a) (drop a l).

(** [math.ceil(a / b)] for non-negative integers, [b > 0]. *)
Definition ceil_div (a b : nat) : nat :=
  if a mod b =? 0 then a / b else S (a / b).

(** [np.arange(a, b)]. *)
Definition np_arange (a b : nat) : list nat := seq a (b - a).

(** [np.hstack(arrays)] of one-dimensional arrays: the concatenation;
    numpy refuses an empty sequence of arrays. *)
Definition np_hstack {A} (arrays : list (list A)) : result (list A) :=
  match arrays with
  | [] => Raise (ValueError "need at least one array to concatenate")
  | _ => Ok (concat arrays)
  end.

(** [np.diff(a)] : [a[1:] - a[:-1]], for an array that never decreases
    (offsets of a ragged array). *)
Definition np_diff (a : list nat) : list nat :=
  zip_with (fun lo hi => hi - lo) a (tail a).

(** [x[idxs]] with an integer index array: every index must be in range. *)
Fixpoint take_idxs {A} (x : list A) (idxs : list nat) : result (list A) :=
  match idxs with
  | [] => Ok []
  | i :: rest =>
      match x !! i with
      | Some v => let* r := take_idxs x rest in Ok (v :: r)
      | None => Raise IndexError
      end
  end.

(** ** Tail of series: [_array_tails] and [_tail] *)

Module Tails.

(** [(out_sizes > np.diff(indptr))]: numpy compares elementwise when the
    shapes agree, broadcasts an operand of length one, and raises
    otherwise. *)
Definition np_greater (a b : list nat) : result (list bool) :=
  if length a =? length b then Ok (zip_with (fun x y => y <? x) a b)
  else match a, b with
       | [x], _ => Ok (map (fun y => y <? x) b)
       | _, [y] => Ok (map (fun x => y <? x) a)
       | _, _ => Raise (ValueError "operands could not be broadcast together")
       end.

Definition _array_tails {A} (x : list A) (indptr out_sizes : list nat)
  : result (list A) :=
  let* gt := np_greater out_sizes (np_diff indptr) in
  if existsb id gt
  then Raise (ValueError "out_sizes must be at most the original sizes.")
  else
    let* idxs := np_hstack
              (zip_with (fun e size => np_arange (e - size) e)
                        (tail indptr) out_sizes) in
    take_idxs x idxs.

(** [ufp.ProcessedDF], with the fields [_tail] touches. *)
Record ProcessedDF (U T A : Type) : Type := mkProcessedDF {
  uids : list U;
  last_times : list T;
  data : list A;
  indptr : list nat;
  sort_idxs : option (list nat)
}.
Arguments mkProcessedDF {U T A}.
Arguments uids {U T A}.
Arguments last_times {U T A}.
Arguments data {U T A}.
Arguments indptr {U T A}.
Arguments sort_idxs {U T A}.

(** [new_sizes.cumsum()] *)
Fixpoint cumsum_from (acc : nat) (l : list nat) : list nat :=
  match l with
  | [] => []
  | s :: r => (acc + s) :: cumsum_from (acc + s) r
  end.

Definition _tail {U T A} (proc : ProcessedDF U T A) (n : nat)
  : result (ProcessedDF U T A) :=
  let new_sizes := map (fun s => Nat.min s n) (np_diff (indptr proc)) in
  let new_indptr := 0 :: cumsum_from 0 new_sizes in
  let* new_data := _array_tails (data proc) (indptr proc) new_sizes in
  Ok (mkProcessedDF (uids proc) (last_times proc) new_data new_indptr None).

(** *** What the specification asks of the tail extraction *)

(** The series of a ragged array: [x[indptr[i] : indptr[i+1]]]. *)
Definition series_of {A} (x : list A) (indptr : list nat) : list (list A) :=
  zip_with (fun lo hi => slice lo hi x) indptr (tail indptr).

(** The last [k] elements of a list. *)
Definition last_n {A} (k : nat) (l : list A) : list A := drop (length l - k) l.

Definition tails_spec {A} (x : list A) (indptr out_sizes : list nat) : list A :=
  concat (zip_with last_n out_sizes (series_of x indptr)).

(** A well-formed ragged array: offsets start at 0, never decrease and
    end at the length of the flat buffer. *)
Fixpoint nondecreasing (l : list nat) : Prop :=
  match l with
  | a :: ((b :: _) as r) => a <= b /\ nondecreasing r
  | _ => True
  end.

Definition ragged {A} (x : list A) (indptr : list nat) : Prop :=
  head indptr = Some 0 /\ nondecreasing indptr /\ last indptr = Some (length x).

End Tails.

(** ** Request partitioner: [_partition_series] *)

Module Partition.

(** A dictionary entry that may be missing, hold [None], or hold a value. *)
Inductive entry (T : Type) : Type :=
| Absent
| PyNone
| Val (v : T).
Arguments Absent {T}.
Arguments PyNone {T}.
Arguments Val {T} v.

(** [payload["series"]]: [y] and [sizes] are arrays, [X] is [None] or a
    matrix with one row per feature, [X_future] likewise when the key is
    there (the in-sample endpoints build payloads without it). *)
Record Series (A : Type) : Type := mkSeries {
  y : list A;
  sizes : list nat;
  X : option (list (list A));
  X_future : entry (list (list A))
}.
Arguments mkSeries {A}.
Arguments y {A}.
Arguments sizes {A}.
Arguments X {A}.
Arguments X_future {A}.

(** The payload: its ["series"] entry and all its other entries. *)
Record Payload (A R : Type) : Type := mkPayload {
  series : Series A;
  rest : R
}.
Arguments mkPayload {A R}.
Arguments series {A R}.
Arguments rest {A R}.

(** [range(start, stop, step)] for a positive step, by iteration. *)
Fixpoint range_loop (fuel i stop step : nat) : list nat :=
  match fuel with
  | 0 => []
  | S fuel' => if i <? stop then i :: range_loop fuel' (i + step) stop step else []
  end.

Definition py_range (start stop step : nat) : result (list nat) :=
  if step =? 0 then Raise (ValueError "range() arg 3 must not be zero")
  else Ok (range_loop (stop - start) start stop step).

Section Defs.
Context {A R : Type}.

(** One iteration of the loop body: the sub-series for the chunk that
    starts at series [i], and the new value of [prev_size]. *)
Definition make_part (s : Series A) (h series_per_part i prev_size : nat)
  : result (Series A * nat) :=
  let sizes_ := slice i (i + series_per_part) (sizes s) in
  let curr_size := sum_list sizes_ in
  let part_y := slice prev_size (prev_size + curr_size) (y s) in
  let prev_size' := prev_size + curr_size in
  match X s with
  | None =>
      Ok (mkSeries part_y sizes_ None (if 0 <? h then PyNone else Absent),
          prev_size')
  | Some xs =>
      let part_X := map (slice prev_size (prev_size + curr_size)) xs in
      if 0 <? h then
        match X_future s with
        | Val xf =>
            Ok (mkSeries part_y sizes_ (Some part_X)
                  (Val (map (slice (i * h) ((i + series_per_part) * h)) xf)),
                prev_size')
        | PyNone => Raise (TypeError "'NoneType' object is not iterable")
        | Absent => Raise (KeyError "X_future")
        end
      else Ok (mkSeries part_y sizes_ (Some part_X) Absent, prev_size')
  end.

Fixpoint parts_loop (s : Series A) (other : R) (h series_per_part : nat)
         (starts : list nat) (prev_size : nat) : result (list (Payload A R)) :=
  match starts with
  | [] => Ok []
  | i :: starts' =>
      let* p := make_part s h series_per_part i prev_size in
      let* parts := parts_loop s other h series_per_part starts' (snd p) in
      Ok (mkPayload (fst p) other :: parts)
  end.

Definition _partition_series (payload : Payload A R) (n_part h : nat)
  : result (list (Payload A R)) :=
  let s := series payload in
  let n_series := length (sizes s) in
  let n_part := Nat.min n_part n_series in
  if n_part =? 0 then Raise ZeroDivisionError
  else
    let series_per_part := ceil_div n_series n_part in
    let* starts := py_range 0 n_series series_per_part in
    parts_loop s (rest payload) h series_per_part starts 0.

(** *** What the specification asks of a partitioned payload *)

(** Row [f] of a feature matrix; no row when the matrix is [None]. *)
Definition feature_row (f : nat) (m : option (list (list A))) : list A :=
  match m with
  | Some rows => default [] (rows !! f)
  | None => []
  end.

Definition entry_row (f : nat) (m : entry (list (list A))) : list A :=
  match m with
  | Val rows => default [] (rows !! f)
  | _ => []
  end.

(** Row offset of series [j] in the flat buffers: [indptr[j]]. *)
Definition offset (szs : list nat) (j : nat) : nat := sum_list (take j szs).

(** The payload is consistent with the data model: the flat buffers
    hold [sum(sizes)] rows and the future matrix [h] rows per series. *)
Definition well_formed (s : Series A) (h : nat) : Prop :=
  length (y s) = sum_list (sizes s)
  /\ (forall xs, X s = Some xs ->
        Forall (fun row => length row = sum_list (sizes s)) xs)
  /\ (forall xf, X_future s = Val xf ->
        Forall (fun row => length row = length (sizes s) * h) xf).

(** The future matrix is there whenever the loop body reads it. *)
Definition future_readable (s : Series A) (h : nat) : Prop :=
  0 < h -> X s <> None -> exists xf, X_future s = Val xf.

(** The shape [_partition_series] gives [X_future] when it rebuilds it. *)
Definition future_shape (s : Series A) (h : nat) : Prop :=
  match X s with
  | None => X_future s = if 0 <? h then PyNone else Absent
  | Some _ => if 0 <? h then exists xf, X_future s = Val xf
              else X_future s = Absent
  end.
End Defs.

End Partition.

(** The chunk that starts at series [i], as the specification describes
    it: [series_per_part] consecutive series, with the rows of exactly
    those series. *)
Definition chunk {A} (s : Partition.Series A) (h series_per_part i : nat)
  : Partition.Series A :=
  let a := Partition.offset (Partition.sizes s) i in
  let b := Partition.offset (Partition.sizes s) (i + series_per_part) in
  Partition.mkSeries
    (slice a b (Partition.y s))
    (slice i (i + series_per_part) (Partition.sizes s))
    (option_map (map (slice a b)) (Partition.X s))
    (match Partition.X s, 0 <? h, Partition.X_future s with
     | None, true, _ => Partition.PyNone
     | Some _, true, Partition.Val xf =>
         Partition.Val (map (slice (i * h) ((i + series_per_part) * h)) xf)
     | _, _, _ => Partition.Absent
     end).

(** Two series of 2 and 1 rows with one historic exogenous feature and
    no future matrix. *)
Definition hist_exog_payload : Partition.Payload Z unit :=
  Partition.mkPayload
    (Partition.mkSeries [1; 2; 3]%Z [2; 1] (Some [[7; 8; 9]%Z]) Partition.PyNone)
    tt.

(** Five series with one historic exogenous feature and no future
    matrix. *)
Definition five_series_hist_exog : Partition.Payload Z unit :=
  Partition.mkPayload
    (Partition.mkSeries [1; 2; 3; 4; 5; 6; 7; 8; 9]%Z [2; 1; 3; 1; 2]
       (Some [[11; 12; 13; 14; 15; 16; 17; 18; 19]%Z]) Partition.PyNone)
    tt.

(** ** Result merger: [_make_partitioned_requests] *)

Module Merger.

(** A response of the service.  An optional key is [None] when the key
    is missing; [intervals] is always there and is [None] or a mapping
    from bound name to values; [weights_x] and [feature_contributions]
    may be missing, [None] or a value. *)
Record Response (V W : Type) : Type := mkResponse {
  mean : list V;
  sizes : option (list nat);
  anomaly : option (list bool);
  idxs : option (list nat);
  anomaly_score : option (list V);
  intervals : option (list (string * list V));
  weights_x : Partition.entry W;
  feature_contributions : Partition.entry (list (list V))
}.
Arguments mkResponse {V W}.
Arguments mean {V W}.
Arguments sizes {V W}.
Arguments anomaly {V W}.
Arguments idxs {V W}.
Arguments anomaly_score {V W}.
Arguments intervals {V W}.
Arguments weights_x {V W}.
Arguments feature_contributions {V W}.

(** [[f(res) for res in results]], where [f] may raise. *)
Fixpoint for_each {T U} (f : T -> result U) (l : list T) : result (list U) :=
  match l with
  | [] => Ok []
  | t :: r => let* u := f t in let* us := for_each f r in Ok (u :: us)
  end.

(** [res[k]] for an optional key. *)
Definition get_key {T} (k : string) (v : option T) : result T :=
  match v with
  | Some t => Ok t
  | None => Raise (KeyError k)
  end.

Definition get_entry {T} (k : string) (v : Partition.entry T)
  : result (option T) :=
  match v with
  | Partition.Val t => Ok (Some t)
  | Partition.PyNone => Ok None
  | Partition.Absent => Raise (KeyError k)
  end.

Fixpoint assoc {T} (k : string) (d : list (string * T)) : option T :=
  match d with
  | [] => None
  | (k', v) :: r => if String.eqb k k' then Some v else assoc k r
  end.

(** The transpose of a matrix with [ncols] columns, given by rows. *)
Fixpoint transpose {V} (ncols : nat) (rows : list (list V)) : list (list V) :=
  match rows with
  | [] => replicate ncols []
  | r :: rs => zip_with cons r (transpose ncols rs)
  end.

Definition same_lengths {V} (n : nat) (rows : list (list V)) : bool :=
  forallb (fun r => length r =? n) rows.

(** A two-dimensional array: its number of columns and its rows. *)
Definition matrix (V : Type) : Type := (nat * list (list V))%type.

(** [np.stack(arrays, axis=1)]: the arrays become the columns. *)
Definition np_stack_axis1 {V} (arrays : list (list V)) : result (matrix V) :=
  match arrays with
  | [] => Raise (ValueError "need at least one array to stack")
  | a :: _ =>
      if same_lengths (length a) arrays
      then Ok (length arrays, transpose (length a) arrays)
      else Raise (ValueError "all input arrays must have the same shape")
  end.

(** [np.vstack(matrices)]: the rows of all the matrices, which must
    have the same number of columns. *)
Definition np_vstack {V} (ms : list (matrix V)) : result (matrix V) :=
  match ms with
  | [] => Raise (ValueError "need at least one array to concatenate")
  | (ncols, _) :: _ =>
      if forallb (fun m : matrix V => fst m =? ncols) ms
      then Ok (ncols, concat (map snd ms))
      else Raise (ValueError "all the input array dimensions must match")
  end.

Section Defs.
Context {A R V W : Type}.
Abbreviation Payload := (Partition.Payload A R).
Abbreviation Resp := (Response V W).

(** The merged response: [weights_x] becomes the list of the
    partitions' weights (each of which may be [None]). *)
Definition Merged : Type := Response V (list (option W)).

(** [offsets = [0] + [sum(p["series"]["sizes"]) for p in payloads[:-1]]] *)
Definition offsets (payloads : list Payload) : list nat :=
  0 :: map (fun p => sum_list (Partition.sizes (Partition.series p)))
           (removelast payloads).

Definition hstack_key {T} (k : string) (get : Resp -> option (list T))
           (first_res : Resp) (results : list Resp) : result (option (list T)) :=
  match get first_res with
  | None => Ok None
  | Some _ =>
      let* arrays := for_each (fun res => get_key k (get res)) results in
      let* merged := np_hstack arrays in
      Ok (Some merged)
  end.

(** The part of the function after the pool has delivered every result:
    [results[i]] is the response to [payloads[i]]. *)
Definition merge_results (results : list Resp) (payloads : list Payload)
  : result Merged :=
  let* mean_ := np_hstack (map mean results) in
  match results with
  | [] => Raise IndexError
  | first_res :: _ =>
      let* sizes_ := hstack_key "sizes" sizes first_res results in
      let* anomaly_ := hstack_key "anomaly" anomaly first_res results in
      let* idxs_ :=
        match idxs first_res with
        | None => Ok None
        | Some _ =>
            let* arrays :=
              for_each (fun ro : Resp * nat =>
                          let* local := get_key "idxs" (idxs (fst ro)) in
                          Ok (map (fun i => i + snd ro) local))
                       (zip results (offsets payloads)) in
            let* merged := np_hstack arrays in
            Ok (Some merged)
        end in
      let* score_ :=
        hstack_key "anomaly_score" anomaly_score first_res results in
      let* intervals_ :=
        match intervals first_res with
        | None => Ok None
        | Some first_intervals =>
            let* merged :=
              for_each
                (fun kv : string * list V =>
                   let* arrays :=
                     for_each
                       (fun res : Resp =>
                          match intervals res with
                          | None => Raise (TypeError "'NoneType' object is not subscriptable")
                          | Some d => get_key (fst kv) (assoc (fst kv) d)
                          end) results in
                   let* col := np_hstack arrays in
                   Ok (fst kv, col))
                first_intervals in
            Ok (Some merged)
        end in
      let* weights_ :=
        match weights_x first_res with
        | Partition.Val _ =>
            let* ws := for_each
                         (fun res : Resp =>
                            get_entry "weights_x" (weights_x res)) results in
            Ok (Partition.Val ws)
        | _ => Ok Partition.PyNone
        end in
      let* contributions_ :=
        match feature_contributions first_res with
        | Partition.Val _ =>
            let* stacked :=
              for_each
                (fun res : Resp =>
                   match feature_contributions res with
                   | Partition.Val fc => np_stack_axis1 fc
                   | Partition.PyNone =>
                       Raise (TypeError "iteration over a 0-d array")
                   | Partition.Absent => Raise (KeyError "feature_contributions")
                   end) results in
            let* m := np_vstack stacked in
            Ok (Partition.Val (transpose (fst m) (snd m)))
        | _ => Ok Partition.PyNone
        end in
      Ok (mkResponse mean_ sizes_ anomaly_ idxs_ score_ intervals_
                     weights_ contributions_)
  end.

(** The whole function, for a transport [request] that answers each
    sub-payload (with its retries).  The pool stores every answer at the
    position of its payload, so the order of completion does not show;
    when several requests fail, the one reported here is the first in
    partition order. *)
Definition _make_partitioned_requests
           (request : Payload -> result Resp) (payloads : list Payload)
  : result Merged :=
  match payloads with
  | [] => Raise (ValueError "max_workers must be greater than 0")
  | _ =>
      let* results := for_each request payloads in
      merge_results results payloads
  end.

(** *** What the specification asks of the merged [idxs] *)

(** Number of rows of a sub-payload: the sum of its [sizes]. *)
Definition rows (p : Payload) : nat :=
  sum_list (Partition.sizes (Partition.series p)).

(** Offset of partition [j]: the rows of all the partitions before it. *)
Fixpoint cumulative_offsets (acc : nat) (payloads : list Payload) : list nat :=
  match payloads with
  | [] => []
  | p :: ps => acc :: cumulative_offsets (acc + rows p) ps
  end.

Definition merged_idxs_spec (local_idxs : list (list nat))
           (payloads : list Payload) : list nat :=
  concat (zip_with (fun local off => map (fun i => i + off) local)
                   local_idxs (cumulative_offsets 0 payloads)).
End Defs.

End Merger.

(** A stub transport for the examples: every partition answers with a
    one-value forecast and selects the first row of its own buffer. *)
Definition first_row_stub (p : Partition.Payload Z unit)
  : result (Merger.Response Z unit) :=
  Ok (Merger.mkResponse [0%Z] None None (Some [0]) None None
        Partition.Absent Partition.Absent).

(** Three sub-payloads of 2, 3 and 4 rows. *)
Definition three_parts : list (Partition.Payload Z unit) :=
  [ Partition.mkPayload
      (Partition.mkSeries [1; 2]%Z [2] None Partition.Absent) tt;
    Partition.mkPayload
      (Partition.mkSeries [3; 4; 5]%Z [3] None Partition.Absent) tt;
    Partition.mkPayload
      (Partition.mkSeries [6; 7; 8; 9]%Z [4] None Partition.Absent) tt ].

(** ** Retry policy: [_retry_strategy] *)

Module Retry.

Definition retriable_codes : list Z := [408; 409; 429; 502; 503; 504]%Z.

(** [should_retry]: an instance of one of the ten transport exception
    classes, or an [ApiError] whose status code is in [retriable_codes]. *)
Definition should_retry (exc : exn) : bool :=
  match exc with
  | ConnectionResetError
  | httpcore_ConnectError
  | httpcore_RemoteProtocolError
  | httpx_ConnectTimeout
  | httpx_ReadError
  | httpx_RemoteProtocolError
  | httpx_ReadTimeout
  | httpx_PoolTimeout
  | httpx_WriteError
  | httpx_WriteTimeout => true
  | ApiError (Some code) _ => existsb (Z.eqb code) retriable_codes
  | _ => false
  end.

(** The transient causes as the specification lists them: connection
    reset, connect/read/write timeouts, remote protocol errors and pool
    exhaustion. *)
Definition listed_transient (exc : exn) : bool :=
  match exc with
  | ConnectionResetError => true
  | httpx_ConnectTimeout | httpx_ReadTimeout | httpx_WriteTimeout => true
  | httpcore_RemoteProtocolError | httpx_RemoteProtocolError => true
  | httpx_PoolTimeout => true
  | _ => false
  end.

(** The arguments of [_retry_strategy]; times are in clock ticks. *)
Record Policy : Type := mkPolicy {
  max_retries : Z;
  retry_interval : Z;
  max_wait_time : Z
}.

(** One call of the wrapped function. *)
Record Attempt (T : Type) : Type := mkAttempt {
  attempt_number : nat;
  started : Z;
  ended : Z;
  outcome : result T
}.
Arguments mkAttempt {T}.
Arguments attempt_number {T}.
Arguments started {T}.
Arguments ended {T}.
Arguments outcome {T}.

(** What a decorated call gives: the value returned or the exception
    raised, the attempts made, and the lines [after_retry] logged. *)
Inductive Run (T : Type) : Type :=
| Finished (res : result T) (trace : list (Attempt T)) (log : list (nat * exn))
| OutOfFuel.
Arguments Finished {T}.
Arguments OutOfFuel {T}.

Section Loop.
Context {T : Type}.
Variable policy : Policy.
(** The wrapped function: what its [k]-th call, started at time [t],
    returns or raises, and how long the call takes. *)
Variable fn : nat -> Z -> result T * Z.
(** The time the decorated call starts. *)
Variable start_time : Z.

(** [stop_after_attempt(max_retries) | stop_after_delay(max_wait_time)] *)
Definition stop (attempt : nat) (seconds_since_start : Z) : bool :=
  (max_retries policy <=? Z.of_nat attempt)%Z
  || (max_wait_time policy <=? seconds_since_start)%Z.

(** tenacity's loop for [retry_if_exception(should_retry)],
    [wait_fixed(retry_interval)], the [stop] above, [after=after_retry]
    and [reraise=True]. *)
Fixpoint retry_loop (fuel attempt : nat) (now : Z) : Run T :=
  match fuel with
  | 0 => OutOfFuel
  | S fuel' =>
      let out := fst (fn attempt now) in
      let outcome_timestamp := (now + snd (fn attempt now))%Z in
      let this := mkAttempt attempt now outcome_timestamp out in
      match out with
      | Ok v => Finished (Ok v) [this] []
      | Raise e =>
          if should_retry e then
            if stop attempt (outcome_timestamp - start_time)
            then Finished (Raise e) [this] [(attempt, e)]
            else
              match retry_loop fuel' (S attempt)
                               (outcome_timestamp + retry_interval policy) with
              | Finished res trace log =>
                  Finished res (this :: trace) ((attempt, e) :: log)
              | OutOfFuel => OutOfFuel
              end
          else Finished (Raise e) [this] []
      end
  end.

Definition retry_call : Run T :=
  retry_loop (S (Z.to_nat (max_retries policy))) 1 start_time.

(** An attempt after which the policy goes on: it failed with a
    retriable exception and neither bound is reached. *)
Definition goes_on (a : Attempt T) : Prop :=
  (exists e, outcome a = Raise e /\ should_retry e = true)
  /\ (Z.of_nat (attempt_number a) < max_retries policy)%Z
  /\ (ended a - start_time < max_wait_time policy)%Z.
End Loop.

End Retry.

(** ** Transport: [_make_request] *)

Module Transport.

(** *** Arrays and payload values *)

Inductive dtype : Type := float16 | float32 | float64 | int32 | int64 | bool_.

(** [np.issubdtype(dt, np.floating)] *)
Definition is_floating (dt : dtype) : bool :=
  match dt with
  | float16 | float32 | float64 => true
  | _ => false
  end.

(** The elements of an array in logical order: IEEE values for a
    floating dtype, integers otherwise. *)
Inductive elems : Type :=
| Floats (l : list spec_float)
| Ints (l : list Z).

Record ndarray : Type := mkArray {
  arr_dtype : dtype;
  arr_shape : list nat;
  c_contiguous : bool;
  arr_elems : elems
}.

Inductive pyval : Type :=
| PArray (a : ndarray)
| PList (l : list pyval)
| PDict (d : list (string * pyval))
| PNone
| PBool (b : bool)
| PInt (z : Z)
| PFloat (f : spec_float)
| PStr (s : string).

(** [np.finfo(np.float32).max] and [.min] *)
Definition f32_max : spec_float := S754_finite false 16777215 104.
Definition f32_min : spec_float := S754_finite true 16777215 104.

(** Conversion of one value to [float32], rounding to nearest even. *)
Definition to_float32 (x : spec_float) : spec_float :=
  match x with
  | S754_finite s m e => binary_round 24 128 s m e
  | _ => x
  end.

(** [np.nan_to_num(x, nan=nan, posinf=posinf, neginf=neginf)] on one value *)
Definition nan_to_num (nan posinf neginf x : spec_float) : spec_float :=
  match x with
  | S754_nan => nan
  | S754_infinity false => posinf
  | S754_infinity true => neginf
  | _ => x
  end.

(** [np.ascontiguousarray] returns an array of at least one dimension. *)
Definition at_least_1d (shape : list nat) : list nat :=
  match shape with
  | [] => [1]
  | _ => shape
  end.

(** [ensure_contiguous_if_array] on an array *)
Definition ensure_contiguous_array (x : ndarray) : ndarray :=
  if is_floating (arr_dtype x) then
    mkArray float32 (at_least_1d (arr_shape x)) true
      (match arr_elems x with
       | Floats l =>
           Floats (map (fun v => nan_to_num S754_nan f32_max f32_min (to_float32 v)) l)
       | Ints l => Ints l
       end)
  else mkArray (arr_dtype x) (at_least_1d (arr_shape x)) true (arr_elems x).

Definition ensure_contiguous_if_array (x : pyval) : pyval :=
  match x with
  | PArray a => PArray (ensure_contiguous_array a)
  | _ => x
  end.

(** The body of the loop of [ensure_contiguous_arrays] for one value
    [v] of the dictionary. *)
Fixpoint ensure_value (v : pyval) : pyval :=
  match v with
  | PArray a => ensure_contiguous_if_array v
  | PList l => PList (List.map ensure_contiguous_if_array l)
  | PDict d => PDict (List.map (fun kv => (fst kv, ensure_value (snd kv))) d)
  | _ => v
  end.

Definition ensure_contiguous_arrays (d : list (string * pyval))
  : list (string * pyval) :=
  List.map (fun kv => (fst kv, ensure_value (snd kv))) d.

(** Every array of the value coerced, at any depth. *)
Fixpoint coerce_everywhere (v : pyval) : pyval :=
  match v with
  | PArray a => PArray (ensure_contiguous_array a)
  | PList l => PList (List.map coerce_everywhere l)
  | PDict d => PDict (List.map (fun kv => (fst kv, coerce_everywhere (snd kv))) d)
  | _ => v
  end.

Definition is_container (v : pyval) : bool :=
  match v with
  | PList _ | PDict _ => true
  | _ => false
  end.

(** The shape of the payloads the client builds: a list holds arrays
    and scalars, never another list or a dictionary. *)
Fixpoint flat_lists (v : pyval) : bool :=
  match v with
  | PList l => forallb (fun x => negb (is_container x)) l
  | PDict d => forallb (fun kv => flat_lists (snd kv)) d
  | _ => true
  end.

(** *** The request *)

Record HttpRequest (Bytes : Type) : Type := mkRequest {
  req_url : string;
  req_content : Bytes;
  req_headers : list (string * string)
}.
Arguments mkRequest {Bytes}.
Arguments req_url {Bytes}.
Arguments req_content {Bytes}.
Arguments req_headers {Bytes}.

Record HttpResponse (Bytes : Type) : Type := mkHttpResponse {
  status_code : Z;
  resp_content : Bytes
}.
Arguments mkHttpResponse {Bytes}.
Arguments status_code {Bytes}.
Arguments resp_content {Bytes}.

(** The libraries the transport calls: [orjson], [zstandard] and the
    formatting of bytes in an f-string. *)
Record Wire (Bytes : Type) : Type := mkWire {
  dumps : list (string * pyval) -> Bytes;
  len : Bytes -> Z;
  compress : bool -> Bytes -> Bytes;
  loads : Bytes -> option Json;
  repr_bytes : Bytes -> string
}.
Arguments mkWire {Bytes}.
Arguments dumps {Bytes}.
Arguments len {Bytes}.
Arguments compress {Bytes}.
Arguments loads {Bytes}.
Arguments repr_bytes {Bytes}.

Fixpoint assoc_json (k : string) (d : list (string * Json)) : option Json :=
  match d with
  | [] => None
  | (k', v) :: r => if String.eqb k k' then Some v else assoc_json k r
  end.

Definition is_data_string (j : Json) : bool :=
  match j with
  | JStr s => String.eqb s "data"
  | _ => false
  end.

(** [if "data" in resp_body: resp_body = resp_body["data"]] *)
Definition unwrap_data (resp_body : Json) : result Json :=
  match resp_body with
  | JObj kvs =>
      match assoc_json "data" kvs with
      | Some v => Ok v
      | None => Ok resp_body
      end
  | JArr l =>
      if existsb is_data_string l
      then Raise (TypeError "list indices must be integers or slices, not str")
      else Ok resp_body
  | JStr s =>
      if contains "data" s
      then Raise (TypeError "string indices must be integers, not 'str'")
      else Ok resp_body
  | _ => Raise (TypeError "argument is not iterable")
  end.

Section Request.
Context {Bytes : Type}.
Variable wire : Wire Bytes.
(** [client.post]: the response, or the exception the client raises. *)
Variable post : HttpRequest Bytes -> result (HttpResponse Bytes).

(** [len(content) / 2**20] *)
Definition content_size_mb (content : Bytes) : Q :=
  inject_Z (len wire content) / inject_Z (2 ^ 20).

(** The requests sent over the network, and what the call returns. *)
Definition _make_request (endpoint : string) (payload : list (string * pyval))
           (multithreaded_compress : bool)
  : list (HttpRequest Bytes) * result Json :=
  let payload := ensure_contiguous_arrays payload in
  let content := dumps wire payload in
  let size_mb := content_size_mb content in
  if Qltb 200 size_mb then
    ([], Raise (ValueError ("The payload is too large. Set num_partitions="
                            ++ decimal (Qceiling (size_mb / 200)))%string))
  else
    let request :=
      if Qltb 1 size_mb
      then mkRequest endpoint (compress wire multithreaded_compress content)
                     [("content-encoding"%string, "zstd"%string)]
      else mkRequest endpoint content [] in
    ([request],
     let* resp := post request in
     match loads wire (resp_content resp) with
     | None =>
         Raise (ApiError (Some (status_code resp))
                  (BodyText ("Could not parse JSON: "
                             ++ repr_bytes wire (resp_content resp))%string))
     | Some resp_body =>
         if negb (status_code resp =? 200)%Z
         then Raise (ApiError (Some (status_code resp)) (BodyJson resp_body))
         else unwrap_data resp_body
     end).
End Request.

(** [_make_request_with_retries]: the request under the retry policy.
    The [k]-th call reaches the server through [post k] and takes
    [duration k]. *)
Definition _make_request_with_retries {Bytes} (policy : Retry.Policy)
           (wire : Wire Bytes)
           (post : nat -> HttpRequest Bytes -> result (HttpResponse Bytes))
           (duration : nat -> Z) (start_time : Z)
           (endpoint : string) (payload : list (string * pyval))
           (multithreaded_compress : bool) : Retry.Run Json :=
  Retry.retry_call policy
    (fun k _ => (snd (_make_request wire (post k) endpoint payload
                                    multithreaded_compress),
                 duration k))
    start_time.

End Transport.

(** ** The shape of a run of the retry loop *)

Section RunShape.
Context {T : Type}.
Variables (policy : Retry.Policy) (fn : nat -> Z -> result T * Z) (start_time : Z).

(** The lines [after_retry] logs for a trace: one per attempt that
    failed with a retriable exception. *)
Definition logged (trace : list (Retry.Attempt T)) : list (nat * exn) :=
  flat_map (fun a => match Retry.outcome a with
                     | Raise e => if Retry.should_retry e
                                  then [(Retry.attempt_number a, e)] else []
                     | Ok _ => []
                     end) trace.

(** A run that makes its first call, numbered [k], at time [now]. *)
Definition run_shape (k : nat) (now : Z) (res : result T)
           (trace : list (Retry.Attempt T)) (log : list (nat * exn)) : Prop :=
  (exists a0, head trace = Some a0 /\ Retry.started a0 = now)
  /\ (forall i a, trace !! i = Some a ->
        Retry.attempt_number a = k + i
        /\ Retry.outcome a = fst (fn (k + i) (Retry.started a))
        /\ Retry.ended a = (Retry.started a + snd (fn (k + i) (Retry.started a)))%Z)
  /\ (forall i a b, trace !! i = Some a -> trace !! S i = Some b ->
        Retry.started b = (Retry.ended a + Retry.retry_interval policy)%Z)
  /\ (exists a, last trace = Some a /\ Retry.outcome a = res)
  /\ (forall i a, trace !! i = Some a ->
        (S i < length trace <-> Retry.goes_on policy start_time a))
  /\ log = logged trace.
End RunShape.

(** ** Stub transports for the examples *)

(** A wire whose bytes are strings: nothing parses, nothing is compressed. *)
Definition text_wire : Transport.Wire string :=
  Transport.mkWire (fun _ => "{}"%string)
                   (fun b => Z.of_nat (String.length b))
                   (fun _ b => b)
                   (fun _ => None)
                   (fun b => b).

(** A server that always answers [503] with an HTML page. *)
Definition gateway_down (k : nat) (req : Transport.HttpRequest string)
  : result (Transport.HttpResponse string) :=
  Ok (Transport.mkHttpResponse 503%Z "<html>Service Unavailable</html>"%string).

(** A call that fails once with [httpx.ReadError], then returns. *)
Definition read_error_once (k : nat) (now : Z) : result Z * Z :=
  (if k =? 1 then Raise httpx_ReadError else Ok 7%Z, 1%Z).

(** A call that always fails with status [503]. *)
Definition always_503 (k : nat) (now : Z) : result Z * Z :=
  (Raise (ApiError (Some 503%Z) (BodyJson JNull)), 2%Z).

(** A wire whose bytes are known by their number only: every payload
    serializes to [size] bytes. *)
Definition blob_wire (size : Z) : Transport.Wire Z :=
  Transport.mkWire (fun _ => size) (fun b => b) (fun _ b => (b / 2)%Z)
                   (fun _ => None) (fun _ => ""%string).

Definition MiB : Z := 1048576%Z.

(** A forecast payload with a [float64] target holding a NaN and both
    infinities, integer sizes and one feature row. *)
Definition sample_payload : list (string * Transport.pyval) :=
  [ ("series"%string,
     Transport.PDict
       [ ("y"%string,
          Transport.PArray
            (Transport.mkArray Transport.float64 [4] false
               (Transport.Floats [S754_nan; S754_infinity false;
                                  S754_infinity true; S754_finite false 3 0])));
         ("sizes"%string,
          Transport.PArray
            (Transport.mkArray Transport.int64 [1] true (Transport.Ints [4%Z])));
         ("X"%string,
          Transport.PList
            [ Transport.PArray
                (Transport.mkArray Transport.float64 [4] false
                   (Transport.Floats [S754_zero false; S754_zero false;
                                      S754_zero false; S754_infinity false])) ]);
         ("X_future"%string, Transport.PNone) ]);
    ("model"%string, Transport.PStr "timegpt-1");
    ("h"%string, Transport.PInt 2) ].

(** ** Levels and quantiles *)

Module Levels.

(** Quantiles are Python floats: IEEE 754 binary64 values, with the
    operations of [SpecFloat] (round to nearest, ties to even). *)
Definition prec : Z := 53.
Definition emax : Z := 1024.

(** [float(z)], the conversion Python applies to the integer operand of
    a mixed operation; exact for [|z| < 2^53]. *)
Definition of_int (z : Z) : spec_float := binary_normalize prec emax z 0 false.

Definition fmul : spec_float -> spec_float -> spec_float := SFmul prec emax.
Definition fsub : spec_float -> spec_float -> spec_float := SFsub prec emax.

(** The value Python reads from a decimal literal whose value is
    [num / den], such as [0.28] (28 / 100): the float nearest to it. *)
Definition float_lit (num den : Z) : spec_float :=
  SFdiv prec emax (of_int num) (of_int den).

(** The literal [0.5]. *)
Definition half : spec_float := S754_finite false 4503599627370496 (-53).

(** A Python float: a value in canonical form. *)
Definition is_float (x : spec_float) : bool := valid_binary prec emax x.

Definition is_nan (x : spec_float) : bool :=
  match x with
  | S754_nan => true
  | _ => false
  end.

(** [int(x)] of a float: truncation toward zero; NaN and the infinities
    are refused. *)
Definition py_int (x : spec_float) : result Z :=
  match x with
  | S754_zero _ => Ok 0%Z
  | S754_finite s m e =>
      let mag := if (0 <=? e)%Z then Z.shiftl (Zpos m) e
                 else Z.shiftr (Zpos m) (- e) in
      Ok (if s then (- mag)%Z else mag)
  | S754_infinity _ =>
      Raise (OtherException "OverflowError: cannot convert float infinity to integer")
  | S754_nan => Raise (ValueError "cannot convert float NaN to integer")
  end.

(** [0 < q < 1] *)
Definition in_unit_interval (q : spec_float) : bool :=
  SFltb (of_int 0) q && SFltb q (of_int 1).

(** [int(100 - 200 * q)] *)
Definition signed_level (q : spec_float) : result Z :=
  py_int (fsub (of_int 100) (fmul (of_int 200) q)).

(** A level: a Python int or float. *)
Inductive Number : Type :=
| NInt (z : Z)
| NFloat (x : spec_float).

Definition _prepare_level_and_quantiles
           (level : option (list Number)) (quantiles : option (list spec_float))
  : result (option (list Number) * option (list spec_float)) :=
  match level, quantiles with
  | Some _, Some _ =>
      Raise (ValueError "You should provide `level` or `quantiles`, but not both.")
  | _, None => Ok (level, quantiles)
  | None, Some qs =>
      if forallb in_unit_interval qs
      then
        let* level :=
          Merger.for_each
            (fun q => let* lv := signed_level q in Ok (NInt (Z.abs lv))) qs in
        Ok (Some level, quantiles)
      else Raise (ValueError "`quantiles` should be floats between 0 and 1.")
  end.

(** A data frame: its columns in order, by name. *)
Definition DataFrame (V : Type) : Type := list (string * list V).

Section Frames.
Context {V : Type}.

Fixpoint column (name : string) (df : DataFrame V) : option (list V) :=
  match df with
  | [] => None
  | (c, vals) :: r => if String.eqb name c then Some vals else column name r
  end.

(** [ufp.assign_columns(df, name, vals)]: the column is replaced where
    it stands, or added at the end. *)
Fixpoint assign_columns (df : DataFrame V) (name : string) (vals : list V)
  : DataFrame V :=
  match df with
  | [] => [(name, vals)]
  | (c, old) :: r =>
      if String.eqb name c then (c, vals) :: r
      else (c, old) :: assign_columns r name vals
  end.

(** [df[cols]] *)
Fixpoint select (df : DataFrame V) (cols : list string) : result (DataFrame V) :=
  match cols with
  | [] => Ok []
  | c :: r =>
      match column c df with
      | Some vals => let* rest := select df r in Ok ((c, vals) :: rest)
      | None => Raise (KeyError c)
      end
  end.

(** The column a quantile is read from. *)
Definition source_col (q : spec_float) : result string :=
  if SFeqb q half then Ok "TimeGPT"%string
  else
    let* lv := signed_level q in
    let hi_or_lo := if (0 <? lv)%Z then "lo"%string else "hi"%string in
    Ok ("TimeGPT-" ++ hi_or_lo ++ "-" ++ decimal (Z.abs lv))%string.

(** The column a quantile is written to. *)
Definition quantile_col (q : spec_float) : result string :=
  let* v := py_int (fmul q (of_int 100)) in
  Ok ("TimeGPT-q-" ++ decimal v)%string.

(** The two columns of a quantile, when both names are defined: the
    one it is read from and the one it is written to. *)
Definition reads_writes (q : spec_float) (c : string * string) : Prop :=
  source_col q = Ok (fst c) /\ quantile_col q = Ok (snd c).

(** [sorted(quantiles)]: a stable sort by [<], for floats that [<]
    orders (no NaN among them). *)
Fixpoint insert_sorted (q : spec_float) (l : list spec_float) : list spec_float :=
  match l with
  | [] => [q]
  | x :: r => if SFltb x q then x :: insert_sorted q r else q :: l
  end.

Definition sorted (l : list spec_float) : list spec_float := foldr insert_sorted [] l.

Fixpoint convert_loop (df : DataFrame V) (qs : list spec_float)
         (out_cols : list string) : result (DataFrame V * list string) :=
  match qs with
  | [] => Ok (df, out_cols)
  | q :: rest =>
      let* col := source_col q in
      let* q_col := quantile_col q in
      match column col df with
      | Some vals =>
          convert_loop (assign_columns df q_col vals) rest (out_cols ++ [q_col])
      | None => Raise (KeyError col)
      end
  end.

Definition is_interval_col (c : string) : bool :=
  contains "-lo-" c || contains "-hi-" c.

Definition _maybe_convert_level_to_quantiles (df : DataFrame V)
           (quantiles : option (list spec_float)) : result (DataFrame V) :=
  match quantiles with
  | None => Ok df
  | Some qs =>
      let out_cols := List.filter (fun c => negb (is_interval_col c)) (map fst df) in
      let* r := convert_loop df (sorted qs) out_cols in
      select (fst r) (snd r)
  end.
End Frames.

End Levels.

(** A forecast with the bounds of level 80, for the three rows of one
    series. *)
Definition forecast_80 : Levels.DataFrame Z :=
  [ ("unique_id"%string, [1; 1; 1]%Z);
    ("TimeGPT"%string, [50; 51; 52]%Z);
    ("TimeGPT-lo-80"%string, [40; 41; 42]%Z);
    ("TimeGPT-hi-80"%string, [60; 61; 62]%Z) ].

(** ** Input validator: the frequency check of [_run_validations] *)

Module Validation.

(** One row of the input table: series identifier, timestamp and target
    ([None] for a missing value).  Timestamps are counted in periods of
    the base unit of the frequency (days for ["D"], months for ["MS"]),
    which is the unit [id_time_grid] converts them to. *)
Record Row : Type := mkRow {
  unique_id : string;
  ds : Z;
  y : option Q
}.

(** The [freq] argument: a string (an alias and its multiple [n] of the
    base unit), an integer step, a pandas offset, or anything else. *)
Inductive Freq : Type :=
| FreqStr (alias : string) (n : Z)
| FreqInt (n : Z)
| FreqOffset (n : Z)
| FreqOther.

Record Call : Type := mkCall {
  validate_api_key : bool;
  api_key_is_valid : bool;
  model : string;
  df : list Row;
  freq : Freq
}.

Definition newline : string := String (Ascii.ascii_of_nat 10) EmptyString.

(** [_model_in_list(model, (re.compile("^timegpt-.+$"), "azureai"))] *)
Definition model_supported (m : string) : bool :=
  (String.prefix "timegpt-" m
   && (8 <? String.length m)
   && negb (contains newline m))
  || String.eqb m "azureai".

(** The identifiers of the table, each once. *)
Fixpoint dedupe (l : list string) : list string :=
  match l with
  | [] => []
  | x :: r => if existsb (String.eqb x) r then dedupe r else x :: dedupe r
  end.

Definition ids (df : list Row) : list string := dedupe (map unique_id df).

Definition times_of (u : string) (df : list Row) : list Z :=
  map ds (List.filter (fun r => String.eqb (unique_id r) u) df).

Definition list_min (ts : list Z) : Z :=
  match ts with
  | [] => 0%Z
  | t :: r => foldr Z.min t r
  end.

Definition list_max (ts : list Z) : Z :=
  match ts with
  | [] => 0%Z
  | t :: r => foldr Z.max t r
  end.

(** [np.arange(start, stop, step)] for a positive step. *)
Definition arange_step (start stop step : Z) : list Z :=
  map (fun k => (start + Z.of_nat k * step)%Z)
      (seq 0 (Z.to_nat ((stop - start + step - 1) / step))).

(** The dense grid of one series: from its first to its last timestamp. *)
Definition series_grid (delta : Z) (ts : list Z) : list Z :=
  arange_step (list_min ts) (list_max ts + delta) delta.

(** [((ends - starts) / delta).astype(np.int64)] for one series: the
    quotient of the span by the step, truncated. *)
Definition grid_size (delta : Z) (ts : list Z) : nat :=
  Z.to_nat (Z.quot (list_max ts + delta - list_min ts) delta).

(** [id_time_grid(df, freq, start="per_serie", end="per_serie")] of
    utilsforecast, for a positive step.  The times are the concatenation
    of one [np.arange] per series, which numpy refuses when there is no
    series; the identifiers are each repeated [sizes] times
    ([np.repeat]); the two columns make the frame, which pandas refuses
    when their lengths differ, that is when the span of a series is not a
    multiple of the step. *)
Definition id_time_grid (df : list Row) (delta : Z) : result (list (string * Z)) :=
  let index := ids df in
  let* times := np_hstack (map (fun u => series_grid delta (times_of u df)) index) in
  let uids := flat_map (fun u => replicate (grid_size delta (times_of u df)) u) index in
  if length uids =? length times then Ok (zip uids times)
  else Raise (ValueError "All arrays must be of the same length").

Definition frequency_error : exn :=
  ValueError "Series contain missing or duplicate timestamps, or the timestamps do not match the provided frequency.".

Definition _run_validations (c : Call) : result (list Row * Freq) :=
  if validate_api_key c && negb (api_key_is_valid c)
  then Raise (OtherException "API Key not valid, please email support@nixtla.io")
  else if negb (model_supported (model c))
  then Raise (ValueError ("unsupported model: " ++ model c ++ ".")%string)
  else if existsb (fun r => match y r with None => true | Some _ => false end) (df c)
  then Raise (ValueError "Target column (y) cannot contain missing values.")
  else
    let* freq_ok :=
      match freq c with
      | FreqStr _ n | FreqInt n =>
          let* expected_ids_times := id_time_grid (df c) n in
          Ok (length (df c) =? length expected_ids_times)
      | FreqOffset n =>
          Ok (forallb (fun u =>
                         let ts := times_of u (df c) in
                         (list_min ts + n * (Z.of_nat (length ts) - 1)
                          =? list_max ts)%Z)
                      (ids (df c)))
      | FreqOther =>
          Raise (ValueError "`freq` should be a string, integer or pandas offset")
      end in
    if freq_ok then Ok (df c, freq c) else Raise frequency_error.

(** The checks made before the frequency check pass. *)
Definition earlier_checks_pass (c : Call) : Prop :=
  validate_api_key c && negb (api_key_is_valid c) = false
  /\ model_supported (model c) = true
  /\ Forall (fun r => y r <> None) (df c).

(** *** Regular series and series with a gap *)

(** The timestamps [t0, t0 + delta, ..., t0 + m * delta]. *)
Definition regular_times (delta t0 : Z) (m : nat) : list Z :=
  map (fun k => (t0 + Z.of_nat k * delta)%Z) (seq 0 (S m)).

(** A complete regular series, its rows in any order. *)
Definition complete (delta : Z) (ts : list Z) : Prop :=
  exists t0 m, Permutation ts (regular_times delta t0 m).

(** The timestamps [t0 + i * delta] for [0 <= i <= m] except [i = k]. *)
Definition gap_times (delta t0 : Z) (m k : nat) : list Z :=
  map (fun i => (t0 + Z.of_nat i * delta)%Z) (seq 0 k ++ seq (S k) (m - k)).

(** A regular series from which the timestamp at one position [k]
    between the first and the last has been taken out, its rows in any
    order. *)
Definition one_step_gap (delta : Z) (ts : list Z) : Prop :=
  exists t0 m k, 0 < k < m /\ Permutation ts (gap_times delta t0 m k).

(** The span of a series, from its first to its last timestamp, is a
    multiple of the step. *)
Definition span_multiple (delta : Z) (ts : list Z) : Prop :=
  ((list_max ts - list_min ts) mod delta = 0)%Z.

End Validation.

(** Two daily series: [A] misses day 3 of days 0 to 4, [B] has days 0
    to 3. *)
Definition gap_call : Validation.Call :=
  Validation.mkCall false false "timegpt-1"
    [ Validation.mkRow "A" 0 (Some (1 # 1)%Q); Validation.mkRow "A" 1 (Some (2 # 1)%Q);
      Validation.mkRow "A" 2 (Some (3 # 1)%Q); Validation.mkRow "A" 4 (Some (5 # 1)%Q);
      Validation.mkRow "B" 0 (Some (1 # 1)%Q); Validation.mkRow "B" 1 (Some (1 # 1)%Q);
      Validation.mkRow "B" 2 (Some (1 # 1)%Q); Validation.mkRow "B" 3 (Some (1 # 1)%Q) ]
    (Validation.FreqStr "D" 1).

(** A series at times 0, 2 and 3, with the integer frequency 2. *)
Definition odd_span_call : Validation.Call :=
  Validation.mkCall false false "timegpt-1"
    [ Validation.mkRow "A" 0 (Some (1 # 1)%Q); Validation.mkRow "A" 2 (Some (2 # 1)%Q);
      Validation.mkRow "A" 3 (Some (3 # 1)%Q) ]
    (Validation.FreqInt 2).

(** A series at times 0 and 3, with the integer frequency 2. *)
Definition short_span_call : Validation.Call :=
  Validation.mkCall false false "timegpt-1"
    [ Validation.mkRow "A" 0 (Some (1 # 1)%Q); Validation.mkRow "A" 3 (Some (2 # 1)%Q) ]
    (Validation.FreqInt 2).

(** A table without rows, with a daily frequency. *)
Definition empty_call : Validation.Call :=
  Validation.mkCall false false "timegpt-1" [] (Validation.FreqStr "D" 1).

(** ** Input sizing: [_validate_input_size], [_restrict_input_samples]
    and the restriction of the cross-validation input *)

Module Sizing.

(** [a.min()]: numpy refuses an empty array. *)
Definition np_min (a : list nat) : result nat :=
  match a with
  | [] => Raise (ValueError "zero-size array to reduction operation minimum which has no identity")
  | x :: r => Ok (foldr Nat.min x r)
  end.

Definition too_short (needed : nat) : exn :=
  ValueError ("Some series are too short. Please make sure that each series contains at least "
              ++ decimal (Z.of_nat needed) ++ " observations.")%string.

Definition _validate_input_size {U T A} (processed : Tails.ProcessedDF U T A)
           (model_input_size model_horizon : nat) : result unit :=
  let* min_size := np_min (np_diff (Tails.indptr processed)) in
  if min_size <? model_input_size + model_horizon
  then Raise (too_short (model_input_size + model_horizon))
  else Ok tt.

Definition _restrict_input_samples {L} (level : option L)
           (input_size model_horizon h : nat) : nat :=
  match level with
  | Some _ => 3 * input_size + Nat.max model_horizon h
  | None => input_size
  end.

(** The block of [cross_validation] that restricts the input: the
    processed frame is truncated, then the times and the targets with the
    sizes the truncation left. *)
Definition cv_restrict_input {U T A B C L} (processed : Tails.ProcessedDF U T A)
           (times : list B) (targets : list C) (level : option L)
           (model_input_size model_horizon h step_size n_windows : nat)
  : result (Tails.ProcessedDF U T A * list B * list C) :=
  let new_input_size :=
    _restrict_input_samples level model_input_size model_horizon h
    + (h + step_size * (n_windows - 1)) in
  let orig_indptr := Tails.indptr processed in
  let* processed' := Tails._tail processed new_input_size in
  let* times' :=
    Tails._array_tails times orig_indptr (np_diff (Tails.indptr processed')) in
  let* targets' :=
    Tails._array_tails targets orig_indptr (np_diff (Tails.indptr processed')) in
  Ok (processed', times', targets').

End Sizing.

(** ** What a merged response holds, key by key *)

Module MergeSpec.

Section Defs.
Context {V W : Type}.
Abbreviation Resp := (Merger.Response V W).

(** The merged value of an optional array key: the key is there exactly
    when the first response has it, and then it is the concatenation, in
    partition order, of the arrays of all the responses. *)
Definition stacked {T} (get : Resp -> option (list T)) (results : list Resp)
           (merged : option (list T)) : Prop :=
  match head results with
  | None => False
  | Some first_res =>
      match get first_res with
      | None => merged = None
      | Some _ =>
          exists arrays,
            Forall2 (fun r a => get r = Some a) results arrays
            /\ merged = Some (concat arrays)
      end
  end.

(** The merged intervals: the bounds of the first response, in its
    order, each with the concatenation of that bound over the responses. *)
Definition stacked_intervals (results : list Resp)
           (merged : option (list (string * list V))) : Prop :=
  match head results with
  | None => False
  | Some first_res =>
      match Merger.intervals first_res with
      | None => merged = None
      | Some first_intervals =>
          exists d,
            merged = Some d
            /\ Forall2
                 (fun kv0 kv : string * list V =>
                    fst kv = fst kv0
                    /\ exists cols,
                        Forall2 (fun r c =>
                                   exists dr, Merger.intervals r = Some dr
                                              /\ Merger.assoc (fst kv0) dr = Some c)
                                results cols
                        /\ snd kv = concat cols)
                 first_intervals d
      end
  end.

(** Row [f] of the merged contributions: feature [f] of every
    partition, in partition order. *)
Definition feature_concat (f : nat) (fcs : list (list (list V))) : list V :=
  concat (map (fun fc => default [] (fc !! f)) fcs).
End Defs.

End MergeSpec.

(** A stub transport that answers every partition with the
    contributions of two features, one value per row of the partition. *)
Definition contributions_stub (p : Partition.Payload Z unit)
  : result (Merger.Response Z unit) :=
  Ok (Merger.mkResponse [0%Z] None None None None None Partition.Absent
        (Partition.Val
           (map (fun f => map (fun i => Z.of_nat (f + i))
                              (seq 0 (length (Partition.y (Partition.series p)))))
                [10; 20]))).

(** The same call with another [freq] argument. *)
Definition with_freq (c : Validation.Call) (f : Validation.Freq) : Validation.Call :=
  Validation.mkCall (Validation.validate_api_key c) (Validation.api_key_is_valid c)
                    (Validation.model c) (Validation.df c) f.

(** Two complete daily series, validated with a pandas offset of one day. *)
Definition offset_call : Validation.Call :=
  Validation.mkCall false false "timegpt-1"
    [ Validation.mkRow "A" 0 (Some (1 # 1)%Q); Validation.mkRow "A" 1 (Some (2 # 1)%Q);
      Validation.mkRow "A" 2 (Some (3 # 1)%Q);
      Validation.mkRow "B" 5 (Some (1 # 1)%Q); Validation.mkRow "B" 6 (Some (1 # 1)%Q) ]
    (Validation.FreqOffset 1).

(** ** Exogenous features: [_validate_exog] and [_process_exog_features] *)

Module Exog.

(** [c in l] for a list of names. *)
Definition mem (c : string) (l : list string) : bool := existsb (String.eqb c) l.

(** [l.index(c)]: the first position of [c]; Python raises when there is
    none. *)
Fixpoint index_of (c : string) (l : list string) : result nat :=
  match l with
  | [] => Raise (ValueError "x is not in list")
  | x :: r => if String.eqb x c then Ok 0
              else let* i := index_of c r in Ok (S i)
  end.

Definition missing_hist_error : exn :=
  ValueError "The following exogenous features were declared as historic but were not found in `df`".

Section Features.
Context {A : Type}.

(** [processed_data[:, 1:].T] for a two-dimensional array given by its
    number of columns and its rows: one row per feature. *)
Definition feature_rows (processed_data : Merger.matrix A) : list (list A) :=
  Merger.transpose (fst processed_data - 1) (map (drop 1) (snd processed_data)).

(** The function returns [X] and [hist_exog]; the two [logger.info]
    lines are not part of the result. *)
Definition _process_exog_features (processed_data : Merger.matrix A)
           (x_cols : list string) (hist_exog_list : option (list string))
  : result (option (list (list A)) * option (list nat)) :=
  if 1 <? fst processed_data then
    let X := feature_rows processed_data in
    match hist_exog_list with
    | None => Ok (Some X, None)
    | Some hist =>
        if existsb (fun c => negb (mem c x_cols)) hist
        then Raise missing_hist_error
        else
          let futr_exog := List.filter (fun c => negb (mem c hist)) x_cols in
          let fcst_features_order := futr_exog ++ hist in
          let* x_idxs :=
            Merger.for_each (fun c => index_of c x_cols) fcst_features_order in
          let* X' := take_idxs X x_idxs in
          let* hist_exog :=
            Merger.for_each (fun c => index_of c fcst_features_order) hist in
          Ok (Some X', Some hist_exog)
    end
  else Ok (None, None).
End Features.

End Exog.

(** A processed array of two rows: the target and the features
    [price], [promo] and [temp]. *)
Definition exog_data : Merger.matrix Z :=
  (4, [[1; 10; 20; 30]; [2; 11; 21; 31]]%Z).

(** ** Declared exogenous features: [_validate_exog] *)

Module ValidateExog.

(** The warnings the function emits, with the names they list.  The
    third one prints a set, whose order is left open. *)
Inductive Warning : Type :=
| IgnoredNoFuture (ignored_exogs : list string)
| IgnoredUndeclared (ignored_exogs : list string)
| HistoricInFuture (futr_and_hist : list string).

Definition when_nonempty (l : list string) (w : list string -> Warning)
  : list Warning :=
  match l with
  | [] => []
  | _ => [w l]
  end.

Definition missing_futr_error : exn :=
  ValueError "The following exogenous features are present in `X_df` but not in `df`".

Section Defs.
Context {V : Type}.
Abbreviation Frame := (Levels.DataFrame V).

Definition _validate_exog (df : Frame) (X_df : option Frame)
           (id_col time_col target_col : string) (hist_exog : option (list string))
  : result (list Warning * Frame * option Frame) :=
  let base_cols := [id_col; time_col; target_col] in
  let exogs := List.filter (fun c => negb (Exog.mem c base_cols)) (map fst df) in
  let hist_exog := match hist_exog with Some l => l | None => [] end in
  match X_df with
  | None =>
      let ignored_exogs := List.filter (fun c => negb (Exog.mem c hist_exog)) exogs in
      let exogs := List.filter (fun c => Exog.mem c hist_exog) exogs in
      let* df' := Levels.select df ([id_col; time_col; target_col] ++ exogs) in
      Ok (when_nonempty ignored_exogs IgnoredNoFuture, df', None)
  | Some X_df =>
      let futr_exog :=
        List.filter (fun c => negb (Exog.mem c base_cols)) (map fst X_df) in
      let ignored_exogs :=
        List.filter (fun c => negb (Exog.mem c (hist_exog ++ futr_exog))) exogs in
      let missing_futr := List.filter (fun c => negb (Exog.mem c exogs)) futr_exog in
      match missing_futr with
      | _ :: _ => Raise missing_futr_error
      | [] =>
          let futr_and_hist := List.filter (fun c => Exog.mem c hist_exog) futr_exog in
          let futr_exog :=
            match futr_and_hist with
            | _ :: _ => List.filter (fun f => negb (Exog.mem f hist_exog)) futr_exog
            | [] => futr_exog
            end in
          let* df' :=
            Levels.select df ([id_col; time_col; target_col] ++ futr_exog ++ hist_exog) in
          let* X_df' := Levels.select X_df ([id_col; time_col] ++ futr_exog) in
          Ok (when_nonempty ignored_exogs IgnoredUndeclared
              ++ when_nonempty futr_and_hist HistoricInFuture,
              df', Some X_df')
      end
  end.
End Defs.

End ValidateExog.

(** A table with two exogenous columns, and its future values for one
    of them. *)
Definition sales_df : Levels.DataFrame Z :=
  [ ("unique_id"%string, [0; 0]%Z); ("ds"%string, [1; 2]%Z); ("y"%string, [5; 6]%Z);
    ("temp"%string, [20; 21]%Z); ("price"%string, [10; 11]%Z) ].

Definition sales_future : Levels.DataFrame Z :=
  [ ("unique_id"%string, [0]%Z); ("ds"%string, [3]%Z); ("price"%string, [12]%Z) ].

(** ** Assembly of the forecast table: [_maybe_add_intervals] and the
    conversion to quantiles *)

Module Output.

(** The [intervals] entry of a response: [None], a dictionary whose
    first value is [None], or a dictionary of bounds (the service sends
    every bound or none).  A dictionary has each key once. *)
Inductive Intervals (V : Type) : Type :=
| NoIntervals
| FirstIsNone
| Bounds (d : list (string * list V)).
Arguments NoIntervals {V}.
Arguments FirstIsNone {V}.
Arguments Bounds {V} d.

(** [sorted(intervals.keys())] *)
Fixpoint insert_name (k : string) (l : list string) : list string :=
  match l with
  | [] => [k]
  | x :: r => if String.leb k x then k :: l else x :: insert_name k r
  end.

Definition sorted_names (l : list string) : list string := foldr insert_name [] l.

Section Defs.
Context {V : Type}.

Definition _maybe_add_intervals (df : Levels.DataFrame V) (intervals : Intervals V)
  : result (Levels.DataFrame V) :=
  match intervals with
  | NoIntervals | FirstIsNone | Bounds [] => Ok df
  | Bounds d =>
      let* intervals_df :=
        Merger.for_each
          (fun k => let* vals := Merger.get_key k (Merger.assoc k d) in
                    Ok (("TimeGPT-" ++ k)%string, vals))
          (sorted_names (map fst d)) in
      Ok (df ++ intervals_df)
  end.

(** The assembly of the result of [forecast] without history: the point
    forecast, the intervals, then the conversion to quantiles. *)
Definition forecast_output (out : Levels.DataFrame V) (resp_mean : list V)
           (resp_intervals : Intervals V) (quantiles : option (list spec_float))
  : result (Levels.DataFrame V) :=
  let out := Levels.assign_columns out "TimeGPT" resp_mean in
  let* out := _maybe_add_intervals out resp_intervals in
  Levels._maybe_convert_level_to_quantiles out quantiles.
End Defs.

(** The key of [intervals] a quantile other than the median is read
    from: the lower bound of its level when [int(100 - 200 * q)] is
    positive, the upper bound otherwise. *)
Definition bound_key (q : spec_float) : result string :=
  let* lv := Levels.signed_level q in
  Ok ((if (0 <? lv)%Z then "lo" else "hi") ++ "-" ++ decimal (Z.abs lv))%string.

End Output.

(** The identifiers and times of a forecast of three steps. *)
Definition future_frame : Levels.DataFrame Z :=
  [ ("unique_id"%string, [1; 1; 1]%Z); ("ds"%string, [7; 8; 9]%Z) ].

(** ** In-sample output: [_parse_in_sample_output] *)

Module InSample.

(** [np.repeat(a, repeats)]: one count per element, or a single count
    for all of them. *)
Definition np_repeat {U} (a : list U) (repeats : list nat) : result (list U) :=
  if length repeats =? length a
  then Ok (concat (zip_with (fun u s => replicate s u) a repeats))
  else match repeats with
       | [s] => Ok (concat (map (replicate s) a))
       | _ => Raise (ValueError "operands could not be broadcast together")
       end.

(** The table built from the response: the identifier and time columns,
    and the columns of values (the target, the fitted values and the
    intervals). *)
Record Table (U T V : Type) : Type := mkTable {
  id_values : list U;
  time_values : list T;
  value_columns : Levels.DataFrame V
}.
Arguments mkTable {U T V}.
Arguments id_values {U T V}.
Arguments time_values {U T V}.
Arguments value_columns {U T V}.

Section Defs.
Context {U T L V A : Type}.

(** [x[sort_idxs]] when the frame was sorted. *)
Definition maybe_sort {B} (x : list B) (sort_idxs : option (list nat))
  : result (list B) :=
  match sort_idxs with
  | Some idxs => take_idxs x idxs
  | None => Ok x
  end.

(** [times] and [targets] are the time and target columns of [df]; the
    frame constructor refuses columns of different lengths. *)
Definition _parse_in_sample_output
           (resp_sizes : list nat) (resp_mean : list V)
           (resp_intervals : Output.Intervals V)
           (times : list T) (targets : list V)
           (processed : Tails.ProcessedDF U L A) (target_col : string)
  : result (Table U T V) :=
  let* times := maybe_sort times (Tails.sort_idxs processed) in
  let* targets := maybe_sort targets (Tails.sort_idxs processed) in
  let* times := Tails._array_tails times (Tails.indptr processed) resp_sizes in
  let* targets := Tails._array_tails targets (Tails.indptr processed) resp_sizes in
  let* uids := np_repeat (Tails.uids processed) resp_sizes in
  if (length times =? length uids) && (length targets =? length uids)
     && (length resp_mean =? length uids)
  then
    let out := Levels.assign_columns [(target_col, targets)] "TimeGPT" resp_mean in
    let* cols := Output._maybe_add_intervals out resp_intervals in
    Ok (mkTable uids times cols)
  else Raise (ValueError "All arrays must be of the same length").
End Defs.

(** The identifier of every row of a ragged array. *)
Definition row_ids {U} (uids : list U) (indptr : list nat) : list U :=
  concat (zip_with (fun u s => replicate s u) uids (np_diff indptr)).

End InSample.

(** ** Model metadata: [_get_request] and the cache of [_get_model_params] *)

Module ModelParams.

(** [j[k]] for a string key. *)
Definition subscript (j : Json) (k : string) : result Json :=
  match j with
  | JObj kvs =>
      match Transport.assoc_json k kvs with
      | Some v => Ok v
      | None => Raise (KeyError k)
      end
  | JArr _ => Raise (TypeError "list indices must be integers or slices, not str")
  | JStr _ => Raise (TypeError "string indices must be integers, not 'str'")
  | _ => Raise (TypeError "object is not subscriptable")
  end.

(** [json.JSONDecodeError], a subclass of [ValueError]. *)
Definition json_decode_error : exn := ValueError "Expecting value".

Section Get.
Context {Bytes : Type}.
Variable wire : Transport.Wire Bytes.
(** [client.get(endpoint, params=params)] *)
Variable get : string -> list (string * string) -> result (Transport.HttpResponse Bytes).

Definition _get_request (endpoint : string) (params : list (string * string))
  : result Json :=
  let* resp := get endpoint params in
  match Transport.loads wire (Transport.resp_content resp) with
  | None => Raise json_decode_error
  | Some resp_body =>
      if negb (Transport.status_code resp =? 200)%Z
      then Raise (ApiError (Some (Transport.status_code resp)) (BodyJson resp_body))
      else Ok resp_body
  end.
End Get.

(** [self._model_params]: the parameters already fetched, by
    [(model, freq)]. *)
Definition Cache : Type := gmap (string * string) (Json * Json).

Section Params.
(** The request for the metadata under the retry policy: the POST of
    [_make_request_with_retries] on Azure, the GET of [_get_request]
    elsewhere; each returns what its last attempt returned or raised. *)
Variable post_with_retries : string -> list (string * string) -> result Json.
Variable get_with_retries : string -> list (string * string) -> result Json.
Variable is_azure : bool.

(** The requests made, the cache afterwards, and the value returned. *)
Definition _get_model_params (cache : Cache) (model freq : string)
  : list (string * list (string * string)) * Cache * result (Json * Json) :=
  let key := (model, freq) in
  match cache !! key with
  | Some params => ([], cache, Ok params)
  | None =>
      let payload := [("model"%string, model); ("freq"%string, freq)] in
      let endpoint := if is_azure then "model_params"%string
                      else "/model_params"%string in
      let answer := if is_azure then post_with_retries endpoint payload
                    else get_with_retries endpoint payload in
      match (let* resp_body := answer in
             let* params := subscript resp_body "detail" in
             let* input_size := subscript params "input_size" in
             let* horizon := subscript params "horizon" in
             Ok (input_size, horizon)) with
      | Ok params => ([(endpoint, payload)], <[key := params]> cache, Ok params)
      | Raise e => ([(endpoint, payload)], cache, Raise e)
      end
  end.
End Params.

End ModelParams.

(** A metadata service that answers every request with the same sizes. *)
Definition params_service (endpoint : string) (payload : list (string * string))
  : result Json :=
  Ok (JObj [("detail"%string,
             JObj [("input_size"%string, JNum (inject_Z 36));
                   ("horizon"%string, JNum (inject_Z 12))])]).

(** ** From a forecast payload to an in-sample payload *)

Module ToInSample.

Definition dropped_keys : list string :=
  ["h"; "finetune_steps"; "finetune_loss"]%string.

Section Defs.
Context {A T : Type}.
Abbreviation Payload := (Partition.Payload A (list (string * T))).

(** The new dictionary shares its ["series"] dictionary with the
    payload, so the [del] shows in both: the result is the in-sample
    payload and the payload as the call leaves it. *)
Definition _forecast_payload_to_in_sample (payload : Payload)
  : result (Payload * Payload) :=
  let s := Partition.series payload in
  match Partition.X_future s with
  | Partition.Absent => Raise (KeyError "X_future")
  | _ =>
      let series' :=
        Partition.mkSeries (Partition.y s) (Partition.sizes s) (Partition.X s)
                           Partition.Absent in
      Ok (Partition.mkPayload series'
            (List.filter (fun kv => negb (Exog.mem (fst kv) dropped_keys))
                         (Partition.rest payload)),
          Partition.mkPayload series' (Partition.rest payload))
  end.
End Defs.

End ToInSample.

(** The sizing block of [forecast]: the input size is validated when the
    model is fine-tuned or the history is asked for, and the input is
    restricted when it is not, provided there are no exogenous features. *)
Definition forecast_sizing {U T A L} (processed : Tails.ProcessedDF U T A)
           (finetune_steps : nat) (add_history : bool) (x_cols : list string)
           (level : option L) (model_input_size model_horizon h : nat)
  : result (Tails.ProcessedDF U T A) :=
  let* _ := if (0 <? finetune_steps) || add_history
            then Sizing._validate_input_size processed model_input_size model_horizon
            else Ok tt in
  let restrict_input :=
    (finetune_steps =? 0)
    && (match x_cols with [] => true | _ => false end)
    && negb add_history in
  if restrict_input
  then Tails._tail processed
         (Sizing._restrict_input_samples level model_input_size model_horizon h)
  else Ok processed.

(** ** Data audit: [_audit_duplicate_rows], [_audit_negative_values],
    [audit_data] and the fix of negative values in [clean_data] *)

Module Audit.

Inductive AuditDataSeverity : Type := FAIL | CASE_SPECIFIC | PASS.

(** What a test hands back with its verdict: rows of the table, names
    of columns, or one line per series; [pd.DataFrame()] is [Rows []]. *)
Inductive ErrorDF : Type :=
| Rows (rows : list Validation.Row)
| Columns (names : list string)
| Series (info : list (string * nat * nat)).

Definition row_key (r : Validation.Row) : string * Z :=
  (Validation.unique_id r, Validation.ds r).

Definition key_eq_dec (a b : string * Z) : {a = b} + {a <> b} := decide (a = b).

(** [df.duplicated(subset=[id_col, time_col], keep=False)] for one row *)
Definition duplicated (df : list Validation.Row) (r : Validation.Row) : bool :=
  1 <? count_occ key_eq_dec (map row_key df) (row_key r).

Definition _audit_duplicate_rows (df : list Validation.Row)
  : AuditDataSeverity * ErrorDF :=
  if existsb (duplicated df) df
  then (FAIL, Rows (List.filter (duplicated df) df))
  else (PASS, Rows []).

(** [df[target_col] < 0]: false for a missing value. *)
Definition is_negative (r : Validation.Row) : bool :=
  match Validation.y r with
  | Some v => Qltb v 0
  | None => false
  end.

Definition _audit_negative_values (df : list Validation.Row)
  : AuditDataSeverity * ErrorDF :=
  match List.filter is_negative df with
  | [] => (PASS, Rows [])
  | negative_values => (CASE_SPECIFIC, Rows negative_values)
  end.

Definition severity_eqb (a b : AuditDataSeverity) : bool :=
  match a, b with
  | FAIL, FAIL | CASE_SPECIFIC, CASE_SPECIFIC | PASS, PASS => true
  | _, _ => false
  end.

(** The outcome of [audit_data]: [all_pass], [fail_dict] and
    [case_specific_dict], the dictionaries in insertion order. *)
Record Report : Type := mkReport {
  all_pass : bool;
  fail_dict : list (string * option ErrorDF);
  case_specific_dict : list (string * option ErrorDF)
}.

(** One turn of the loop over the tests. *)
Definition record_test (acc : Report)
           (t : string * AuditDataSeverity * option ErrorDF) : Report :=
  let '(test_id, pass_val, error_df) := t in
  let acc :=
    if severity_eqb pass_val FAIL
    then mkReport false (fail_dict acc ++ [(test_id, error_df)])
                  (case_specific_dict acc)
    else acc in
  if severity_eqb pass_val CASE_SPECIFIC
  then mkReport false (fail_dict acc)
                (case_specific_dict acc ++ [(test_id, error_df)])
  else acc.

Section AuditData.
(** The tests modelled by their results: missing dates (run on the
    table when asked), categorical columns and leading zeros. *)
Variable _audit_missing_dates : list Validation.Row -> AuditDataSeverity * ErrorDF.
Variable audit_categorical : AuditDataSeverity * ErrorDF.
Variable audit_leading_zeros : AuditDataSeverity * ErrorDF.

Definition audit_data (df : list Validation.Row) : Report :=
  let D001 := _audit_duplicate_rows df in
  let D002 :=
    if negb (severity_eqb (fst D001) FAIL)
    then (fst (_audit_missing_dates df), Some (snd (_audit_missing_dates df)))
    else (FAIL, None) in
  let F001 := audit_categorical in
  let V001 := _audit_negative_values df in
  let V002 := audit_leading_zeros in
  fold_left record_test
    [ ("D001"%string, fst D001, Some (snd D001));
      ("D002"%string, fst D002, snd D002);
      ("F001"%string, fst F001, Some (snd F001));
      ("V001"%string, fst V001, Some (snd V001));
      ("V002"%string, fst V002, Some (snd V002)) ]
    (mkReport true [] []).
End AuditData.

(** [df.loc[df[target_col] < 0, target_col] = 0] *)
Definition remove_negative_values (df : list Validation.Row) : list Validation.Row :=
  map (fun r => if is_negative r
                then Validation.mkRow (Validation.unique_id r) (Validation.ds r)
                                      (Some 0%Q)
                else r) df.

End Audit.

(** A table with a repeated timestamp and a negative target. *)
Definition audited_rows : list Validation.Row :=
  [ Validation.mkRow "A" 0 (Some (1 # 1)%Q); Validation.mkRow "A" 1 (Some (-2 # 1)%Q);
    Validation.mkRow "A" 1 (Some (3 # 1)%Q); Validation.mkRow "B" 0 (Some (4 # 1)%Q) ].

(** Quantiles in ascending order. *)
Fixpoint ascending (l : list spec_float) : Prop :=
  match l with
  | a :: ((b :: _) as r) => SFleb a b = true /\ ascending r
  | _ => True
  end.

(* ===================================================================== *)
(** * Properties *)
(* ===================================================================== *)

(** Inequalities between rationals with literal denominators, as
    inequalities between integers. *)
Ltac q_arith :=
  unfold Qle, Qlt, Qdiv, Qmult, Qinv, Qminus, Qplus, Qopp, inject_Z in *;
  simpl in *; lia.

(** ** Lemmas on the Python helpers *)

Section HelperLemmas.
Context {A : Type}.
Implicit Types (x l : list A) (idxs : list nat).

Lemma take_idxs_app x idxs1 idxs2 :
  take_idxs x (idxs1 ++ idxs2) =
  (let* r1 := take_idxs x idxs1 in let* r2 := take_idxs x idxs2 in Ok (r1 ++ r2)).
Proof.
  induction idxs1 as [|i idxs1 IH]; simpl.
  - destruct (take_idxs x idxs2); reflexivity.
  - destruct (x !! i); [|reflexivity].
    rewrite IH. destruct (take_idxs x idxs1); simpl; [|reflexivity].
    destruct (take_idxs x idxs2); reflexivity.
Qed.

Lemma take_idxs_seq x a n :
  a + n <= length x -> take_idxs x (seq a n) = Ok (take n (drop a x)).
Proof.
  revert a. induction n as [|n IH]; intros a Hle; simpl.
  - reflexivity.
  - destruct (lookup_lt_is_Some_2 x a ltac:(lia)) as [v Hv].
    rewrite Hv, IH by lia. simpl.
    rewrite (drop_S _ _ _ Hv). reflexivity.
Qed.

Lemma slice_length a b x : b <= length x -> length (slice a b x) = b - a.
Proof. intros. unfold slice. rewrite length_take, length_drop. lia. Qed.

Lemma slice_app a b c x :
  a <= b -> b <= c -> slice a b x ++ slice b c x = slice a c x.
Proof.
  intros Hab Hbc. unfold slice.
  replace (c - a) with ((b - a) + (c - b)) by lia.
  rewrite <- take_take_drop, drop_drop.
  replace (a + (b - a)) with b by lia. reflexivity.
Qed.

Lemma slice_all x : slice 0 (length x) x = x.
Proof. unfold slice. rewrite drop_0, Nat.sub_0_r. apply firstn_all. Qed.
End HelperLemmas.

(** ** Tail extraction *)

Section TailsLemmas.
Import Tails.
Context {A : Type}.
Implicit Types (x : list A) (indptr out_sizes : list nat).

Lemma nondecreasing_bounded indptr n :
  nondecreasing indptr -> last indptr = Some n -> Forall (fun i => i <= n) indptr.
Proof.
  induction indptr as [|a [|b r] IH]; simpl; intros Hnd Hlast.
  - constructor.
  - injection Hlast as ->. repeat constructor.
  - destruct Hnd as [Hab Hnd]. specialize (IH Hnd Hlast).
    constructor; [|exact IH].
    inversion IH; subst. lia.
Qed.

Lemma last_n_slice x lo hi size :
  lo <= hi -> hi <= length x -> size <= hi - lo ->
  last_n size (slice lo hi x) = take size (drop (hi - size) x).
Proof.
  intros Hlo Hhi Hsz. unfold last_n. rewrite slice_length by exact Hhi.
  unfold slice. rewrite skipn_firstn_comm, drop_drop.
  f_equal; [lia | f_equal; lia].
Qed.

Lemma not_greater_of_le out_sizes (diffs : list nat) :
  Forall2 le out_sizes diffs ->
  np_greater out_sizes diffs = Ok (zip_with (fun s d => d <? s) out_sizes diffs)
  /\ existsb id (zip_with (fun s d => d <? s) out_sizes diffs) = false.
Proof.
  intros H. split.
  - unfold np_greater. rewrite (Forall2_length _ _ _ H), Nat.eqb_refl. reflexivity.
  - induction H as [|s d ss ds Hsd _ IH]; simpl; [reflexivity|].
    rewrite IH, orb_false_r. unfold id. apply Nat.ltb_ge. exact Hsd.
Qed.

Lemma tails_idxs_spec x indptr out_sizes :
  nondecreasing indptr ->
  Forall (fun i => i <= length x) indptr ->
  Forall2 le out_sizes (np_diff indptr) ->
  take_idxs x (concat (zip_with (fun e size => np_arange (e - size) e)
                                (tail indptr) out_sizes))
  = Ok (tails_spec x indptr out_sizes).
Proof.
  unfold tails_spec, series_of, np_diff.
  revert out_sizes.
  induction indptr as [|a [|b r] IH]; intros out_sizes Hnd Hb Hle.
  - inversion Hle; subst. reflexivity.
  - inversion Hle; subst. reflexivity.
  - destruct Hnd as [Hab Hnd].
    inversion Hb as [|? ? _ Hb']; subst.
    inversion Hb' as [|? ? Hbx _]; subst.
    simpl in Hle. inversion Hle as [|s d ss ds Hsd Hle']; subst.
    specialize (IH ss Hnd Hb' Hle').
    cbn [tail zip_with concat]. rewrite take_idxs_app.
    unfold np_arange at 1.
    rewrite take_idxs_seq by lia.
    cbn [tail] in IH. rewrite IH. cbn [rbind].
    rewrite last_n_slice by lia.
    do 3 f_equal. lia.
Qed.
End TailsLemmas.

Section TailsTheorems.
Import Tails.
Context {A : Type}.
Implicit Types (x : list A) (indptr out_sizes : list nat).

Lemma greater_of_lt out_sizes (diffs : list nat) i s d :
  out_sizes !! i = Some s -> diffs !! i = Some d -> d < s ->
  existsb id (zip_with (fun s d => d <? s) out_sizes diffs) = true.
Proof.
  intros Hs Hd Hlt. apply existsb_exists. exists true. split; [|reflexivity].
  apply list_elem_of_In, list_elem_of_lookup. exists i.
  rewrite lookup_zip_with, Hs. simpl. rewrite Hd. simpl.
  f_equal. apply Nat.ltb_lt. exact Hlt.
Qed.

Lemma array_tails_within x indptr out_sizes :
  ragged x indptr -> out_sizes <> [] ->
  Forall2 le out_sizes (np_diff indptr) ->
  _array_tails x indptr out_sizes = Ok (tails_spec x indptr out_sizes).
Proof.
  intros (Hhd & Hnd & Hlast) Hne Hle. unfold _array_tails.
  destruct (not_greater_of_le _ _ Hle) as [Hg He].
  rewrite Hg. cbn [rbind]. rewrite He.
  pose proof (nondecreasing_bounded _ _ Hnd Hlast) as Hb.
  pose proof (tails_idxs_spec x indptr out_sizes Hnd Hb Hle) as Hspec.
  pose proof (Forall2_length _ _ _ Hle) as Hlen.
  destruct (zip_with _ (tail indptr) out_sizes) as [|i0 idxs] eqn:Hz.
  - exfalso. apply (f_equal length) in Hz.
    rewrite length_zip_with, length_tl in Hz.
    unfold np_diff in Hlen. rewrite length_zip_with, length_tl in Hlen.
    destruct out_sizes; [congruence|]. simpl in *. lia.
  - cbn [np_hstack rbind]. exact Hspec.
Qed.

(** C7.  On a well-formed ragged array with one truncation size per
    series (and at least one series), [_array_tails] returns the last
    [out_sizes[i]] elements of every series [i], concatenated in series
    order, when no size exceeds the length of its series; and it raises
    [ValueError] as soon as one size exceeds the length of its series. *)
Theorem array_tails_correct x indptr out_sizes :
  ragged x indptr ->
  length out_sizes = length (np_diff indptr) ->
  out_sizes <> [] ->
  (Forall2 le out_sizes (np_diff indptr) ->
     _array_tails x indptr out_sizes = Ok (tails_spec x indptr out_sizes))
  /\ (forall i s d,
        out_sizes !! i = Some s -> np_diff indptr !! i = Some d -> d < s ->
        _array_tails x indptr out_sizes
        = Raise (ValueError "out_sizes must be at most the original sizes.")).
Proof.
  intros Hr Hlen Hne. split.
  - intros Hle. apply array_tails_within; assumption.
  - intros i s d Hs Hd Hlt. unfold _array_tails, np_greater.
    rewrite Hlen, Nat.eqb_refl. cbn [rbind].
    rewrite (greater_of_lt _ _ i s d Hs Hd Hlt). reflexivity.
Qed.

(** [_tail] never raises on a well-formed ragged array with at least one
    series: it keeps the last [min(len_i, n)] elements of every series. *)
Lemma tail_keeps_last {U T} (proc : ProcessedDF U T A) n :
  ragged (data proc) (indptr proc) ->
  np_diff (indptr proc) <> [] ->
  let new_sizes := map (fun s => Nat.min s n) (np_diff (indptr proc)) in
  _tail proc n =
  Ok (mkProcessedDF (uids proc) (last_times proc)
        (tails_spec (data proc) (indptr proc) new_sizes)
        (0 :: cumsum_from 0 new_sizes) None).
Proof.
  intros Hr Hne new_sizes. unfold _tail. fold new_sizes.
  assert (Hle : Forall2 le new_sizes (np_diff (indptr proc))).
  { subst new_sizes. induction (np_diff (indptr proc)); constructor; [lia|].
    destruct l; [constructor | apply IHl; discriminate]. }
  rewrite (array_tails_within (data proc) (indptr proc) new_sizes Hr);
    [reflexivity | | exact Hle].
  subst new_sizes. destruct (np_diff (indptr proc)); [congruence | discriminate].
Qed.
End TailsTheorems.

Lemma array_tails_correct_witness :
  Tails._array_tails [10; 20; 30; 40; 50] [0; 2; 5] [1; 2] = Ok [20; 40; 50]
  /\ Tails._array_tails [10; 20; 30; 40; 50] [0; 2; 5] [3; 2]
     = Raise (ValueError "out_sizes must be at most the original sizes.").
Proof.
  assert (Hr : Tails.ragged [10; 20; 30; 40; 50] [0; 2; 5]).
  { unfold Tails.ragged; simpl. repeat split; lia. }
  split.
  - destruct (array_tails_correct [10; 20; 30; 40; 50] [0; 2; 5] [1; 2] Hr)
      as [Hok _]; [reflexivity | discriminate |].
    apply Hok. repeat constructor.
  - destruct (array_tails_correct [10; 20; 30; 40; 50] [0; 2; 5] [3; 2] Hr)
      as [_ Hraise]; [reflexivity | discriminate |].
    apply (Hraise 0 3 2); [reflexivity | reflexivity | lia].
Defined.

(** ** Partitioner *)

Lemma sum_list_app (l k : list nat) : sum_list (l ++ k) = sum_list l + sum_list k.
Proof. induction l as [|a l IH]; simpl; [reflexivity | rewrite IH; lia]. Qed.

Lemma ceil_div_bounds a b :
  0 < b -> a <= ceil_div a b * b /\ ceil_div a b * b < a + b.
Proof.
  intros Hb. unfold ceil_div.
  pose proof (Nat.div_mod_eq a b) as Hdm.
  pose proof (Nat.mod_upper_bound a b ltac:(lia)) as Hm.
  destruct (Nat.eqb_spec (a mod b) 0) as [Hz|Hz]; nia.
Qed.

Lemma ceil_div_unique a b c :
  0 < b -> a <= c * b -> c * b < a + b -> ceil_div a b = c.
Proof.
  intros Hb H1 H2. destruct (ceil_div_bounds a b Hb) as [H3 H4]. nia.
Qed.

Lemma ceil_div_pos a b : 0 < b -> 0 < a -> 0 < ceil_div a b.
Proof. intros Hb Ha. destruct (ceil_div_bounds a b Hb). nia. Qed.

Lemma ceil_div_le_self a b : 0 < b -> ceil_div a b <= a.
Proof. intros Hb. destruct (ceil_div_bounds a b Hb). nia. Qed.

Lemma ceil_div_step a b :
  0 < b -> 0 < a -> ceil_div a b = S (ceil_div (a - b) b).
Proof.
  intros Hb Ha.
  destruct (ceil_div_bounds (a - b) b Hb) as [H1 H2].
  set (c := ceil_div (a - b) b) in *.
  apply ceil_div_unique; [exact Hb | |]; rewrite Nat.mul_succ_l.
  - lia.
  - destruct (le_lt_dec b a) as [Hle|Hlt]; [lia|].
    replace (a - b) with 0 in H2 by lia.
    assert (c = 0) by nia. subst c. lia.
Qed.

(** The count never exceeds the clamped number of partitions. *)
Lemma ceil_div_ceil_div_le n p :
  0 < p -> p <= n -> ceil_div n (ceil_div n p) <= p.
Proof.
  intros Hp Hpn.
  assert (Hs : 0 < ceil_div n p) by (apply ceil_div_pos; lia).
  destruct (ceil_div_bounds n p Hp) as [H1 H2].
  destruct (ceil_div_bounds n (ceil_div n p) Hs) as [H3 H4].
  nia.
Qed.

Lemma range_loop_length fuel i stop step :
  0 < step -> stop - i <= fuel ->
  length (Partition.range_loop fuel i stop step) = ceil_div (stop - i) step.
Proof.
  intros Hstep. revert i. induction fuel as [|fuel IH]; intros i Hfuel; simpl.
  - replace (stop - i) with 0 by lia. unfold ceil_div.
    rewrite Nat.Div0.mod_0_l, Nat.Div0.div_0_l. reflexivity.
  - destruct (Nat.ltb_spec i stop) as [Hlt|Hge].
    + simpl. rewrite IH by lia.
      rewrite (ceil_div_step (stop - i) step) by lia.
      do 2 f_equal. lia.
    + replace (stop - i) with 0 by lia. unfold ceil_div.
      rewrite Nat.Div0.mod_0_l, Nat.Div0.div_0_l. reflexivity.
Qed.

Section PartitionLemmas.
Import Partition.
Context {A R : Type}.
Variables (s : Series A) (other : R) (h spp : nat).

Lemma offset_add i k :
  offset (sizes s) (i + k)
  = offset (sizes s) i + sum_list (take k (drop i (sizes s))).
Proof. unfold offset. rewrite <- take_take_drop, sum_list_app. reflexivity. Qed.

Lemma offset_mono i j : i <= j -> offset (sizes s) i <= offset (sizes s) j.
Proof.
  intros Hij. replace j with (i + (j - i)) by lia. rewrite offset_add. lia.
Qed.

Lemma offset_all j : length (sizes s) <= j -> offset (sizes s) j = sum_list (sizes s).
Proof. intros Hj. unfold offset. rewrite take_ge by exact Hj. reflexivity. Qed.

Lemma make_part_chunk i :
  future_readable s h ->
  make_part s h spp i (offset (sizes s) i)
  = Ok (chunk s h spp i, offset (sizes s) (i + spp)).
Proof.
  intros Hfut. unfold make_part, chunk.
  assert (Hoff : offset (sizes s) i + sum_list (slice i (i + spp) (sizes s))
                 = offset (sizes s) (i + spp)).
  { rewrite offset_add. unfold slice. do 3 f_equal. lia. }
  rewrite !Hoff. unfold future_readable in Hfut.
  destruct (X s) as [xs|] eqn:HX; simpl.
  - destruct (Nat.ltb_spec 0 h) as [Hh|Hh]; [|reflexivity].
    destruct (Hfut Hh ltac:(discriminate)) as [xf ->]. reflexivity.
  - destruct (0 <? h); reflexivity.
Qed.

Lemma parts_loop_chunks starts :
  future_readable s h ->
  forall fuel i,
    starts = range_loop fuel i (length (sizes s)) spp ->
    parts_loop s other h spp starts (offset (sizes s) i)
    = Ok (map (fun j => mkPayload (chunk s h spp j) other) starts).
Proof.
  intros Hfut. induction starts as [|j starts IH]; intros fuel i Hst.
  - reflexivity.
  - destruct fuel as [|fuel]; [discriminate|]. simpl in Hst.
    destruct (i <? length (sizes s)); [|discriminate].
    injection Hst as -> Hst.
    cbn [parts_loop]. rewrite (make_part_chunk i Hfut). cbn [rbind snd fst].
    rewrite (IH fuel (i + spp) Hst). reflexivity.
Qed.

(** Slices taken at the images of the chunk starts under a monotone
    offset function tile the rest of the buffer. *)
Lemma concat_slices_range {B} (F : nat -> nat) (l : list B) n :
  0 < spp ->
  (forall a b, a <= b -> F a <= F b) ->
  (forall j, n <= j -> length l <= F j) ->
  forall fuel i, n - i <= fuel ->
    concat (map (fun j => slice (F j) (F (j + spp)) l) (range_loop fuel i n spp))
    = drop (F i) l.
Proof.
  intros Hspp Hmono Hend. induction fuel as [|fuel IH]; intros i Hfuel; simpl.
  - rewrite drop_ge; [reflexivity | apply Hend; lia].
  - destruct (Nat.ltb_spec i n) as [Hlt|Hge].
    + simpl. rewrite IH by lia. unfold slice.
      pose proof (Hmono i (i + spp) ltac:(lia)) as Hle.
      rewrite <- (take_drop (F (i + spp) - F i) (drop (F i) l)) at 2.
      rewrite drop_drop. do 3 f_equal. lia.
    + rewrite drop_ge; [reflexivity | apply Hend; lia].
Qed.
End PartitionLemmas.

Section PartitionTheorems.
Import Partition.
Context {A R : Type}.
Implicit Types (payload : Payload A R) (s : Series A).

(** With at least one series, at least one requested partition and a
    readable future matrix, the partitioner returns the chunks that
    start at series [0], [spp], [2 * spp], ... *)
Lemma partition_series_chunks payload n_part h :
  let s := series payload in
  let n := length (sizes s) in
  let spp := ceil_div n (Nat.min n_part n) in
  1 <= n -> 1 <= n_part -> future_readable s h ->
  0 < spp /\
  _partition_series payload n_part h
  = Ok (map (fun j => mkPayload (chunk s h spp j) (rest payload))
            (range_loop n 0 n spp)).
Proof.
  intros s n spp Hn Hp Hfut.
  assert (Hspp : 0 < spp) by (apply ceil_div_pos; lia).
  split; [exact Hspp|].
  unfold _partition_series. fold s. fold n.
  destruct (Nat.eqb_spec (Nat.min n_part n) 0) as [Hz|_]; [lia|].
  fold spp. unfold py_range.
  destruct (Nat.eqb_spec spp 0) as [Hz|_]; [lia|].
  cbn [rbind]. rewrite Nat.sub_0_r.
  apply (parts_loop_chunks s (rest payload) h spp _ Hfut n 0). reflexivity.
Qed.

(** X5.  Apart from the unreadable future matrix, the partitioned payload
    reproduces the original: chunks of [spp] consecutive series in
    order, every chunk holding exactly the rows of its series, and the
    concatenation of the parts' [sizes], [y], and of every row of [X]
    and [X_future], giving back the original. *)
Lemma partition_series_roundtrip payload n_part h :
  let s := series payload in
  let n := length (sizes s) in
  let spp := ceil_div n (Nat.min n_part n) in
  1 <= n -> 1 <= n_part -> well_formed s h -> future_shape s h ->
  exists parts,
    _partition_series payload n_part h = Ok parts
    /\ (forall k p, parts !! k = Some p ->
          sizes (series p) = slice (k * spp) (k * spp + spp) (sizes s)
          /\ y (series p) = slice (offset (sizes s) (k * spp))
                                  (offset (sizes s) (k * spp + spp)) (y s)
          /\ length (y (series p)) = sum_list (sizes (series p)))
    /\ concat (map (fun p => sizes (series p)) parts) = sizes s
    /\ concat (map (fun p => y (series p)) parts) = y s
    /\ Forall (fun p => option_map length (X (series p)) = option_map length (X s)
                        /\ forall xf, X_future s = Val xf ->
                             exists xf', X_future (series p) = Val xf'
                                         /\ length xf' = length xf) parts
    /\ (forall f, concat (map (fun p => feature_row f (X (series p))) parts)
                  = feature_row f (X s))
    /\ (forall f, concat (map (fun p => entry_row f (X_future (series p))) parts)
                  = entry_row f (X_future s))
    /\ Forall (fun p => X_future s = PyNone -> X_future (series p) = PyNone) parts
    /\ Forall (fun p => X_future s = Absent -> X_future (series p) = Absent) parts.
Proof.
  intros s n spp Hn Hp (Hy & HX & HXf) Hshape.
  assert (Hfut : future_readable s h).
  { intros Hh HXn. unfold future_shape in Hshape.
    destruct (X s); [|congruence].
    destruct (Nat.ltb_spec 0 h); [exact Hshape | lia]. }
  destruct (partition_series_chunks payload n_part h Hn Hp Hfut) as [Hspp Hrun].
  fold s n spp in Hspp, Hrun.
  eexists. split; [exact Hrun|].
  set (starts := range_loop n 0 n spp).
  assert (Hstarts : forall k j, starts !! k = Some j -> j = k * spp).
  { subst starts. generalize n at 1 as fuel.
    assert (Hgen : forall fuel i k j,
               range_loop fuel i n spp !! k = Some j -> j = i + k * spp).
    { induction fuel as [|fuel IH]; intros i k j; simpl; [discriminate|].
      destruct (i <? n); [|discriminate].
      destruct k as [|k]; simpl.
      - intros [= ->]. lia.
      - intros Hk. apply IH in Hk. lia. }
    intros fuel k j Hk. apply Hgen in Hk. lia. }
  repeat split.
  - rewrite list_lookup_fmap in H.
    destruct (starts !! k) as [j|] eqn:Hj; [|discriminate].
    injection H as <-. apply Hstarts in Hj as ->. reflexivity.
  - rewrite list_lookup_fmap in H.
    destruct (starts !! k) as [j|] eqn:Hj; [|discriminate].
    injection H as <-. apply Hstarts in Hj as ->. reflexivity.
  - rewrite list_lookup_fmap in H.
    destruct (starts !! k) as [j|] eqn:Hj; [|discriminate].
    injection H as <-. cbn [series chunk y sizes].
    rewrite slice_length.
    + rewrite (offset_add s j spp). unfold slice.
      replace (j + spp - j) with spp by lia. lia.
    + rewrite Hy. unfold offset.
      rewrite <- (take_drop (j + spp) (sizes s)) at 2.
      rewrite sum_list_app. lia.
  - rewrite map_map. cbn [series chunk sizes].
    pose proof (concat_slices_range spp (fun j => j) (sizes s) n Hspp) as Hc.
    cbv beta in Hc. unfold starts.
    rewrite Hc; [apply drop_0 | lia | unfold n; lia | lia].
  - rewrite map_map. cbn [series chunk y].
    unfold starts.
    rewrite (concat_slices_range spp (offset (sizes s)) (y s) n Hspp).
    + unfold offset. simpl. apply drop_0.
    + apply offset_mono.
    + intros j Hj. rewrite Hy, offset_all; [lia | exact Hj].
    + lia.
  - apply Forall_forall. intros p Hp'.
    apply list_elem_of_fmap in Hp' as (j & -> & _).
    cbn [series chunk X X_future]. split.
    + destruct (X s); simpl; [rewrite length_map|]; reflexivity.
    + intros xf Hxf. unfold future_shape in Hshape. rewrite Hxf in *.
      destruct (X s); destruct (0 <? h); try discriminate;
        try (destruct Hshape; discriminate).
      eexists. split; [reflexivity | apply length_map].
  - intros f. rewrite map_map. cbn [series chunk X].
    destruct (X s) as [xs|] eqn:HXs; simpl.
    + specialize (HX xs eq_refl).
      destruct (xs !! f) as [row|] eqn:Hrow; simpl.
      * erewrite map_ext.
        2:{ intros j. rewrite list_lookup_fmap, Hrow. simpl. reflexivity. }
        unfold starts.
        rewrite (concat_slices_range spp (offset (sizes s)) row n Hspp).
        -- unfold offset. simpl. apply drop_0.
        -- apply offset_mono.
        -- intros j Hj. rewrite Forall_forall in HX.
           rewrite (HX row), offset_all; [lia | exact Hj |].
           apply list_elem_of_lookup. eauto.
        -- lia.
      * erewrite map_ext.
        2:{ intros j. rewrite list_lookup_fmap, Hrow. simpl. reflexivity. }
        clear. induction starts; simpl; auto.
    + clear. induction starts; simpl; auto.
  - intros f. rewrite map_map. cbn [series chunk X_future].
    unfold future_shape in Hshape.
    destruct (X s) as [xs|] eqn:HXs.
    + destruct (Nat.ltb_spec 0 h) as [Hh|Hh].
      * destruct Hshape as [xf Hxf]. rewrite Hxf. specialize (HXf xf Hxf).
        cbn [entry_row].
        destruct (xf !! f) as [row|] eqn:Hrow; simpl.
        -- erewrite map_ext.
           2:{ intros j. rewrite list_lookup_fmap, Hrow. simpl. reflexivity. }
           pose proof (concat_slices_range spp (fun j => j * h) row n Hspp) as Hc.
           cbv beta in Hc. unfold starts. rewrite Hc.
           ++ simpl. apply drop_0.
           ++ intros a b Hab. nia.
           ++ intros j Hj. rewrite Forall_forall in HXf.
              rewrite (HXf row); [fold n; nia |].
              apply list_elem_of_lookup. eauto.
           ++ lia.
        -- erewrite map_ext.
           2:{ intros j. rewrite list_lookup_fmap, Hrow. simpl. reflexivity. }
           clear. induction starts; simpl; auto.
      * rewrite Hshape. simpl. clear. induction starts; simpl; auto.
    + rewrite Hshape. destruct (0 <? h); simpl; clear; induction starts; simpl; auto.
  - apply Forall_forall. intros p Hp'.
    apply list_elem_of_fmap in Hp' as (j & -> & _).
    cbn [series chunk X_future]. intros Hnone.
    unfold future_shape in Hshape. rewrite Hnone in Hshape.
    destruct (X s); destruct (0 <? h); try discriminate;
      try (destruct Hshape; discriminate); reflexivity.
  - apply Forall_forall. intros p Hp'.
    apply list_elem_of_fmap in Hp' as (j & -> & _).
    cbn [series chunk X_future]. intros Habs.
    unfold future_shape in Hshape. rewrite Habs in Hshape.
    destruct (X s); destruct (0 <? h); try discriminate;
      try (destruct Hshape; discriminate); reflexivity.
Qed.
End PartitionTheorems.

Lemma range_loop_lt fuel i stop step :
  Forall (fun j => j < stop) (Partition.range_loop fuel i stop step).
Proof.
  revert i. induction fuel as [|fuel IH]; intros i; simpl; [constructor|].
  destruct (Nat.ltb_spec i stop); constructor; [assumption | apply IH].
Qed.




(** C2.  A payload with historic exogenous features only ([X] is a
    matrix, [X_future] is [None]), consistent with the data model, and a
    positive horizon makes [_partition_series] raise [TypeError]: the
    loop body iterates over [series["X_future"]] whenever [X] is not
    [None]. *)
Theorem partition_series_hist_exog_raises :
  Partition.well_formed (Partition.series hist_exog_payload) 1
  /\ length (Partition.sizes (Partition.series hist_exog_payload)) = 2
  /\ Partition._partition_series hist_exog_payload 2 1
     = Raise (TypeError "'NoneType' object is not iterable").
Proof.
  split; [|split; reflexivity].
  unfold Partition.well_formed, hist_exog_payload. cbn. split; [reflexivity|].
  split.
  - intros xs [= <-]. repeat constructor.
  - intros xf Hxf. discriminate Hxf.
Qed.

(** ** Result merger *)

Section MergerLemmas.
Import Merger.
Context {A R : Type}.
Implicit Types (payloads : list (Partition.Payload A R)).

(** The offset the code applies to partition [j + 1] is the number of
    rows of partition [j] alone. *)
Lemma offsets_lookup payloads j p :
  payloads !! j = Some p -> S j < length payloads ->
  offsets payloads !! S j = Some (rows p).
Proof.
  unfold offsets. cbn [lookup list_lookup]. revert j.
  induction payloads as [|q [|q' ps] IH]; intros j Hj Hlen; simpl in *.
  - discriminate.
  - lia.
  - destruct j as [|j]; simpl in *.
    + injection Hj as ->. reflexivity.
    + apply IH; [exact Hj | lia].
Qed.

(** With at most two partitions the offsets are the cumulative ones. *)
Lemma offsets_cumulative_upto_two payloads :
  1 <= length payloads <= 2 ->
  offsets payloads = cumulative_offsets 0 payloads.
Proof.
  destruct payloads as [|p [|q [|r ps]]]; simpl; intros Hlen; try lia;
    reflexivity.
Qed.
End MergerLemmas.

(** C1.  With three partitions of 2, 3 and 4 rows whose responses each
    select their local row 0, [_make_partitioned_requests] returns
    [idxs = [0, 2, 3]]: the third partition is shifted by the 3 rows of
    the second partition only, whereas the cumulative offset 2 + 3 asked
    by the specification gives [[0, 2, 5]]. *)
Theorem merged_idxs_not_cumulative :
  exists r,
    Merger._make_partitioned_requests first_row_stub three_parts = Ok r
    /\ Merger.idxs r = Some [0; 2; 3]
    /\ Merger.merged_idxs_spec [[0]; [0]; [0]] three_parts = [0; 2; 5].
Proof. eexists. repeat split. Qed.

(** ** Retry policy *)

Section RetryLemmas.
Import Retry.
Context {T : Type}.
Variables (policy : Policy) (fn : nat -> Z -> result T * Z) (start_time : Z).

Lemma retriable_code_iff code :
  existsb (Z.eqb code) retriable_codes = true
  <-> In code [408; 409; 429; 502; 503; 504]%Z.
Proof.
  unfold retriable_codes. rewrite existsb_exists. split.
  - intros (c & Hin & Heq). apply Z.eqb_eq in Heq. subst c. exact Hin.
  - intros Hin. exists code. split; [exact Hin | apply Z.eqb_refl].
Qed.

Lemma should_retry_iff e :
  should_retry e = true
  <-> In e [ConnectionResetError; httpcore_ConnectError;
            httpcore_RemoteProtocolError; httpx_ConnectTimeout;
            httpx_ReadError; httpx_RemoteProtocolError; httpx_ReadTimeout;
            httpx_PoolTimeout; httpx_WriteError; httpx_WriteTimeout]
      \/ (exists code body, e = ApiError (Some code) body
                            /\ In code [408; 409; 429; 502; 503; 504]%Z).
Proof.
  split.
  - destruct e as [| | | | | | | | | |[code|] body| | | | | |]; simpl;
      try discriminate; intros H;
      try (left; simpl; tauto).
    right. exists code, body. split; [reflexivity|].
    apply retriable_code_iff. exact H.
  - intros [Hin | (code & body & -> & Hin)].
    + simpl in Hin.
      repeat (destruct Hin as [<- | Hin]; [reflexivity|]). contradiction.
    + simpl. apply retriable_code_iff. exact Hin.
Qed.

Lemma stop_false_iff k elapsed :
  stop policy k elapsed = false
  <-> (Z.of_nat k < max_retries policy)%Z /\ (elapsed < max_wait_time policy)%Z.
Proof.
  unfold stop. rewrite orb_false_iff, !Z.leb_gt. reflexivity.
Qed.

Lemma retry_loop_shape fuel :
  forall k now,
    0 < fuel -> (max_retries policy < Z.of_nat k + Z.of_nat fuel)%Z ->
    exists res trace log,
      retry_loop policy fn start_time fuel k now = Finished res trace log
      /\ run_shape policy fn start_time k now res trace log.
Proof.
  induction fuel as [|fuel IH]; intros k now Hpos Hfuel; [lia|].
  cbn [retry_loop].
  set (this := mkAttempt k now (now + snd (fn k now)) (fst (fn k now))).
  assert (Hsingle : forall res,
             fst (fn k now) = res ->
             ~ goes_on policy start_time this ->
             run_shape policy fn start_time k now res [this] (logged [this])).
  { intros res Hres Hno. unfold run_shape.
    split; [|split; [|split; [|split; [|split]]]].
    - exists this. split; reflexivity.
    - intros i a H. destruct i; [|discriminate]. injection H as <-. simpl.
      rewrite Nat.add_0_r. repeat split; lia.
    - intros i a b _ Hb. destruct i; discriminate.
    - exists this. split; [reflexivity | exact Hres].
    - intros i a H. destruct i; [|discriminate]. injection H as <-. simpl.
      split; [lia | contradiction].
    - reflexivity. }
  destruct (fst (fn k now)) as [v|e] eqn:Hout.
  - exists (Ok v), [this], []. split; [reflexivity|].
    replace (@nil (nat * exn)) with (logged [this])
      by (unfold logged, this; simpl; rewrite ?Hout; reflexivity).
    apply Hsingle; [reflexivity|].
    intros [(e & He & _) _]. unfold this in He. simpl in He. congruence.
  - destruct (should_retry e) eqn:Hretry.
    + destruct (stop policy k (now + snd (fn k now) - start_time)) eqn:Hstop.
      * exists (Raise e), [this], [(k, e)]. split; [reflexivity|].
        replace [(k, e)] with (logged [this])
          by (unfold logged, this; simpl; rewrite ?Hout, ?Hretry; reflexivity).
        apply Hsingle; [reflexivity|].
        intros (_ & Hk & Ht). unfold this in Hk, Ht. simpl in Hk, Ht.
        assert (stop policy k (now + snd (fn k now) - start_time) = false)
          by (apply stop_false_iff; split; assumption).
        congruence.
      * apply stop_false_iff in Hstop as [Hk Ht].
        destruct (IH (S k) (now + snd (fn k now) + retry_interval policy)%Z)
          as (res & trace & log & Hrun & Hshape); [lia | lia |].
        rewrite Hrun. exists res, (this :: trace), ((k, e) :: log).
        split; [reflexivity|].
        destruct Hshape as ((a0 & Hhd & Hst) & Hnum & Hgap & (al & Hlast & Hres)
                            & Hgo & Hlog).
        assert (Hne : trace <> []) by (destruct trace; [discriminate | discriminate]).
        unfold run_shape.
        split; [|split; [|split; [|split; [|split]]]].
        -- exists this. split; reflexivity.
        -- intros i a H. destruct i as [|i]; simpl in H.
           ++ injection H as <-. simpl. rewrite Nat.add_0_r, ?Hout.
              repeat split; lia.
           ++ apply Hnum in H as (Hn & Ho & He).
              replace (k + S i) with (S k + i) by lia. repeat split; assumption.
        -- intros i a b Ha Hb. destruct i as [|i]; simpl in Ha, Hb.
           ++ injection Ha as <-. destruct trace as [|a1 tr]; [discriminate|].
              simpl in Hb, Hhd. injection Hb as <-. injection Hhd as <-.
              rewrite Hst. reflexivity.
           ++ exact (Hgap i a b Ha Hb).
        -- exists al. split; [|exact Hres].
           destruct trace; [contradiction | exact Hlast].
        -- intros i a H. destruct i as [|i]; simpl in H.
           ++ injection H as <-. split.
              ** intros _. unfold goes_on, this. simpl. rewrite ?Hout.
                 split; [exists e; split; [reflexivity | exact Hretry] | split; lia].
              ** intros _. simpl. destruct trace; [contradiction | simpl; lia].
           ++ split.
              ** intros Hlt. apply (Hgo i a H). simpl in Hlt. lia.
              ** intros Hgoes. apply (Hgo i a H) in Hgoes. simpl. lia.
        -- rewrite Hlog. unfold logged at 2. simpl.
           rewrite ?Hout, ?Hretry. reflexivity.
    + exists (Raise e), [this], []. split; [reflexivity|].
      replace (@nil (nat * exn)) with (logged [this])
        by (unfold logged, this; simpl; rewrite ?Hout, ?Hretry; reflexivity).
      apply Hsingle; [reflexivity|].
      intros [(e' & He & Hr) _]. unfold this in He. simpl in He. congruence.
Qed.
End RetryLemmas.

Lemma last_of_lookup {B} (l : list B) i a :
  l !! i = Some a -> S i = length l -> last l = Some a.
Proof.
  intros Hi Hlen. rewrite last_lookup. rewrite <- Hlen. simpl. exact Hi.
Qed.

(** C3 (as amended).  [should_retry] accepts exactly the ten transport
    exception classes of the code (connection reset, connect error,
    read and write errors, connect/read/write/pool timeouts, remote
    protocol errors) and an [ApiError] whose status is in
    {408, 409, 429, 502, 503, 504}.  With [max_retries >= 1] the decorated
    call always ends, after at least one and at most [max_retries]
    attempts numbered from 1; an attempt is followed by another one if and
    only if it failed with an exception [should_retry] accepts, its number
    is below [max_retries] and the time elapsed when it failed is below
    [max_wait_time]; what the call returns or raises is what the last
    attempt returned or raised, unchanged; and an exception that
    [should_retry] rejects ends the call at once. *)
Theorem retry_policy_correct {T} (policy : Retry.Policy)
        (fn : nat -> Z -> result T * Z) (start_time : Z) :
  (1 <= Retry.max_retries policy)%Z ->
  (forall e,
      Retry.should_retry e = true
      <-> In e [ConnectionResetError; httpcore_ConnectError;
                httpcore_RemoteProtocolError; httpx_ConnectTimeout;
                httpx_ReadError; httpx_RemoteProtocolError; httpx_ReadTimeout;
                httpx_PoolTimeout; httpx_WriteError; httpx_WriteTimeout]
          \/ (exists code body, e = ApiError (Some code) body
                                /\ In code [408; 409; 429; 502; 503; 504]%Z))
  /\ exists res trace log,
      Retry.retry_call policy fn start_time = Retry.Finished res trace log
      /\ 1 <= length trace
      /\ (Z.of_nat (length trace) <= Retry.max_retries policy)%Z
      /\ (forall i a, trace !! i = Some a ->
            Retry.attempt_number a = S i
            /\ Retry.outcome a = fst (fn (S i) (Retry.started a)))
      /\ (forall i a, trace !! i = Some a ->
            (S i < length trace <-> Retry.goes_on policy start_time a))
      /\ (exists a, last trace = Some a /\ Retry.outcome a = res)
      /\ (forall i a e, trace !! i = Some a -> Retry.outcome a = Raise e ->
            Retry.should_retry e = false ->
            S i = length trace /\ res = Raise e).
Proof.
  intros Hmax. split; [apply should_retry_iff|].
  destruct (retry_loop_shape policy fn start_time
              (S (Z.to_nat (Retry.max_retries policy))) 1 start_time)
    as (res & trace & log & Hrun & Hshape); [lia | lia |].
  exists res, trace, log. split; [exact Hrun|].
  destruct Hshape as ((a0 & Hhd & _) & Hnum & _ & (al & Hlast & Hres) & Hgo & _).
  assert (Hlen : 1 <= length trace) by (destruct trace; [discriminate | simpl; lia]).
  split; [exact Hlen|]. split; [|split; [|split; [|split]]].
  - destruct (le_lt_dec (length trace) 1) as [Hle|Hgt]; [lia|].
    destruct (lookup_lt_is_Some_2 trace (length trace - 2) ltac:(lia)) as [a Ha].
    pose proof (proj1 (Hgo _ _ Ha) ltac:(lia)) as (_ & Hk & _).
    apply Hnum in Ha as (Hn & _). lia.
  - intros i a Ha. apply Hnum in Ha as (Hn & Ho & _). split; [lia | exact Ho].
  - exact Hgo.
  - exists al. split; assumption.
  - intros i a e Ha Ho Hno.
    assert (Hlast' : S i = length trace).
    { pose proof (lookup_lt_Some _ _ _ Ha) as Hlt.
      destruct (le_lt_dec (length trace) (S i)) as [Hle|Hgt]; [lia|].
      apply (Hgo _ _ Ha) in Hgt as ((e' & He' & Hr) & _).
      rewrite Ho in He'. injection He' as <-. congruence. }
    split; [exact Hlast'|].
    rewrite (last_of_lookup _ _ _ Ha Hlast') in Hlast.
    injection Hlast as <-. congruence.
Qed.

Lemma retry_policy_correct_witness :
  exists res trace log,
    Retry.retry_call (Retry.mkPolicy 3 10 360) always_503 0
    = Retry.Finished res trace log
    /\ (Z.of_nat (length trace) <= 3)%Z
    /\ exists a, last trace = Some a /\ Retry.outcome a = res.
Proof.
  destruct (retry_policy_correct (Retry.mkPolicy 3 10 360) always_503 0%Z)
    as (_ & res & trace & log & Hrun & _ & Hlen & _ & _ & Hlast & _).
  - simpl. lia.
  - exists res, trace, log. split; [exact Hrun|]. split; [exact Hlen | exact Hlast].
Defined.

(** C3 (as stated).  [httpx.ReadError] is none of the causes the claim
    lists, yet a call that fails with it is retried: the second attempt
    is made ten ticks after the first one failed, and its value is
    returned. *)
Lemma read_error_is_retried :
  Retry.listed_transient httpx_ReadError = false
  /\ Retry.retry_call (Retry.mkPolicy 6 10 360) read_error_once 0
     = Retry.Finished (Ok 7%Z)
         [Retry.mkAttempt 1 0 1 (Raise httpx_ReadError);
          Retry.mkAttempt 2 11 12 (Ok 7%Z)]
         [(1, httpx_ReadError)].
Proof. split; reflexivity. Qed.

(** ** Transport *)

Section TransportLemmas.
Import Transport.
Context {Bytes : Type}.
Variable wire : Wire Bytes.

Lemma make_request_sent post endpoint payload mt req :
  fst (_make_request wire post endpoint payload mt) = [req] ->
  Qltb 200 (content_size_mb wire (dumps wire (ensure_contiguous_arrays payload)))
  = false
  /\ snd (_make_request wire post endpoint payload mt)
     = (let* resp := post req in
        match loads wire (resp_content resp) with
        | None =>
            Raise (ApiError (Some (status_code resp))
                     (BodyText ("Could not parse JSON: "
                                ++ repr_bytes wire (resp_content resp))%string))
        | Some resp_body =>
            if negb (status_code resp =? 200)%Z
            then Raise (ApiError (Some (status_code resp)) (BodyJson resp_body))
            else unwrap_data resp_body
        end).
Proof.
  unfold _make_request.
  destruct (Qltb 200 _) eqn:Hbig; simpl; [discriminate|].
  intros [= <-]. split; reflexivity.
Qed.

(** The sent requests do not depend on what the server answers. *)
Lemma make_request_sent_indep post post' endpoint payload mt :
  fst (_make_request wire post endpoint payload mt)
  = fst (_make_request wire post' endpoint payload mt).
Proof. unfold _make_request. destruct (Qltb 200 _); reflexivity. Qed.
End TransportLemmas.

(** C4 (as amended).  When the body of the response cannot be parsed,
    [_make_request] raises an [ApiError] with the status code of the
    response and the text of the raw body; the retry policy retries that
    error exactly when the status code is one of
    {408, 409, 429, 502, 503, 504}; with any other status code the call
    under retries makes one attempt and raises the error. *)
Theorem unparseable_body_error {Bytes} (wire : Transport.Wire Bytes)
        (post : Transport.HttpRequest Bytes -> result (Transport.HttpResponse Bytes))
        endpoint payload mt req resp :
  fst (Transport._make_request wire post endpoint payload mt) = [req] ->
  post req = Ok resp ->
  Transport.loads wire (Transport.resp_content resp) = None ->
  let err :=
    ApiError (Some (Transport.status_code resp))
      (BodyText ("Could not parse JSON: "
                 ++ Transport.repr_bytes wire (Transport.resp_content resp))%string) in
  snd (Transport._make_request wire post endpoint payload mt) = Raise err
  /\ (Retry.should_retry err = true
      <-> In (Transport.status_code resp) [408; 409; 429; 502; 503; 504]%Z)
  /\ (~ In (Transport.status_code resp) [408; 409; 429; 502; 503; 504]%Z ->
      forall policy posts duration start_time,
        posts 1 = post ->
        Transport._make_request_with_retries policy wire posts duration start_time
                                              endpoint payload mt
        = Retry.Finished (Raise err)
            [Retry.mkAttempt 1 start_time (start_time + duration 1) (Raise err)]
            []).
Proof.
  intros Hsent Hpost Hloads err.
  destruct (make_request_sent wire post endpoint payload mt req Hsent) as [_ Hsnd].
  rewrite Hpost in Hsnd. cbn [rbind] in Hsnd. rewrite Hloads in Hsnd.
  split; [exact Hsnd|]. split.
  - subst err. cbn [Retry.should_retry]. apply retriable_code_iff.
  - intros Hcode policy posts duration start_time Hposts.
    assert (Hno : Retry.should_retry err = false).
    { destruct (Retry.should_retry err) eqn:Hr; [|reflexivity].
      subst err. cbn [Retry.should_retry] in Hr.
      apply retriable_code_iff in Hr. contradiction. }
    unfold Transport._make_request_with_retries, Retry.retry_call.
    cbn [Retry.retry_loop fst snd]. rewrite Hposts, Hsnd.
    cbv beta iota. unfold err in Hno. rewrite Hno. reflexivity.
Qed.

Lemma unparseable_body_error_witness :
  snd (Transport._make_request text_wire
         (fun _ => Ok (Transport.mkHttpResponse 500%Z "oops"%string))
         "v2/forecast" [] true)
  = Raise (ApiError (Some 500%Z) (BodyText "Could not parse JSON: oops")).
Proof.
  destruct (unparseable_body_error text_wire
              (fun _ => Ok (Transport.mkHttpResponse 500%Z "oops"%string))
              "v2/forecast" [] true
              (Transport.mkRequest "v2/forecast" "{}"%string [])
              (Transport.mkHttpResponse 500%Z "oops"%string))
    as (Hraise & _ & _); [reflexivity | reflexivity | reflexivity |].
  exact Hraise.
Defined.

(** C4 (as stated).  A server that answers every request with status
    [503] and a body that is not JSON: the [ApiError] is retried, and the
    call under a policy of three attempts reaches the server three times
    before it raises. *)
Lemma unparseable_503_is_retried :
  exists e a1 a2 a3 log,
    Transport._make_request_with_retries (Retry.mkPolicy 3 10 360) text_wire
      gateway_down (fun _ => 1%Z) 0 "v2/forecast" [] true
    = Retry.Finished (Raise e) [a1; a2; a3] log
    /\ e = ApiError (Some 503%Z)
             (BodyText "Could not parse JSON: <html>Service Unavailable</html>")
    /\ Retry.should_retry e = true
    /\ Retry.attempt_number a3 = 3.
Proof. do 5 eexists. repeat split. Qed.

Lemma size_mb_gt (c n : Z) :
  Qltb (inject_Z c) (inject_Z n / inject_Z (2 ^ 20)) = true
  <-> (c * MiB < n)%Z.
Proof.
  unfold Qltb. rewrite negb_true_iff, <- not_true_iff_false, Qle_bool_iff.
  change (2 ^ 20)%Z with 1048576%Z. unfold MiB. q_arith.
Qed.

Lemma size_mb_le (c n : Z) :
  Qltb (inject_Z c) (inject_Z n / inject_Z (2 ^ 20)) = false
  <-> (n <= c * MiB)%Z.
Proof.
  rewrite <- not_true_iff_false, size_mb_gt. lia.
Qed.

(** [math.ceil(size_mb / 200)] is the least [k] with [n <= k * 200 MiB]. *)
Lemma partitions_needed (n : Z) :
  let k := Qceiling (inject_Z n / inject_Z (2 ^ 20) / 200) in
  ((k - 1) * (200 * MiB) < n <= k * (200 * MiB))%Z.
Proof.
  intros k.
  pose proof (Qle_ceiling (inject_Z n / inject_Z (2 ^ 20) / 200)) as Hle.
  pose proof (Qceiling_lt (inject_Z n / inject_Z (2 ^ 20) / 200)) as Hlt.
  fold k in Hle, Hlt. revert Hle Hlt. generalize k. clear k. intros k.
  change (2 ^ 20)%Z with 1048576%Z. unfold MiB. q_arith.
Qed.

(** C8.  With [n] the number of bytes of the serialized payload: above
    200 MiB the call sends nothing and raises [ValueError] whose message
    ends with the least [k] such that [n <= k * 200 MiB]; above 1 MiB and
    up to 200 MiB the one request sent carries the compressed body and the
    header [content-encoding: zstd]; up to 1 MiB it carries the body as
    serialized and no header. *)
Theorem make_request_size_policy {Bytes} (wire : Transport.Wire Bytes)
        (post : Transport.HttpRequest Bytes -> result (Transport.HttpResponse Bytes))
        endpoint payload mt :
  let content := Transport.dumps wire (Transport.ensure_contiguous_arrays payload) in
  let n := Transport.len wire content in
  ((200 * MiB < n)%Z ->
     exists k,
       Transport._make_request wire post endpoint payload mt
       = ([], Raise (ValueError ("The payload is too large. Set num_partitions="
                                 ++ decimal k)%string))
       /\ ((k - 1) * (200 * MiB) < n <= k * (200 * MiB))%Z)
  /\ ((1 * MiB < n <= 200 * MiB)%Z ->
        fst (Transport._make_request wire post endpoint payload mt)
        = [Transport.mkRequest endpoint (Transport.compress wire mt content)
             [("content-encoding"%string, "zstd"%string)]])
  /\ ((n <= 1 * MiB)%Z ->
        fst (Transport._make_request wire post endpoint payload mt)
        = [Transport.mkRequest endpoint content []]).
Proof.
  intros content n. unfold Transport._make_request. fold content.
  unfold Transport.content_size_mb. fold n.
  change (200 : Q) with (inject_Z 200). change (1 : Q) with (inject_Z 1).
  split; [|split].
  - intros Hbig. apply size_mb_gt in Hbig. rewrite Hbig.
    eexists. split; [reflexivity|]. apply partitions_needed.
  - intros [Hlo Hhi]. apply size_mb_le in Hhi. apply size_mb_gt in Hlo.
    rewrite Hhi, Hlo. reflexivity.
  - intros Hsmall.
    assert (Hhi : (n <= 200 * MiB)%Z) by (unfold MiB in *; lia).
    apply size_mb_le in Hhi. apply size_mb_le in Hsmall.
    rewrite Hhi, Hsmall. reflexivity.
Qed.

Lemma make_request_size_policy_witness :
  Transport._make_request (blob_wire (300 * MiB)) (fun _ => Raise httpx_ReadTimeout)
                          "v2/forecast" [] true
  = ([], Raise (ValueError "The payload is too large. Set num_partitions=2"))
  /\ fst (Transport._make_request (blob_wire (3 * MiB))
            (fun _ => Raise httpx_ReadTimeout) "v2/forecast" [] true)
     = [Transport.mkRequest "v2/forecast" (3 * MiB / 2)%Z
          [("content-encoding"%string, "zstd"%string)]]
  /\ fst (Transport._make_request (blob_wire MiB)
            (fun _ => Raise httpx_ReadTimeout) "v2/forecast" [] true)
     = [Transport.mkRequest "v2/forecast" MiB []].
Proof.
  split; [|split].
  - destruct (make_request_size_policy (blob_wire (300 * MiB))
                (fun _ => Raise httpx_ReadTimeout) "v2/forecast" [] true)
      as (Hbig & _ & _).
    destruct Hbig as (k & Hrun & Hk); [vm_compute; reflexivity|].
    rewrite Hrun. simpl in Hk. unfold MiB in Hk.
    assert (k = 2%Z) as -> by lia. reflexivity.
  - destruct (make_request_size_policy (blob_wire (3 * MiB))
                (fun _ => Raise httpx_ReadTimeout) "v2/forecast" [] true)
      as (_ & Hmid & _).
    apply Hmid. vm_compute. split; [reflexivity | discriminate].
  - destruct (make_request_size_policy (blob_wire MiB)
                (fun _ => Raise httpx_ReadTimeout) "v2/forecast" [] true)
      as (_ & _ & Hsmall).
    apply Hsmall. vm_compute. discriminate.
Defined.

Lemma coerce_scalar_or_array (x : Transport.pyval) :
  Transport.is_container x = false ->
  Transport.ensure_contiguous_if_array x = Transport.coerce_everywhere x.
Proof. destruct x; simpl; intros H; try reflexivity; discriminate. Qed.

Fixpoint ensure_value_coerce (v : Transport.pyval) {struct v} :
  Transport.flat_lists v = true ->
  Transport.ensure_value v = Transport.coerce_everywhere v.
Proof.
  destruct v as [a|l|d| | | | |]; intros Hflat; try reflexivity.
  - simpl in *. f_equal.
    induction l as [|x l IH]; [reflexivity|].
    simpl in Hflat. apply andb_true_iff in Hflat as [Hx Hl].
    simpl. rewrite (IH Hl). f_equal.
    apply coerce_scalar_or_array. apply negb_true_iff. exact Hx.
  - simpl in *. f_equal.
    induction d as [|[k x] d IH]; [reflexivity|].
    simpl in Hflat. apply andb_true_iff in Hflat as [Hx Hd].
    simpl. rewrite (IH Hd). do 2 f_equal.
    apply ensure_value_coerce. exact Hx.
Qed.

Lemma nan_to_num_cases (x : spec_float) :
  let y := Transport.nan_to_num S754_nan Transport.f32_max Transport.f32_min
                                (Transport.to_float32 x) in
  (x = S754_nan -> y = S754_nan)
  /\ (x = S754_infinity false -> y = Transport.f32_max)
  /\ (x = S754_infinity true -> y = Transport.f32_min)
  /\ (forall s, y <> S754_infinity s)
  /\ (forall s, x = S754_zero s -> y = S754_zero s)
  /\ (forall s m e,
        x = S754_finite s m e ->
        y = match binary_round 24 128 s m e with
            | S754_infinity false => Transport.f32_max
            | S754_infinity true => Transport.f32_min
            | r => r
            end).
Proof.
  intros y. split; [|split; [|split; [|split; [|split]]]].
  - intros ->. reflexivity.
  - intros ->. reflexivity.
  - intros ->. reflexivity.
  - intros s. subst y. unfold Transport.nan_to_num.
    destruct (Transport.to_float32 x) as [| [|] | |]; discriminate.
  - intros s ->. reflexivity.
  - intros s m e ->. subst y. unfold Transport.nan_to_num, Transport.to_float32.
    destruct (binary_round 24 128 s m e) as [| [|] | |]; reflexivity.
Qed.



(** ** Levels and quantiles *)

Section FrameLemmas.
Import Levels.
Context {V : Type}.
Implicit Types (df : DataFrame V) (c : string) (vals : list V).

Lemma column_assign_same df c vals :
  column c (assign_columns df c vals) = Some vals.
Proof.
  induction df as [|[c' old] df IH]; simpl.
  - rewrite String.eqb_refl. reflexivity.
  - destruct (String.eqb c c') eqn:Heq; simpl; rewrite Heq; [reflexivity | exact IH].
Qed.

Lemma column_assign_other df c c' vals :
  c <> c' -> column c' (assign_columns df c vals) = column c' df.
Proof.
  intros Hne. induction df as [|[c0 old] df IH]; simpl.
  - destruct (String.eqb_spec c' c); [congruence | reflexivity].
  - destruct (String.eqb_spec c c0) as [->|Hc]; simpl.
    + destruct (String.eqb_spec c' c0); [congruence | reflexivity].
    + destruct (String.eqb c' c0); [reflexivity | exact IH].
Qed.

Lemma column_of_name df c : In c (map fst df) -> is_Some (column c df).
Proof.
  induction df as [|[c0 old] df IH]; simpl; [contradiction|].
  intros [-> | Hin].
  - rewrite String.eqb_refl. eauto.
  - destruct (String.eqb c c0); [eauto | exact (IH Hin)].
Qed.

Lemma select_ok df cols :
  (forall c, In c cols -> is_Some (column c df)) ->
  exists out, select df cols = Ok out
              /\ forall c, In c cols -> column c out = column c df.
Proof.
  induction cols as [|c cols IH]; intros Hall.
  - exists []. split; [reflexivity | intros c []].
  - destruct (Hall c (or_introl eq_refl)) as [vals Hc].
    destruct IH as (out & Hsel & Hout); [intros c' Hc'; apply Hall; right; exact Hc'|].
    exists ((c, vals) :: out). simpl. rewrite Hc, Hsel. split; [reflexivity|].
    intros c' [<- | Hin]; simpl.
    + rewrite String.eqb_refl. symmetry. exact Hc.
    + destruct (String.eqb_spec c' c) as [->|Hne]; [symmetry; exact Hc | exact (Hout c' Hin)].
Qed.

Lemma quantile_col_not_source q q' a b :
  quantile_col q = Ok a -> source_col q' = Ok b -> a <> b.
Proof.
  unfold quantile_col, source_col. intros Ha Hb Heq. subst b.
  destruct (py_int (fmul q (of_int 100))) as [v|]; [|discriminate].
  injection Ha as <-.
  destruct (SFeqb q' half).
  - cbv [String.append] in Hb. discriminate.
  - destruct (signed_level q') as [lv|]; [|discriminate].
    cbn [rbind] in Hb.
    destruct (0 <? lv)%Z; cbv [String.append] in Hb; discriminate.
Qed.

Lemma Forall2_In_r {A B} (P : A -> B -> Prop) (l : list A) (k : list B) (y : B) :
  Forall2 P l k -> In y k -> exists x, In x l /\ P x y.
Proof.
  induction 1 as [|x y' l k Hxy _ IH]; intros Hin; [destruct Hin|].
  destruct Hin as [<- | Hin].
  - exists x. split; [left; reflexivity | exact Hxy].
  - destruct (IH Hin) as (x' & Hx' & HP). exists x'. split; [right; exact Hx' | exact HP].
Qed.

Lemma reads_writes_disjoint qs cols :
  Forall2 reads_writes qs cols ->
  forall n n' : string * string, In n cols -> In n' cols -> snd n <> fst n'.
Proof.
  intros Hrw n n' Hc Hc'.
  destruct (Forall2_In_r _ _ _ _ Hrw Hc) as (q & _ & _ & Hw).
  destruct (Forall2_In_r _ _ _ _ Hrw Hc') as (q' & _ & Hr & _).
  exact (quantile_col_not_source _ _ _ _ Hw Hr).
Qed.

Lemma convert_loop_spec qs cols :
  Forall2 reads_writes qs cols ->
  forall df out_cols,
    (forall n : string * string, In n cols -> is_Some (column (fst n) df)) ->
    NoDup (map snd cols) ->
    exists df',
      convert_loop df qs out_cols = Ok (df', out_cols ++ map snd cols)
      /\ (forall n : string * string,
            In n cols -> column (snd n) df' = column (fst n) df)
      /\ (forall c, ~ In c (map snd cols) -> column c df' = column c df).
Proof.
  intros Hrw. pose proof (reads_writes_disjoint _ _ Hrw) as Hdisj.
  induction Hrw as [|q [s d] qs cols [Hr Hw] Hrw IH]; intros df out_cols Hsrc Hnd.
  - exists df. simpl. rewrite app_nil_r. split; [reflexivity|].
    split; [intros c [] | intros; reflexivity].
  - cbn [fst snd] in Hr, Hw.
    destruct (Hsrc (s, d) (or_introl eq_refl)) as [vals Hq]. cbn [fst] in Hq.
    cbn [map snd] in Hnd. apply NoDup_cons in Hnd as [Hfresh Hnd].
    assert (Hd : forall n : string * string, In n ((s, d) :: cols) -> d <> fst n)
      by (intros n Hn; exact (Hdisj (s, d) n (or_introl eq_refl) Hn)).
    destruct (IH ltac:(intros n n' Hn Hn'; apply Hdisj; right; assumption)
                 (assign_columns df d vals) (out_cols ++ [d]))
      as (df' & Hrun & Hqs & Hrest).
    + intros n Hin. rewrite column_assign_other by (apply Hd; right; exact Hin).
      apply Hsrc. right. exact Hin.
    + exact Hnd.
    + exists df'. cbn [convert_loop]. rewrite Hr, Hw. cbn [rbind]. rewrite Hq, Hrun.
      cbn [map snd]. rewrite <- app_assoc. split; [reflexivity|]. split.
      * intros n [<- | Hin]; cbn [fst snd].
        -- rewrite Hrest by (rewrite <- list_elem_of_In; exact Hfresh).
           rewrite column_assign_same. symmetry. exact Hq.
        -- rewrite (Hqs n Hin).
           apply column_assign_other, Hd. right. exact Hin.
      * intros c Hc. simpl in Hc.
        rewrite Hrest by tauto.
        apply column_assign_other. tauto.
Qed.

Lemma insert_sorted_perm q l : Permutation (insert_sorted q l) (q :: l).
Proof.
  induction l as [|x l IH]; simpl; [reflexivity|].
  destruct (SFltb x q); [|reflexivity].
  rewrite IH. apply perm_swap.
Qed.

Lemma sorted_perm l : Permutation (sorted l) l.
Proof.
  induction l as [|q l IH]; simpl; [reflexivity|].
  rewrite insert_sorted_perm, IH. reflexivity.
Qed.

(** The conversion loop runs over the sorted quantiles: their columns
    are those of the quantiles given, in the sorted order. *)
Lemma sorted_reads_writes qs cols :
  Forall2 reads_writes qs cols ->
  exists cols', Permutation cols cols' /\ Forall2 reads_writes (sorted qs) cols'.
Proof.
  intros Hrw.
  exact (Permutation_Forall2 (Permutation_sym (sorted_perm qs)) Hrw).
Qed.
End FrameLemmas.

Section QuantileLemmas.

Lemma in_unit_interval_iff (q : spec_float) :
  Levels.in_unit_interval q = true
  <-> SFltb (Levels.of_int 0) q = true /\ SFltb q (Levels.of_int 1) = true.
Proof. unfold Levels.in_unit_interval. apply andb_true_iff. Qed.

Lemma maybe_convert_spec {V} (df : Levels.DataFrame V) qs cols :
  Forall2 Levels.reads_writes qs cols ->
  NoDup (map snd cols) ->
  (forall c, In c cols -> is_Some (Levels.column (fst c) df)) ->
  exists out,
    Levels._maybe_convert_level_to_quantiles df (Some qs) = Ok out
    /\ forall c, In c cols ->
         Levels.column (snd c) out = Levels.column (fst c) df.
Proof.
  intros Hrw Hnd Hsrc.
  destruct (sorted_reads_writes qs cols Hrw) as (cols' & Hperm & Hrw').
  set (out_cols := List.filter (fun c => negb (Levels.is_interval_col c)) (map fst df)).
  destruct (convert_loop_spec (Levels.sorted qs) cols' Hrw' df out_cols)
    as (df' & Hrun & Hqs & Hrest).
  { intros c Hin. apply Hsrc. exact (Permutation_in _ (Permutation_sym Hperm) Hin). }
  { rewrite <- Hperm. exact Hnd. }
  destruct (select_ok df' (out_cols ++ map snd cols')) as (out & Hsel & Hout).
  { intros c Hc.
    destruct (in_dec string_dec c (map snd cols')) as [Hq|Hnq].
    - apply in_map_iff in Hq as (sd & <- & Hin).
      rewrite (Hqs sd Hin). apply Hsrc.
      exact (Permutation_in _ (Permutation_sym Hperm) Hin).
    - rewrite (Hrest c Hnq). apply column_of_name.
      apply in_app_or in Hc as [Hc|Hc]; [|contradiction].
      unfold out_cols in Hc. apply filter_In in Hc as [Hc _]. exact Hc. }
  exists out. unfold Levels._maybe_convert_level_to_quantiles.
  fold out_cols. rewrite Hrun. cbn [rbind fst snd]. split; [exact Hsel|].
  intros c Hin.
  assert (Hin' : In c cols') by exact (Permutation_in _ Hperm Hin).
  rewrite Hout.
  - exact (Hqs c Hin').
  - apply in_or_app. right. apply in_map. exact Hin'.
Qed.

(** C5 (as amended).  Giving both [level] and [quantiles] raises; a
    quantile that fails [0 < q < 1] raises; for quantiles that pass, the
    levels requested are the integers [|int(100 - 200 * q)|], computed in
    binary64 arithmetic and truncated toward zero.  On output, when the
    quantiles have distinct column names and the columns they are read
    from are in the frame, the column [TimeGPT-q-int(q * 100)] of every
    quantile holds the values of the column it is read from: the point
    forecast when [q == 0.5]; otherwise the lower bound of level
    [|int(100 - 200 * q)|] when [int(100 - 200 * q) > 0], and the upper
    bound of that level when it is not.  For 0.1, 0.9 and 0.5 these are
    the lower and the upper bound of level 80 and the point forecast. *)
Theorem level_quantile_duality {V : Type} :
  (forall level qs,
      Levels._prepare_level_and_quantiles (Some level) (Some qs)
      = Raise (ValueError "You should provide `level` or `quantiles`, but not both."))
  /\ (forall qs,
        Forall (fun q => SFltb (Levels.of_int 0) q = true
                         /\ SFltb q (Levels.of_int 1) = true) qs ->
        Levels._prepare_level_and_quantiles None (Some qs)
        = let* level :=
            Merger.for_each
              (fun q => let* lv := Levels.py_int
                                     (Levels.fsub (Levels.of_int 100)
                                        (Levels.fmul (Levels.of_int 200) q)) in
                        Ok (Levels.NInt (Z.abs lv))) qs in
          Ok (Some level, Some qs))
  /\ (forall qs,
        Exists (fun q => SFltb (Levels.of_int 0) q = false
                         \/ SFltb q (Levels.of_int 1) = false) qs ->
        Levels._prepare_level_and_quantiles None (Some qs)
        = Raise (ValueError "`quantiles` should be floats between 0 and 1."))
  /\ (forall (df : Levels.DataFrame V) qs cols,
        Forall2 Levels.reads_writes qs cols ->
        NoDup (map snd cols) ->
        (forall c, In c cols -> is_Some (Levels.column (fst c) df)) ->
        exists out,
          Levels._maybe_convert_level_to_quantiles df (Some qs) = Ok out
          /\ forall c, In c cols ->
               Levels.column (snd c) out = Levels.column (fst c) df)
  /\ (forall q,
        (SFeqb q Levels.half = true -> Levels.source_col q = Ok "TimeGPT"%string)
        /\ (forall lv,
              SFeqb q Levels.half = false ->
              Levels.py_int (Levels.fsub (Levels.of_int 100)
                               (Levels.fmul (Levels.of_int 200) q)) = Ok lv ->
              ((0 < lv)%Z ->
               Levels.source_col q
               = Ok ("TimeGPT-lo-" ++ decimal (Z.abs lv))%string)
              /\ ((lv <= 0)%Z ->
                  Levels.source_col q
                  = Ok ("TimeGPT-hi-" ++ decimal (Z.abs lv))%string))
        /\ (forall v,
              Levels.py_int (Levels.fmul q (Levels.of_int 100)) = Ok v ->
              Levels.quantile_col q = Ok ("TimeGPT-q-" ++ decimal v)%string))
  /\ (Levels._prepare_level_and_quantiles None
        (Some [Levels.float_lit 1 10; Levels.float_lit 9 10; Levels.half])
      = Ok (Some [Levels.NInt 80; Levels.NInt 80; Levels.NInt 0],
            Some [Levels.float_lit 1 10; Levels.float_lit 9 10; Levels.half])
      /\ Levels.reads_writes (Levels.float_lit 1 10)
           ("TimeGPT-lo-80"%string, "TimeGPT-q-10"%string)
      /\ Levels.reads_writes (Levels.float_lit 9 10)
           ("TimeGPT-hi-80"%string, "TimeGPT-q-90"%string)
      /\ Levels.reads_writes Levels.half
           ("TimeGPT"%string, "TimeGPT-q-50"%string)).
Proof.
  split; [reflexivity|]. split; [|split; [|split; [|split]]].
  - intros qs Hall. unfold Levels._prepare_level_and_quantiles.
    replace (forallb Levels.in_unit_interval qs) with true; [reflexivity|].
    symmetry. apply forallb_forall. intros q Hin.
    apply in_unit_interval_iff.
    rewrite Forall_forall in Hall. apply Hall, list_elem_of_In, Hin.
  - intros qs Hex. unfold Levels._prepare_level_and_quantiles.
    replace (forallb Levels.in_unit_interval qs) with false; [reflexivity|].
    symmetry. apply not_true_iff_false. intros Hall.
    rewrite forallb_forall in Hall.
    apply Exists_exists in Hex as (q & Hin & Hbad).
    apply list_elem_of_In, Hall, in_unit_interval_iff in Hin.
    destruct Hin as [H0 H1], Hbad as [Hbad|Hbad]; congruence.
  - intros df qs cols. apply maybe_convert_spec.
  - intros q. unfold Levels.source_col, Levels.quantile_col, Levels.signed_level.
    split; [|split].
    + intros ->. reflexivity.
    + intros lv -> ->. cbn [rbind]. split; intros Hlv.
      * apply Z.ltb_lt in Hlv. rewrite Hlv. reflexivity.
      * apply Z.ltb_ge in Hlv. rewrite Hlv. reflexivity.
    + intros v ->. reflexivity.
  - unfold Levels.reads_writes. vm_compute. tauto.
Qed.

Lemma level_quantile_duality_witness :
  exists out,
    Levels._maybe_convert_level_to_quantiles forecast_80
      (Some [Levels.float_lit 9 10; Levels.float_lit 1 10; Levels.half]) = Ok out
    /\ Levels.column "TimeGPT-q-10" out = Some [40; 41; 42]%Z
    /\ Levels.column "TimeGPT-q-50" out = Some [50; 51; 52]%Z
    /\ Levels.column "TimeGPT-q-90" out = Some [60; 61; 62]%Z.
Proof.
  destruct (@level_quantile_duality Z) as (_ & _ & _ & Hconv & _ & _ & H10 & H90 & H50).
  destruct (Hconv forecast_80
              [Levels.float_lit 9 10; Levels.float_lit 1 10; Levels.half]
              [("TimeGPT-hi-80"%string, "TimeGPT-q-90"%string);
               ("TimeGPT-lo-80"%string, "TimeGPT-q-10"%string);
               ("TimeGPT"%string, "TimeGPT-q-50"%string)])
    as (out & Hrun & Hcols).
  - repeat constructor; assumption.
  - vm_compute. repeat constructor; intros Hin;
      repeat match goal with
             | H : _ ∈ _ |- _ => inversion H; clear H; subst
             end.
  - intros c [<- | [<- | [<- | []]]]; vm_compute; eauto.
  - exists out. split; [exact Hrun|].
    split; [|split].
    + exact (Hcols ("TimeGPT-lo-80"%string, "TimeGPT-q-10"%string) ltac:(simpl; tauto)).
    + exact (Hcols ("TimeGPT"%string, "TimeGPT-q-50"%string) ltac:(simpl; tauto)).
    + exact (Hcols ("TimeGPT-hi-80"%string, "TimeGPT-q-90"%string) ltac:(simpl; tauto)).
Defined.

(** C5 (as stated).  For [q = 0.333] the level requested is 33, below
    [|100 - 200 * q|]; for [q = 0.28] it is 43, where [|100 - 200 * q|]
    is 44, because [100 - 200 * 0.28] is a float just below 44; and for
    [q = 0.499], below one half, the quantile is read from the upper
    bound column of level 0. *)
Lemma quantile_level_is_truncated :
  Levels._prepare_level_and_quantiles None (Some [Levels.float_lit 333 1000])
  = Ok (Some [Levels.NInt 33], Some [Levels.float_lit 333 1000])
  /\ SFltb (Levels.of_int 33)
       (Levels.fsub (Levels.of_int 100)
          (Levels.fmul (Levels.of_int 200) (Levels.float_lit 333 1000))) = true
  /\ Levels._prepare_level_and_quantiles None (Some [Levels.float_lit 28 100])
     = Ok (Some [Levels.NInt 43], Some [Levels.float_lit 28 100])
  /\ Levels.source_col (Levels.float_lit 28 100) = Ok "TimeGPT-lo-43"%string
  /\ SFltb (Levels.float_lit 499 1000) Levels.half = true
  /\ Levels.source_col (Levels.float_lit 499 1000) = Ok "TimeGPT-hi-0"%string.
Proof. vm_compute. tauto. Qed.
End QuantileLemmas.


(** ** Frequency validation *)

Section ValidationLemmas.
Import Validation.
Implicit Types (df : list Row) (us : list string) (ts : list Z).

Lemma dedupe_In l x : In x (dedupe l) <-> In x l.
Proof.
  induction l as [|a l IH]; simpl; [reflexivity|].
  destruct (existsb (String.eqb a) l) eqn:Hex.
  - rewrite IH. split; [tauto|]. intros [<- | H]; [|exact H].
    apply existsb_exists in Hex as (b & Hb & Heq).
    apply String.eqb_eq in Heq. subst b. exact Hb.
  - simpl. rewrite IH. reflexivity.
Qed.

Lemma dedupe_NoDup l : List.NoDup (dedupe l).
Proof.
  induction l as [|a l IH]; simpl; [constructor|].
  destruct (existsb (String.eqb a) l) eqn:Hex; [exact IH|].
  constructor; [|exact IH].
  rewrite dedupe_In. intros Hin.
  assert (existsb (String.eqb a) l = true); [|congruence].
  apply existsb_exists. exists a. split; [exact Hin | apply String.eqb_refl].
Qed.

Lemma sum_list_map_add {B} (f g : B -> nat) (l : list B) :
  sum_list (map (fun u => f u + g u) l) = sum_list (map f l) + sum_list (map g l).
Proof. induction l as [|a l IH]; simpl; [reflexivity | rewrite IH; lia]. Qed.

Lemma sum_indicator us x :
  List.NoDup us -> In x us ->
  sum_list (map (fun u => if String.eqb x u then 1 else 0) us) = 1.
Proof.
  induction us as [|a us IH]; intros Hnd Hin; [contradiction|].
  inversion Hnd as [|? ? Hfresh Hnd']; subst. simpl.
  destruct (String.eqb_spec x a) as [->|Hne].
  - f_equal. clear IH Hin Hnd Hnd'.
    induction us as [|b us IH]; simpl; [reflexivity|].
    destruct (String.eqb_spec a b) as [->|_].
    + exfalso. apply Hfresh. left. reflexivity.
    + apply IH. intros H. apply Hfresh. right. exact H.
  - destruct Hin as [->|Hin]; [congruence|]. exact (IH Hnd' Hin).
Qed.

(** The rows split by identifier. *)
Lemma rows_by_id df us :
  List.NoDup us -> (forall r, In r df -> In (unique_id r) us) ->
  length df = sum_list (map (fun u => length (times_of u df)) us).
Proof.
  intros Hnd. induction df as [|r df IH]; intros Hall.
  - clear Hnd Hall. induction us; simpl; [reflexivity | assumption].
  - rewrite (map_ext _ (fun u => (if String.eqb (unique_id r) u then 1 else 0)
                                 + length (times_of u df))).
    + rewrite sum_list_map_add, sum_indicator;
        [| exact Hnd | apply Hall; left; reflexivity].
      simpl. f_equal. apply IH. intros r' Hr'. apply Hall. right. exact Hr'.
    + intros u. unfold times_of. simpl.
      destruct (String.eqb (unique_id r) u); reflexivity.
Qed.

Lemma rows_by_ids df :
  length df = sum_list (map (fun u => length (times_of u df)) (ids df)).
Proof.
  apply rows_by_id; [apply dedupe_NoDup|].
  intros r Hr. apply dedupe_In, in_map, Hr.
Qed.

Lemma sum_list_le_lt {B} (f g : B -> nat) (l : list B) :
  (forall u, In u l -> f u <= g u) ->
  sum_list (map f l) <= sum_list (map g l)
  /\ ((exists u, In u l /\ f u < g u) -> sum_list (map f l) < sum_list (map g l)).
Proof.
  induction l as [|a l IH]; intros Hle; simpl.
  - split; [lia | intros (u & [] & _)].
  - destruct IH as [IHle IHlt]; [intros u Hu; apply Hle; right; exact Hu|].
    pose proof (Hle a (or_introl eq_refl)) as Ha.
    split; [lia|]. intros (u & [<- | Hu] & Hlt); [lia|].
    assert (sum_list (map f l) < sum_list (map g l)) by (apply IHlt; eauto).
    lia.
Qed.
Lemma foldr_min_spec t r :
  In (foldr Z.min t r) (t :: r)
  /\ forall y, In y (t :: r) -> (foldr Z.min t r <= y)%Z.
Proof.
  induction r as [|a r [IHin IHle]]; simpl.
  - split; [left; reflexivity | intros y [<- | []]; lia].
  - split.
    + destruct (Z.min_spec a (foldr Z.min t r)) as [[_ ->] | [_ ->]].
      * right. left. reflexivity.
      * destruct IHin as [<- | Hin]; [left; reflexivity | right; right; exact Hin].
    + intros y [<- | [<- | Hy]].
      * pose proof (IHle t (or_introl eq_refl)). lia.
      * lia.
      * pose proof (IHle y (or_intror Hy)). lia.
Qed.

Lemma foldr_max_spec t r :
  In (foldr Z.max t r) (t :: r)
  /\ forall y, In y (t :: r) -> (y <= foldr Z.max t r)%Z.
Proof.
  induction r as [|a r [IHin IHle]]; simpl.
  - split; [left; reflexivity | intros y [<- | []]; lia].
  - split.
    + destruct (Z.max_spec a (foldr Z.max t r)) as [[_ ->] | [_ ->]].
      * destruct IHin as [<- | Hin]; [left; reflexivity | right; right; exact Hin].
      * right. left. reflexivity.
    + intros y [<- | [<- | Hy]].
      * pose proof (IHle t (or_introl eq_refl)). lia.
      * lia.
      * pose proof (IHle y (or_intror Hy)). lia.
Qed.

Lemma list_min_char ts x :
  In x ts -> (forall y, In y ts -> (x <= y)%Z) -> list_min ts = x.
Proof.
  destruct ts as [|t r]; [contradiction|]. intros Hin Hle. unfold list_min.
  destruct (foldr_min_spec t r) as [Hmin Hall].
  pose proof (Hle _ Hmin). pose proof (Hall _ Hin). lia.
Qed.

Lemma list_max_char ts x :
  In x ts -> (forall y, In y ts -> (y <= x)%Z) -> list_max ts = x.
Proof.
  destruct ts as [|t r]; [contradiction|]. intros Hin Hle. unfold list_max.
  destruct (foldr_max_spec t r) as [Hmax Hall].
  pose proof (Hle _ Hmax). pose proof (Hall _ Hin). lia.
Qed.

(** A series that holds [t0] and [t0 + m * delta] and nothing outside
    has a dense grid of [m + 1] timestamps. *)
Lemma series_grid_length delta t0 m ts :
  (0 < delta)%Z ->
  In t0 ts -> In (t0 + Z.of_nat m * delta)%Z ts ->
  (forall y, In y ts -> (t0 <= y <= t0 + Z.of_nat m * delta)%Z) ->
  length (series_grid delta ts) = S m.
Proof.
  intros Hd Hlo Hhi Hall. unfold series_grid, arange_step.
  rewrite (list_min_char ts t0 Hlo) by (intros y Hy; apply Hall, Hy).
  rewrite (list_max_char ts _ Hhi) by (intros y Hy; apply Hall, Hy).
  rewrite length_map, length_seq.
  replace (t0 + Z.of_nat m * delta + delta - t0 + delta - 1)%Z
    with ((Z.of_nat m + 1) * delta + (delta - 1))%Z by lia.
  rewrite Z.div_add_l, Z.div_small by lia. lia.
Qed.

Lemma complete_counts delta ts :
  (0 < delta)%Z -> complete delta ts ->
  length (series_grid delta ts) = length ts.
Proof.
  intros Hd (t0 & m & Hperm).
  assert (Hmem : forall y, In y ts <->
                           exists i, i <= m /\ y = (t0 + Z.of_nat i * delta)%Z).
  { intros y. split.
    - intros Hy. apply (Permutation_in _ Hperm) in Hy.
      unfold regular_times in Hy. apply in_map_iff in Hy as (i & <- & Hi).
      apply in_seq in Hi. exists i. split; [lia | reflexivity].
    - intros (i & Hi & ->). apply (Permutation_in _ (Permutation_sym Hperm)).
      unfold regular_times. apply in_map_iff. exists i.
      split; [reflexivity | apply in_seq; lia]. }
  rewrite (series_grid_length delta t0 m ts Hd).
  - rewrite (Permutation_length Hperm). unfold regular_times.
    rewrite length_map, length_seq. reflexivity.
  - apply Hmem. exists 0. split; [lia | simpl; lia].
  - apply Hmem. exists m. split; [lia | reflexivity].
  - intros y Hy. apply Hmem in Hy as (i & Hi & ->). nia.
Qed.

Lemma gap_counts delta ts :
  (0 < delta)%Z -> one_step_gap delta ts ->
  length (series_grid delta ts) = S (length ts).
Proof.
  intros Hd (t0 & m & k & Hk & Hperm).
  assert (Hmem : forall y, In y ts <->
                           exists i, i <= m /\ i <> k
                                     /\ y = (t0 + Z.of_nat i * delta)%Z).
  { intros y. split.
    - intros Hy. apply (Permutation_in _ Hperm) in Hy.
      unfold gap_times in Hy. apply in_map_iff in Hy as (i & <- & Hi).
      apply in_app_or in Hi. exists i.
      destruct Hi as [Hi|Hi]; apply in_seq in Hi; repeat split; lia.
    - intros (i & Hi & Hne & ->). apply (Permutation_in _ (Permutation_sym Hperm)).
      unfold gap_times. apply in_map_iff. exists i. split; [reflexivity|].
      apply in_or_app. destruct (Nat.lt_ge_cases i k) as [Hlt|Hge].
      + left. apply in_seq. lia.
      + right. apply in_seq. lia. }
  rewrite (series_grid_length delta t0 m ts Hd).
  - rewrite (Permutation_length Hperm). unfold gap_times.
    rewrite length_map, length_app, !length_seq. lia.
  - apply Hmem. exists 0. repeat split; [lia | lia | simpl; lia].
  - apply Hmem. exists m. repeat split; lia.
  - intros y Hy. apply Hmem in Hy as (i & Hi & _ & ->). nia.
Qed.
Lemma list_min_le_max ts : ts <> [] -> (list_min ts <= list_max ts)%Z.
Proof.
  destruct ts as [|t r]; [congruence|]. intros _. unfold list_min, list_max.
  destruct (foldr_min_spec t r) as [_ Hmin], (foldr_max_spec t r) as [_ Hmax].
  pose proof (Hmin t (or_introl eq_refl)). pose proof (Hmax t (or_introl eq_refl)).
  lia.
Qed.

Lemma times_of_id_nonempty rows u : In u (ids rows) -> times_of u rows <> [].
Proof.
  unfold ids. rewrite dedupe_In, in_map_iff. intros (r & <- & Hr).
  unfold times_of. intros Hnil. apply map_eq_nil in Hnil.
  assert (Hin : In r (List.filter (fun r' => String.eqb (unique_id r') (unique_id r))
                                  rows)).
  { apply filter_In. split; [exact Hr | apply String.eqb_refl]. }
  rewrite Hnil in Hin. destruct Hin.
Qed.

Lemma ids_nil df : ids df = [] <-> df = [].
Proof.
  split; [|intros ->; reflexivity].
  destruct df as [|r df]; [reflexivity|]. intros Hnil. exfalso.
  assert (Hin : In (unique_id r) (ids (r :: df)))
    by (apply dedupe_In; left; reflexivity).
  rewrite Hnil in Hin. destruct Hin.
Qed.

(** The two lengths of one series in the grid: the truncated quotient
    for the identifiers, the rounded-up quotient for the times. *)
Lemma grid_size_floor delta ts :
  (0 < delta)%Z -> ts <> [] ->
  grid_size delta ts = Z.to_nat ((list_max ts - list_min ts) / delta + 1).
Proof.
  intros Hd Hne. pose proof (list_min_le_max ts Hne). unfold grid_size.
  rewrite Z.quot_div_nonneg by lia. f_equal.
  replace (list_max ts + delta - list_min ts)%Z
    with (list_max ts - list_min ts + 1 * delta)%Z by lia.
  apply Z.div_add. lia.
Qed.

Lemma series_grid_ceil delta ts :
  (0 < delta)%Z ->
  length (series_grid delta ts)
  = Z.to_nat ((list_max ts - list_min ts + delta - 1) / delta + 1).
Proof.
  intros Hd. unfold series_grid, arange_step. rewrite length_map, length_seq.
  f_equal.
  replace (list_max ts + delta - list_min ts + delta - 1)%Z
    with (list_max ts - list_min ts + delta - 1 + 1 * delta)%Z by lia.
  apply Z.div_add. lia.
Qed.

Lemma floor_ceil (s d : Z) :
  (0 <= s)%Z -> (0 < d)%Z ->
  (s mod d = 0 -> (s + d - 1) / d = s / d)%Z
  /\ (s mod d <> 0 -> (s + d - 1) / d = s / d + 1)%Z.
Proof.
  intros Hs Hd.
  pose proof (Z.div_mod s d ltac:(lia)) as Hdm.
  pose proof (Z.mod_pos_bound s d Hd) as Hr.
  split; intros Hmod; symmetry.
  - apply (Z.div_unique (s + d - 1) d (s / d) (d - 1)); lia.
  - apply (Z.div_unique (s + d - 1) d (s / d + 1) (s mod d - 1)); lia.
Qed.

Lemma grid_size_le delta ts :
  (0 < delta)%Z -> ts <> [] ->
  grid_size delta ts <= length (series_grid delta ts)
  /\ (span_multiple delta ts -> grid_size delta ts = length (series_grid delta ts))
  /\ (~ span_multiple delta ts -> grid_size delta ts < length (series_grid delta ts)).
Proof.
  intros Hd Hne. pose proof (list_min_le_max ts Hne) as Hle.
  rewrite (grid_size_floor delta ts Hd Hne), (series_grid_ceil delta ts Hd).
  unfold span_multiple.
  set (s := (list_max ts - list_min ts)%Z) in *.
  destruct (floor_ceil s delta ltac:(lia) Hd) as [Heq Hlt].
  pose proof (Z.div_pos s delta ltac:(lia) Hd) as Hq.
  destruct (Z.eq_dec (s mod delta)%Z 0%Z) as [Hz|Hnz].
  - rewrite (Heq Hz). split; [lia|]. split; [reflexivity | intros H; contradiction].
  - rewrite (Hlt Hnz). split; [lia|]. split; [intros H; contradiction | lia].
Qed.

Lemma length_flat_map_sum {B C} (f : B -> list C) (l : list B) :
  length (flat_map f l) = sum_list (map (fun u => length (f u)) l).
Proof.
  induction l as [|a l IH]; simpl; [reflexivity|].
  rewrite length_app, IH. reflexivity.
Qed.

Lemma length_concat_map {B C} (f : B -> list C) (l : list B) :
  length (concat (map f l)) = sum_list (map (fun u => length (f u)) l).
Proof.
  induction l as [|a l IH]; simpl; [reflexivity|].
  rewrite length_app, IH. reflexivity.
Qed.

(** The grid, when it can be built: the table has a row and the span of
    every series is a multiple of the step. *)
Lemma id_time_grid_ok df delta :
  (0 < delta)%Z -> df <> [] ->
  (forall u, In u (ids df) -> span_multiple delta (times_of u df)) ->
  exists grid,
    id_time_grid df delta = Ok grid
    /\ length grid
       = sum_list (map (fun u => length (series_grid delta (times_of u df))) (ids df)).
Proof.
  intros Hd Hne Hall. unfold id_time_grid.
  assert (Hids : ids df <> []) by (rewrite ids_nil; exact Hne).
  set (times := concat (map (fun u => series_grid delta (times_of u df)) (ids df))).
  set (uids := flat_map (fun u => replicate (grid_size delta (times_of u df)) u) (ids df)).
  assert (Hh : np_hstack (map (fun u => series_grid delta (times_of u df)) (ids df))
               = Ok times).
  { unfold np_hstack. destruct (ids df); [congruence | reflexivity]. }
  rewrite Hh. cbn [rbind]. fold uids.
  assert (Hlen : length uids = length times).
  { unfold uids, times. rewrite length_flat_map_sum, length_concat_map.
    f_equal. apply map_ext_in. intros u Hu. rewrite length_replicate.
    apply (grid_size_le delta _ Hd (times_of_id_nonempty df u Hu)), Hall, Hu. }
  rewrite Hlen, Nat.eqb_refl. exists (zip uids times). split; [reflexivity|].
  rewrite length_zip_with, Hlen, Nat.min_id. apply length_concat_map.
Qed.

Lemma id_time_grid_irregular df delta :
  (0 < delta)%Z ->
  (exists u, In u (ids df) /\ ~ span_multiple delta (times_of u df)) ->
  id_time_grid df delta = Raise (ValueError "All arrays must be of the same length").
Proof.
  intros Hd (u & Hu & Hbad). unfold id_time_grid.
  set (times := concat (map (fun u => series_grid delta (times_of u df)) (ids df))).
  set (uids := flat_map (fun u => replicate (grid_size delta (times_of u df)) u) (ids df)).
  assert (Hh : np_hstack (map (fun u => series_grid delta (times_of u df)) (ids df))
               = Ok times).
  { unfold np_hstack. destruct (ids df); [destruct Hu | reflexivity]. }
  rewrite Hh. cbn [rbind]. fold uids.
  assert (Hlen : length uids < length times).
  { unfold uids, times. rewrite length_flat_map_sum, length_concat_map.
    apply (sum_list_le_lt
             (fun u => length (replicate (grid_size delta (times_of u df)) u))
             (fun u => length (series_grid delta (times_of u df)))).
    - intros v Hv. rewrite length_replicate.
      apply (grid_size_le delta _ Hd (times_of_id_nonempty df v Hv)).
    - exists u. split; [exact Hu|]. rewrite length_replicate.
      apply (grid_size_le delta _ Hd (times_of_id_nonempty df u Hu)), Hbad. }
  destruct (Nat.eqb_spec (length uids) (length times)); [lia | reflexivity].
Qed.

Lemma id_time_grid_built df delta :
  (0 < delta)%Z ->
  (exists grid, id_time_grid df delta = Ok grid)
  <-> df <> [] /\ forall u, In u (ids df) -> span_multiple delta (times_of u df).
Proof.
  intros Hd. split.
  - intros [grid Hgrid]. split.
    + intros ->. discriminate Hgrid.
    + intros u Hu.
      destruct (Z.eq_dec ((list_max (times_of u df) - list_min (times_of u df))
                            mod delta)%Z 0%Z) as [Hz|Hnz]; [exact Hz|].
      rewrite (id_time_grid_irregular df delta Hd) in Hgrid; [discriminate|].
      exists u. split; [exact Hu | exact Hnz].
  - intros [Hne Hall].
    destruct (id_time_grid_ok df delta Hd Hne Hall) as (grid & Hgrid & _).
    exists grid. exact Hgrid.
Qed.

(** The span of a series that holds [t0] and [t0 + m * delta] and
    nothing outside. *)
Lemma span_of_bounds delta t0 m ts :
  In t0 ts -> In (t0 + Z.of_nat m * delta)%Z ts ->
  (forall y, In y ts -> (t0 <= y <= t0 + Z.of_nat m * delta)%Z) ->
  span_multiple delta ts.
Proof.
  intros Hlo Hhi Hall. unfold span_multiple.
  rewrite (list_min_char ts t0 Hlo) by (intros y Hy; apply Hall, Hy).
  rewrite (list_max_char ts _ Hhi) by (intros y Hy; apply Hall, Hy).
  replace (t0 + Z.of_nat m * delta - t0)%Z with (Z.of_nat m * delta)%Z by lia.
  apply Z_mod_mult.
Qed.

Lemma complete_span delta ts :
  (0 < delta)%Z -> complete delta ts -> span_multiple delta ts.
Proof.
  intros Hd (t0 & m & Hperm).
  assert (Hmem : forall y, In y ts <->
                           exists i, i <= m /\ y = (t0 + Z.of_nat i * delta)%Z).
  { intros y. split.
    - intros Hy. apply (Permutation_in _ Hperm) in Hy.
      unfold regular_times in Hy. apply in_map_iff in Hy as (i & <- & Hi).
      apply in_seq in Hi. exists i. split; [lia | reflexivity].
    - intros (i & Hi & ->). apply (Permutation_in _ (Permutation_sym Hperm)).
      unfold regular_times. apply in_map_iff. exists i.
      split; [reflexivity | apply in_seq; lia]. }
  apply (span_of_bounds delta t0 m).
  - apply Hmem. exists 0. split; [lia | simpl; lia].
  - apply Hmem. exists m. split; [lia | reflexivity].
  - intros y Hy. apply Hmem in Hy as (i & Hi & ->). nia.
Qed.

Lemma gap_span delta ts :
  (0 < delta)%Z -> one_step_gap delta ts -> span_multiple delta ts.
Proof.
  intros Hd (t0 & m & k & Hk & Hperm).
  assert (Hmem : forall y, In y ts <->
                           exists i, i <= m /\ i <> k
                                     /\ y = (t0 + Z.of_nat i * delta)%Z).
  { intros y. split.
    - intros Hy. apply (Permutation_in _ Hperm) in Hy.
      unfold gap_times in Hy. apply in_map_iff in Hy as (i & <- & Hi).
      apply in_app_or in Hi. exists i.
      destruct Hi as [Hi|Hi]; apply in_seq in Hi; repeat split; lia.
    - intros (i & Hi & Hne & ->). apply (Permutation_in _ (Permutation_sym Hperm)).
      unfold gap_times. apply in_map_iff. exists i. split; [reflexivity|].
      apply in_or_app. destruct (Nat.lt_ge_cases i k) as [Hlt|Hge].
      + left. apply in_seq. lia.
      + right. apply in_seq. lia. }
  apply (span_of_bounds delta t0 m).
  - apply Hmem. exists 0. repeat split; [lia | lia | simpl; lia].
  - apply Hmem. exists m. repeat split; lia.
  - intros y Hy. apply Hmem in Hy as (i & Hi & _ & ->). nia.
Qed.
End ValidationLemmas.

Section ValidationTheorems.
Import Validation.

Lemma run_validations_frequency (c : Call) (n : Z) :
  earlier_checks_pass c ->
  (freq c = FreqInt n \/ exists alias, freq c = FreqStr alias n) ->
  _run_validations c
  = let* grid := id_time_grid (df c) n in
    if length (df c) =? length grid
    then Ok (df c, freq c) else Raise frequency_error.
Proof.
  intros (Hkey & Hmodel & Hy) Hfreq. unfold _run_validations.
  rewrite Hkey, Hmodel. cbn [negb].
  replace (existsb _ (df c)) with false.
  - destruct Hfreq as [-> | [alias ->]];
      destruct (id_time_grid (df c) n); reflexivity.
  - symmetry. apply not_true_iff_false. intros Hex.
    apply existsb_exists in Hex as (r & Hr & Hnone).
    rewrite Forall_forall in Hy. specialize (Hy r).
    destruct (y r); [discriminate|]. apply Hy; [|reflexivity].
    apply list_elem_of_In. exact Hr.
Qed.

(** C6 (as amended).  For a string or integer frequency of step [n > 0],
    once the earlier checks have passed: the dense per-series grid is
    built exactly when the table has a row and the span of every series
    is a multiple of the step, and the call to [id_time_grid] raises
    otherwise, with an error that is not the frequency error and that
    [_run_validations] lets through.  When the grid is built,
    [_run_validations] raises the frequency error exactly when the number
    of rows differs from the number of rows of the grid, and returns
    otherwise.  When every series is complete and regular except for
    series with a one-step gap between their first and last timestamp, of
    which there is at least one, it raises the frequency error; when the
    table has a row and every series is complete and regular, it
    returns. *)
Theorem frequency_validation (c : Call) (n : Z) :
  earlier_checks_pass c ->
  (freq c = FreqInt n \/ exists alias, freq c = FreqStr alias n) ->
  (0 < n)%Z ->
  ((exists grid, id_time_grid (df c) n = Ok grid)
   <-> df c <> []
       /\ forall u, In u (ids (df c)) -> span_multiple n (times_of u (df c)))
  /\ (forall grid,
        id_time_grid (df c) n = Ok grid ->
        (_run_validations c = Raise frequency_error
         <-> length (df c) <> length grid)
        /\ (_run_validations c = Ok (df c, freq c)
            <-> length (df c) = length grid))
  /\ (forall e,
        id_time_grid (df c) n = Raise e ->
        _run_validations c = Raise e /\ e <> frequency_error)
  /\ ((forall u, In u (ids (df c)) ->
         complete n (times_of u (df c)) \/ one_step_gap n (times_of u (df c))) ->
      (exists u, In u (ids (df c)) /\ one_step_gap n (times_of u (df c))) ->
      _run_validations c = Raise frequency_error)
  /\ (df c <> [] ->
      (forall u, In u (ids (df c)) -> complete n (times_of u (df c))) ->
      _run_validations c = Ok (df c, freq c)).
Proof.
  intros Hpre Hfreq Hn.
  rewrite (run_validations_frequency c n Hpre Hfreq).
  split; [exact (id_time_grid_built (df c) n Hn)|].
  split; [|split; [|split]].
  - intros grid ->. cbn [rbind].
    destruct (Nat.eqb_spec (length (df c)) (length grid)); split; split; intros H;
      try discriminate; try reflexivity; congruence.
  - intros e He. rewrite He. split; [reflexivity|].
    assert (Hcase : df c = [] \/ df c <> [])
      by (destruct (df c); [left; reflexivity | right; discriminate]).
    destruct Hcase as [Hnil|Hne].
    + rewrite Hnil in He. injection He as <-. discriminate.
    + destruct (Forall_Exists_dec
                  (fun u => span_multiple n (times_of u (df c)))
                  (fun u => ~ span_multiple n (times_of u (df c)))
                  (fun u => Z.eq_dec _ 0%Z) (ids (df c))) as [Hall|Hex].
      * destruct (id_time_grid_ok (df c) n Hn Hne) as (grid & Hgrid & _).
        -- intros u Hu. rewrite Forall_forall in Hall.
           apply Hall, list_elem_of_In, Hu.
        -- congruence.
      * apply Exists_exists in Hex as (u & Hu & Hbad).
        apply list_elem_of_In in Hu.
        rewrite (id_time_grid_irregular (df c) n Hn) in He
          by (exists u; split; assumption).
        injection He as <-. discriminate.
  - intros Hall (u & Hu & Hgap).
    destruct (id_time_grid_ok (df c) n Hn) as (grid & -> & Hlen).
    { intros Hnil. rewrite Hnil in Hu. destruct Hu. }
    { intros v Hv. destruct (Hall v Hv) as [Hc|Hg];
        [apply complete_span | apply gap_span]; assumption. }
    cbn [rbind]. rewrite Hlen, (rows_by_ids (df c)).
    destruct (sum_list_le_lt (fun u => length (times_of u (df c)))
                (fun u => length (series_grid n (times_of u (df c))))
                (ids (df c))) as [_ Hlt].
    + intros v Hv. destruct (Hall v Hv) as [Hc|Hg].
      * rewrite (complete_counts n _ Hn Hc). lia.
      * rewrite (gap_counts n _ Hn Hg). lia.
    + match goal with
      | |- (if ?a =? ?b then _ else _) = _ =>
          assert (a < b);
          [|destruct (Nat.eqb_spec a b); [lia | reflexivity]]
      end.
      apply Hlt. exists u. split; [exact Hu|].
      rewrite (gap_counts n _ Hn Hgap). lia.
  - intros Hne Hall.
    destruct (id_time_grid_ok (df c) n Hn Hne) as (grid & -> & Hlen).
    { intros v Hv. apply complete_span; [exact Hn | exact (Hall v Hv)]. }
    cbn [rbind]. rewrite Hlen, (rows_by_ids (df c)).
    match goal with
    | |- (if ?a =? ?b then _ else _) = _ => assert (a = b) as ->
    end.
    { f_equal. apply map_ext_in. intros u Hu.
      symmetry. apply complete_counts; [exact Hn | exact (Hall u Hu)]. }
    rewrite Nat.eqb_refl. reflexivity.
Qed.
End ValidationTheorems.

Lemma frequency_validation_witness :
  Validation._run_validations gap_call = Raise Validation.frequency_error.
Proof.
  destruct (frequency_validation gap_call 1) as (_ & _ & _ & Hgap & _).
  - unfold Validation.earlier_checks_pass. simpl.
    repeat split; repeat constructor; discriminate.
  - right. exists "D"%string. reflexivity.
  - lia.
  - apply Hgap.
    + intros u Hu. vm_compute in Hu. destruct Hu as [<- | [<- | []]].
      * right. exists 0%Z, 4, 3. split; [lia | reflexivity].
      * left. exists 0%Z, 3. reflexivity.
    + exists "A"%string. split; [vm_compute; tauto|].
      exists 0%Z, 4, 3. split; [lia | reflexivity].
Defined.

(** C6 (as stated).  A series at times 0, 2 and 3 with the frequency 2
    has three rows, as many as the times 0, 2, 4 that [np.arange] lists
    from its first timestamp to its last; a series at times 0 and 3 has
    two rows, as many as the steps counted between its first and last
    timestamp; both calls raise all the same, inside [id_time_grid], where
    the two counts of the grid disagree.  A table without rows has as many
    rows as its empty grid, and the call raises too. *)
Lemma equal_counts_still_raise :
  Validation.earlier_checks_pass odd_span_call
  /\ length (Validation.df odd_span_call)
     = length (Validation.series_grid 2
                 (Validation.times_of "A" (Validation.df odd_span_call)))
  /\ Validation._run_validations odd_span_call
     = Raise (ValueError "All arrays must be of the same length")
  /\ Validation.earlier_checks_pass short_span_call
  /\ length (Validation.df short_span_call)
     = Validation.grid_size 2
         (Validation.times_of "A" (Validation.df short_span_call))
  /\ Validation._run_validations short_span_call
     = Raise (ValueError "All arrays must be of the same length")
  /\ Validation.earlier_checks_pass empty_call
  /\ Validation.ids (Validation.df empty_call) = []
  /\ Validation._run_validations empty_call
     = Raise (ValueError "need at least one array to concatenate").
Proof.
  unfold Validation.earlier_checks_pass.
  repeat split; try reflexivity; repeat constructor; discriminate.
Qed.

(** * Further properties of the pipeline *)

(** ** Truncation to the most recent rows: [_tail] *)

Section TailInvariants.
Import Tails.
Context {A : Type}.
Implicit Types (x : list A) (indptr sizes : list nat).

Lemma np_diff_cons a b (r : list nat) :
  np_diff (a :: b :: r) = (b - a) :: np_diff (b :: r).
Proof. reflexivity. Qed.

Lemma cumsum_from_diff acc sizes :
  np_diff (acc :: cumsum_from acc sizes) = sizes.
Proof.
  revert acc. induction sizes as [|s sizes IH]; intros acc; [reflexivity|].
  cbn [cumsum_from]. rewrite np_diff_cons, IH. f_equal. lia.
Qed.

Lemma cumsum_from_last acc sizes :
  last (acc :: cumsum_from acc sizes) = Some (acc + sum_list sizes).
Proof.
  revert acc. induction sizes as [|s sizes IH]; intros acc.
  - simpl. f_equal. lia.
  - cbn [cumsum_from]. rewrite last_cons_cons, IH. simpl. f_equal. lia.
Qed.

Lemma cumsum_from_nondecreasing acc sizes :
  nondecreasing (acc :: cumsum_from acc sizes).
Proof.
  revert acc. induction sizes as [|s sizes IH]; intros acc; [exact I|].
  cbn [cumsum_from nondecreasing]. split; [lia | apply IH].
Qed.

(** The offsets of a ragged array are the running sums of its sizes. *)
Lemma cumsum_of_diff indptr :
  nondecreasing indptr -> head indptr = Some 0 ->
  0 :: cumsum_from 0 (np_diff indptr) = indptr.
Proof.
  destruct indptr as [|a r]; [discriminate|]. intros Hnd [= ->].
  assert (Hgen : forall a r, nondecreasing (a :: r) ->
                             cumsum_from a (np_diff (a :: r)) = r).
  { clear. intros a r. revert a.
    induction r as [|b r IH]; intros a Hnd; [reflexivity|].
    destruct Hnd as [Hab Hnd]. rewrite np_diff_cons. cbn [cumsum_from].
    replace (a + (b - a)) with b by lia. f_equal.
    exact (IH b Hnd). }
  f_equal. apply Hgen. exact Hnd.
Qed.

Lemma tails_spec_cons x a b r s ss :
  tails_spec x (a :: b :: r) (s :: ss)
  = last_n s (slice a b x) ++ tails_spec x (b :: r) ss.
Proof. reflexivity. Qed.

Lemma tails_spec_length x indptr sizes :
  nondecreasing indptr ->
  Forall (fun i => i <= length x) indptr ->
  Forall2 le sizes (np_diff indptr) ->
  length (tails_spec x indptr sizes) = sum_list sizes.
Proof.
  revert sizes.
  induction indptr as [|a [|b r] IH]; intros sizes Hnd Hb Hle.
  - inversion Hle; subst. reflexivity.
  - inversion Hle; subst. reflexivity.
  - destruct Hnd as [Hab Hnd].
    inversion Hb as [|? ? _ Hb']; subst.
    inversion Hb' as [|? ? Hbx _]; subst.
    rewrite np_diff_cons in Hle. inversion Hle as [|s d ss ds Hsd Hle']; subst.
    rewrite tails_spec_cons, length_app, (IH ss Hnd Hb' Hle').
    rewrite last_n_slice by lia.
    rewrite length_take, length_drop. simpl. lia.
Qed.

(** Taking every series whole gives back the flat buffer. *)
Lemma tails_spec_whole x indptr :
  ragged x indptr -> tails_spec x indptr (np_diff indptr) = x.
Proof.
  intros (Hhd & Hnd & Hlast).
  pose proof (nondecreasing_bounded _ _ Hnd Hlast) as Hb.
  destruct indptr as [|a r]; [discriminate|]. injection Hhd as ->.
  assert (Hgen : forall a r,
             nondecreasing (a :: r) -> Forall (fun i => i <= length x) (a :: r) ->
             last (a :: r) = Some (length x) ->
             tails_spec x (a :: r) (np_diff (a :: r)) = drop a x).
  { clear. intros a r. revert a.
    induction r as [|b r IH]; intros a Hnd Hb Hlast.
    - simpl in Hlast. injection Hlast as ->.
      unfold tails_spec. simpl. rewrite drop_all. reflexivity.
    - destruct Hnd as [Hab Hnd].
      inversion Hb as [|? ? _ Hb']; subst.
      inversion Hb' as [|? ? Hbx _]; subst.
      rewrite last_cons_cons in Hlast.
      rewrite np_diff_cons, tails_spec_cons, (IH b Hnd Hb' Hlast).
      rewrite last_n_slice by lia.
      replace (b - (b - a)) with a by lia.
      rewrite <- (take_drop (b - a) (drop a x)) at 2.
      rewrite drop_drop. do 3 f_equal. lia. }
  rewrite (Hgen 0 r Hnd Hb Hlast). apply drop_0.
Qed.
End TailInvariants.

Section TailTheorems.
Import Tails.
Context {U T A : Type}.
Implicit Types (proc : ProcessedDF U T A).

Lemma min_sizes_le (n : nat) (sizes : list nat) :
  Forall2 le (map (fun s => Nat.min s n) sizes) sizes.
Proof. induction sizes; constructor; [lia | assumption]. Qed.

Lemma min_sizes_same (n : nat) (sizes : list nat) :
  Forall (fun s => s <= n) sizes -> map (fun s => Nat.min s n) sizes = sizes.
Proof.
  induction 1 as [|s l Hs _ IH]; [reflexivity|].
  simpl. rewrite IH. f_equal. lia.
Qed.

(** X1.  On a well-formed ragged array with at least one series, [_tail]
    returns a well-formed ragged array with the same series in the same
    order: series [i] keeps its last [min(len_i, n)] rows, so no series is
    longer than [n] and none is lengthened; identifiers and last
    timestamps are kept and the sort permutation is dropped. *)
Theorem tail_truncates proc n :
  ragged (data proc) (indptr proc) ->
  np_diff (indptr proc) <> [] ->
  exists proc',
    _tail proc n = Ok proc'
    /\ data proc'
       = tails_spec (data proc) (indptr proc)
                    (map (fun s => Nat.min s n) (np_diff (indptr proc)))
    /\ np_diff (indptr proc') = map (fun s => Nat.min s n) (np_diff (indptr proc))
    /\ ragged (data proc') (indptr proc')
    /\ Forall (fun s => s <= n) (np_diff (indptr proc'))
    /\ uids proc' = uids proc
    /\ last_times proc' = last_times proc
    /\ sort_idxs proc' = None.
Proof.
  intros Hr Hne.
  set (new_sizes := map (fun s => Nat.min s n) (np_diff (indptr proc))).
  eexists. split; [exact (tail_keeps_last proc n Hr Hne)|].
  cbn [data indptr uids last_times sort_idxs]. fold new_sizes.
  destruct Hr as (Hhd & Hnd & Hlast).
  pose proof (nondecreasing_bounded _ _ Hnd Hlast) as Hb.
  split; [reflexivity|]. split; [apply cumsum_from_diff|].
  split; [|split; [|repeat split]].
  - split; [reflexivity|]. split; [apply cumsum_from_nondecreasing|].
    rewrite cumsum_from_last, tails_spec_length;
      [reflexivity | exact Hnd | exact Hb | apply min_sizes_le].
  - rewrite cumsum_from_diff. subst new_sizes.
    apply Forall_forall. intros s Hs.
    apply list_elem_of_fmap in Hs as (s' & -> & _). lia.
Qed.

(** X2.  When no series is longer than [n], [_tail] changes neither the data
    nor the offsets. *)
Theorem tail_of_short_series proc n :
  ragged (data proc) (indptr proc) ->
  np_diff (indptr proc) <> [] ->
  Forall (fun s => s <= n) (np_diff (indptr proc)) ->
  _tail proc n
  = Ok (mkProcessedDF (uids proc) (last_times proc) (data proc) (indptr proc) None).
Proof.
  intros Hr Hne Hshort.
  rewrite (tail_keeps_last proc n Hr Hne).
  cbv zeta. rewrite (min_sizes_same n _ Hshort), (tails_spec_whole _ _ Hr).
  destruct Hr as (Hhd & Hnd & _).
  rewrite (cumsum_of_diff _ Hnd Hhd). reflexivity.
Qed.
End TailTheorems.

Lemma tail_truncates_witness :
  exists proc',
    Tails._tail (Tails.mkProcessedDF ["A"; "B"]%string [4; 9]%Z
                   [10; 20; 30; 40; 50] [0; 2; 5] (Some [1; 0; 2; 3; 4])) 2
    = Ok proc'
    /\ Tails.data proc' = [10; 20; 40; 50]
    /\ Tails.indptr proc' = [0; 2; 4].
Proof.
  destruct (tail_truncates
              (Tails.mkProcessedDF ["A"; "B"]%string [4; 9]%Z
                 [10; 20; 30; 40; 50] [0; 2; 5] (Some [1; 0; 2; 3; 4])) 2)
    as (proc' & Hrun & Hdata & Hdiff & Hrag & _).
  - unfold Tails.ragged. simpl. repeat split; lia.
  - discriminate.
  - exists proc'. split; [exact Hrun|]. split; [exact Hdata|].
    vm_compute in Hrun. injection Hrun as <-. reflexivity.
Defined.

Lemma tail_of_short_series_witness :
  Tails._tail (Tails.mkProcessedDF ["A"; "B"]%string [4; 9]%Z
                 [10; 20; 30; 40; 50] [0; 2; 5] (Some [1; 0; 2; 3; 4])) 3
  = Ok (Tails.mkProcessedDF ["A"; "B"]%string [4; 9]%Z
          [10; 20; 30; 40; 50] [0; 2; 5] None).
Proof.
  apply (tail_of_short_series
           (Tails.mkProcessedDF ["A"; "B"]%string [4; 9]%Z
              [10; 20; 30; 40; 50] [0; 2; 5] (Some [1; 0; 2; 3; 4])) 3).
  - unfold Tails.ragged. simpl. repeat split; lia.
  - discriminate.
  - simpl. repeat constructor.
Defined.

(** ** Input sizing *)

Lemma foldr_min_ge (k x : nat) (r : list nat) :
  k <= foldr Nat.min x r <-> Forall (fun s => k <= s) (x :: r).
Proof.
  induction r as [|a r IH]; simpl.
  - split; [intros H; repeat constructor; exact H | intros H; inversion H; assumption].
  - rewrite Nat.min_glb_iff, IH. split.
    + intros [Ha H]. inversion H; subst. repeat constructor; assumption.
    + intros H. inversion H as [|? ? Hx H']; subst.
      inversion H' as [|? ? Ha Hr]; subst.
      split; [exact Ha | constructor; assumption].
Qed.

(** X3.  [_validate_input_size] accepts a frame exactly when every series has
    at least [model_input_size + model_horizon] observations; a frame
    without series is refused by numpy's [min]. *)
Theorem validate_input_size_spec {U T A} (processed : Tails.ProcessedDF U T A)
        (model_input_size model_horizon : nat) :
  let sizes := np_diff (Tails.indptr processed) in
  let needed := model_input_size + model_horizon in
  (sizes <> [] ->
   (Sizing._validate_input_size processed model_input_size model_horizon = Ok tt
    <-> Forall (fun s => needed <= s) sizes)
   /\ (Sizing._validate_input_size processed model_input_size model_horizon
       = Raise (Sizing.too_short needed)
       <-> Exists (fun s => s < needed) sizes))
  /\ (sizes = [] ->
      exists msg,
        Sizing._validate_input_size processed model_input_size model_horizon
        = Raise (ValueError msg)).
Proof.
  intros sizes needed. unfold Sizing._validate_input_size. fold sizes. fold needed.
  split.
  - intros Hne. destruct sizes as [|x r]; [congruence|]. cbn [Sizing.np_min rbind].
    destruct (Nat.ltb_spec (foldr Nat.min x r) needed) as [Hlt|Hge].
    + assert (Hnot : ~ Forall (fun s => needed <= s) (x :: r))
        by (rewrite <- foldr_min_ge; lia).
      split; split; intros H; try discriminate; try reflexivity.
      * contradiction.
      * apply not_Forall_Exists in Hnot; [|intros s; apply le_dec].
        eapply Exists_impl; [exact Hnot|]. simpl. intros; lia.
    + apply foldr_min_ge in Hge.
      split; split; intros H; try discriminate; try reflexivity; try exact Hge.
      exfalso. apply Exists_exists in H as (s & Hs & Hlt).
      rewrite Forall_forall in Hge. specialize (Hge s Hs). lia.
  - intros Hnil. rewrite Hnil. eexists. reflexivity.
Qed.

Section RowAlignment.
Import Tails.
Context {A B : Type}.
Implicit Types (x : list A) (y : list B) (indptr sizes idxs : list nat).

Lemma take_idxs_zip x y idxs a b :
  take_idxs x idxs = Ok a -> take_idxs y idxs = Ok b ->
  take_idxs (zip x y) idxs = Ok (zip a b).
Proof.
  revert a b. induction idxs as [|i idxs IH]; intros a b Ha Hb;
    cbn [take_idxs] in *.
  - injection Ha as <-. injection Hb as <-. reflexivity.
  - destruct (x !! i) as [u|] eqn:Hx; [|discriminate].
    destruct (y !! i) as [v|] eqn:Hy; [|discriminate].
    destruct (take_idxs x idxs) as [a'|] eqn:Hxa; [|discriminate].
    destruct (take_idxs y idxs) as [b'|] eqn:Hyb; [|discriminate].
    cbn [rbind] in Ha, Hb. injection Ha as <-. injection Hb as <-.
    rewrite lookup_zip_with, Hx. cbn. rewrite Hy. cbn.
    rewrite (IH a' b' eq_refl eq_refl). reflexivity.
Qed.

(** The tails of two buffers taken with the same offsets and sizes are
    the tails of the buffer of pairs: rows stay aligned. *)
Lemma tails_spec_zip x y indptr sizes :
  length x = length y ->
  nondecreasing indptr ->
  Forall (fun i => i <= length x) indptr ->
  Forall2 le sizes (np_diff indptr) ->
  tails_spec (zip x y) indptr sizes
  = zip (tails_spec x indptr sizes) (tails_spec y indptr sizes).
Proof.
  intros Hlen Hnd Hb Hle.
  pose proof (tails_idxs_spec x indptr sizes Hnd Hb Hle) as Hx.
  assert (Hby : Forall (fun i => i <= length y) indptr).
  { eapply Forall_impl; [exact Hb|]. intros i Hi. cbv beta in *. lia. }
  pose proof (tails_idxs_spec y indptr sizes Hnd Hby Hle) as Hy.
  assert (Hbz : Forall (fun i => i <= length (zip x y)) indptr).
  { eapply Forall_impl; [exact Hb|]. intros i Hi. cbv beta in *.
    rewrite length_zip_with. lia. }
  pose proof (tails_idxs_spec (zip x y) indptr sizes Hnd Hbz Hle) as Hz.
  rewrite (take_idxs_zip _ _ _ _ _ Hx Hy) in Hz.
  injection Hz as Hz. symmetry. exact Hz.
Qed.
End RowAlignment.

(** X4.  On a well-formed processed frame with at least one series, and
    times and targets with one entry per row, the restriction of the
    cross-validation input succeeds; every series keeps its last
    [min(len_i, n)] rows, with [n] the restricted input size plus
    [h + step_size * (n_windows - 1)] ([n_windows] is a positive integer
    in the signature); and the truncated data, times and
    targets are the rows of the original frame, still aligned. *)
Theorem cv_restrict_input_aligned {U T A B C L}
        (processed : Tails.ProcessedDF U T A) (times : list B) (targets : list C)
        (level : option L) (input_size horizon h step_size n_windows : nat) :
  let n := Sizing._restrict_input_samples level input_size horizon h
           + (h + step_size * (n_windows - 1)) in
  let new_sizes := map (fun s => Nat.min s n) (np_diff (Tails.indptr processed)) in
  1 <= n_windows ->
  Tails.ragged (Tails.data processed) (Tails.indptr processed) ->
  np_diff (Tails.indptr processed) <> [] ->
  length times = length (Tails.data processed) ->
  length targets = length (Tails.data processed) ->
  exists processed' times' targets',
    Sizing.cv_restrict_input processed times targets level input_size horizon
                             h step_size n_windows
    = Ok (processed', times', targets')
    /\ np_diff (Tails.indptr processed') = new_sizes
    /\ zip (Tails.data processed') (zip times' targets')
       = Tails.tails_spec (zip (Tails.data processed) (zip times targets))
                          (Tails.indptr processed) new_sizes
    /\ length times' = length (Tails.data processed')
    /\ length targets' = length (Tails.data processed').
Proof.
  intros n new_sizes _ Hr Hne Htimes Htargets.
  unfold Sizing.cv_restrict_input. fold n.
  rewrite (tail_keeps_last processed n Hr Hne). cbn [rbind Tails.indptr].
  fold new_sizes. rewrite cumsum_from_diff.
  assert (Hle : Forall2 le new_sizes (np_diff (Tails.indptr processed)))
    by apply min_sizes_le.
  assert (Hns : new_sizes <> []).
  { subst new_sizes. destruct (np_diff (Tails.indptr processed));
      [congruence | discriminate]. }
  pose proof Hr as (Hhd & Hnd & Hlast).
  pose proof (nondecreasing_bounded _ _ Hnd Hlast) as Hb.
  assert (Hrt : Tails.ragged times (Tails.indptr processed)).
  { unfold Tails.ragged. rewrite Htimes. exact Hr. }
  assert (Hrg : Tails.ragged targets (Tails.indptr processed)).
  { unfold Tails.ragged. rewrite Htargets. exact Hr. }
  rewrite (array_tails_within times _ new_sizes Hrt Hns Hle). cbn [rbind].
  rewrite (array_tails_within targets _ new_sizes Hrg Hns Hle). cbn [rbind].
  do 3 eexists. split; [reflexivity|]. cbn [Tails.data Tails.indptr].
  rewrite cumsum_from_diff. split; [reflexivity|].
  assert (Hbt : Forall (fun i => i <= length times) (Tails.indptr processed)).
  { eapply Forall_impl; [exact Hb|]. intros i Hi. cbv beta in *. lia. }
  assert (Hbg : Forall (fun i => i <= length targets) (Tails.indptr processed)).
  { eapply Forall_impl; [exact Hb|]. intros i Hi. cbv beta in *. lia. }
  split; [|split].
  - rewrite (tails_spec_zip (Tails.data processed) (zip times targets));
      try assumption; [|rewrite length_zip_with; lia].
    rewrite (tails_spec_zip times targets) by (try assumption; congruence).
    reflexivity.
  - rewrite !tails_spec_length; try assumption. reflexivity.
  - rewrite !tails_spec_length; try assumption. reflexivity.
Qed.

Lemma cv_restrict_input_aligned_witness :
  Sizing.cv_restrict_input
    (Tails.mkProcessedDF ["A"; "B"]%string [4; 9]%Z
       [10; 20; 30; 40; 50; 60; 70] [0; 3; 7] None)
    [1; 2; 3; 1; 2; 3; 4]%Z [10; 20; 30; 40; 50; 60; 70]
    (@None (list Q)) 1 1 1 1 1
  = Ok (Tails.mkProcessedDF ["A"; "B"]%string [4; 9]%Z
          [20; 30; 60; 70] [0; 2; 4] None,
        [2; 3; 3; 4]%Z, [20; 30; 60; 70]).
Proof.
  destruct (cv_restrict_input_aligned
              (Tails.mkProcessedDF ["A"; "B"]%string [4; 9]%Z
                 [10; 20; 30; 40; 50; 60; 70] [0; 3; 7] None)
              [1; 2; 3; 1; 2; 3; 4]%Z [10; 20; 30; 40; 50; 60; 70]
              (@None (list Q)) 1 1 1 1 1)
    as (p' & t' & g' & Hrun & _).
  - lia.
  - unfold Tails.ragged. simpl. repeat split; lia.
  - discriminate.
  - reflexivity.
  - reflexivity.
  - rewrite Hrun. vm_compute in Hrun. injection Hrun as <- <- <-. reflexivity.
Defined.

(** ** Partitioner: outcomes and degenerate partitions *)

Lemma partition_series_roundtrip_witness :
  exists parts,
    Partition._partition_series
      (Partition.mkPayload
         (Partition.mkSeries [1; 2; 3; 4; 5; 6]%Z [2; 1; 3]
            (Some [[7; 8; 9; 10; 11; 12]%Z])
            (Partition.Val [[21; 22; 23; 24; 25; 26]%Z])) tt) 2 2
    = Ok parts
    /\ concat (map (fun p => Partition.y (Partition.series p)) parts)
       = [1; 2; 3; 4; 5; 6]%Z
    /\ concat (map (fun p => Partition.entry_row 0
                               (Partition.X_future (Partition.series p))) parts)
       = [21; 22; 23; 24; 25; 26]%Z.
Proof.
  destruct (partition_series_roundtrip
              (Partition.mkPayload
                 (Partition.mkSeries [1; 2; 3; 4; 5; 6]%Z [2; 1; 3]
                    (Some [[7; 8; 9; 10; 11; 12]%Z])
                    (Partition.Val [[21; 22; 23; 24; 25; 26]%Z])) tt) 2 2)
    as (parts & Hrun & _ & _ & Hy & _ & _ & Hxf & _).
  - simpl. lia.
  - lia.
  - unfold Partition.well_formed. simpl. split; [reflexivity|]. split.
    + intros xs [= <-]. repeat constructor.
    + intros xf [= <-]. repeat constructor.
  - simpl. eexists. reflexivity.
  - exists parts. split; [exact Hrun|]. split; [exact Hy | exact (Hxf 0)].
Defined.

(** Closes the eight implications of an outcome table once the call is
    rewritten to its result. *)
Ltac partition_outcome :=
  split; [|split; [|split]]; (split; intros Hcase);
  repeat match type of Hcase with
         | _ /\ _ => let H := fresh "Hl" in destruct Hcase as [H Hcase]
         | exists _, _ => let w := fresh "w" in destruct Hcase as [w Hcase]
         | _ \/ _ => destruct Hcase as [Hcase|Hcase]
         | _ -> _ -> exists _, _ =>
             let w := fresh "w" in
             destruct Hcase as [w Hcase]; [lia | discriminate |]
         end;
  first [ discriminate | congruence | lia | reflexivity
        | left; lia | right; lia
        | eexists; reflexivity
        | split; [lia | split; [lia | intros;
                                first [lia | congruence | eexists; reflexivity]]]
        | repeat split; first [lia | discriminate | reflexivity] ].

Section PartitionOutcome.
Import Partition.
Context {A R : Type}.
Implicit Types (payload : Payload A R) (s : Series A).

(** With at least one series and one partition the loop runs its body
    for the chunk that starts at series 0. *)
Lemma partition_series_first payload n_part h :
  let s := series payload in
  let n := length (sizes s) in
  let spp := ceil_div n (Nat.min n_part n) in
  1 <= n -> 1 <= n_part ->
  _partition_series payload n_part h
  = parts_loop s (rest payload) h spp (0 :: range_loop (n - 1) spp n spp) 0.
Proof.
  intros s n spp Hn Hp.
  assert (Hspp : 0 < spp) by (apply ceil_div_pos; lia).
  unfold _partition_series. fold s. fold n.
  destruct (Nat.eqb_spec (Nat.min n_part n) 0) as [Hz|_]; [lia|].
  fold spp. unfold py_range.
  destruct (Nat.eqb_spec spp 0) as [Hz|_]; [lia|].
  cbn [rbind]. rewrite Nat.sub_0_r.
  destruct n as [|n']; [lia|]. cbn [range_loop].
  destruct (Nat.ltb_spec 0 (S n')) as [_|Hc]; [|lia].
  rewrite Nat.sub_succ, Nat.sub_0_r. reflexivity.
Qed.

(** X6.  The four outcomes of [_partition_series]: a division by zero
    exactly when there is no series or no partition is asked for; a
    [TypeError] exactly when features are given, the horizon is positive
    and the future matrix is [None]; a [KeyError] exactly when it is
    missing; and a list of sub-payloads in every other case. *)
Theorem partition_series_outcome payload n_part h :
  let s := series payload in
  let n := length (sizes s) in
  (_partition_series payload n_part h = Raise ZeroDivisionError
   <-> n = 0 \/ n_part = 0)
  /\ (_partition_series payload n_part h
      = Raise (TypeError "'NoneType' object is not iterable")
      <-> 1 <= n /\ 1 <= n_part /\ X s <> None /\ 0 < h /\ X_future s = PyNone)
  /\ (_partition_series payload n_part h = Raise (KeyError "X_future")
      <-> 1 <= n /\ 1 <= n_part /\ X s <> None /\ 0 < h /\ X_future s = Absent)
  /\ ((exists parts, _partition_series payload n_part h = Ok parts)
      <-> 1 <= n /\ 1 <= n_part
          /\ (0 < h -> X s <> None -> exists xf, X_future s = Val xf)).
Proof.
  intros s n.
  assert (Hzero : n = 0 \/ n_part = 0 ->
                  _partition_series payload n_part h = Raise ZeroDivisionError).
  { intros Hz. unfold _partition_series. fold s. fold n.
    replace (Nat.min n_part n) with 0 by lia. reflexivity. }
  destruct (le_lt_dec n 0) as [Hn0|Hn];
    [rewrite Hzero by lia; partition_outcome|].
  destruct (le_lt_dec n_part 0) as [Hp0|Hp];
    [rewrite Hzero by lia; partition_outcome|].
  clear Hzero.
  pose proof (partition_series_first payload n_part h Hn Hp) as Hfirst.
  pose proof (partition_series_chunks payload n_part h Hn Hp) as Hchunks.
  fold s in Hfirst, Hchunks. cbn [parts_loop] in Hfirst.
  unfold make_part, future_readable in *.
  destruct (X s) as [xs|] eqn:HX.
  - destruct (Nat.ltb_spec 0 h) as [Hh|Hh].
    + destruct (X_future s) as [| |xf] eqn:HXf.
      * rewrite Hfirst. cbn [rbind]. partition_outcome.
      * rewrite Hfirst. cbn [rbind]. partition_outcome.
      * destruct Hchunks as [_ Hrun]; [intros _ _; exists xf; reflexivity|].
        rewrite Hrun. partition_outcome.
    + destruct Hchunks as [_ Hrun]; [intros Hc; lia|].
      rewrite Hrun. partition_outcome.
  - destruct Hchunks as [_ Hrun]; [intros _ Hc; congruence|].
    rewrite Hrun. partition_outcome.
Qed.

(** X7.  One partition is the whole payload: with [n_part = 1] the only
    sub-payload is the payload itself. *)
Theorem partition_series_single payload h :
  let s := series payload in
  1 <= length (sizes s) -> well_formed s h -> future_shape s h ->
  _partition_series payload 1 h = Ok [payload].
Proof.
  intros s Hn (Hy & HX & HXf) Hshape.
  set (n := length (sizes s)) in *.
  assert (Hfut : future_readable s h).
  { intros Hh HXn. unfold future_shape in Hshape.
    destruct (X s); [|congruence].
    destruct (Nat.ltb_spec 0 h); [exact Hshape | lia]. }
  destruct (partition_series_chunks payload 1 h Hn ltac:(lia) Hfut) as [_ Hrun].
  fold s n in Hrun. rewrite Hrun.
  replace (Nat.min 1 n) with 1 by lia.
  assert (Hspp : ceil_div n 1 = n) by (apply ceil_div_unique; lia).
  rewrite Hspp.
  assert (Hstarts : range_loop n 0 n n = [0]).
  { destruct n as [|n']; [lia|]. cbn [range_loop].
    destruct (Nat.ltb_spec 0 (S n')) as [_|Hc]; [|lia].
    f_equal. destruct n' as [|n'']; [reflexivity|]. cbn [range_loop].
    destruct (Nat.ltb_spec (0 + S (S n'')) (S (S n''))) as [Hc|_]; [lia|].
    reflexivity. }
  rewrite Hstarts. cbn [map]. do 2 f_equal.
  destruct payload as [s0 r0]. cbn [series rest] in *. subst s. f_equal.
  assert (Ha : offset (sizes s0) 0 = 0) by reflexivity.
  assert (Hb : offset (sizes s0) (0 + n) = sum_list (sizes s0)).
  { apply offset_all. unfold n. lia. }
  unfold chunk. rewrite Ha, Hb.
  assert (Hrows : forall rows : list (list A),
             Forall (fun row => length row = sum_list (sizes s0)) rows ->
             map (slice 0 (sum_list (sizes s0))) rows = rows).
  { intros rows Hr. induction Hr as [|row rows Hrow _ IH]; [reflexivity|].
    simpl. rewrite IH. f_equal. rewrite <- Hrow. apply slice_all. }
  destruct s0 as [y0 sz0 X0 Xf0]. cbn [y sizes X X_future] in *.
  f_equal.
  - rewrite <- Hy. apply slice_all.
  - unfold slice. rewrite drop_0, Nat.sub_0_r. apply take_ge. unfold n. lia.
  - destruct X0 as [xs|]; [|reflexivity]. simpl. f_equal.
    apply Hrows. apply HX. reflexivity.
  - unfold future_shape in Hshape. cbn [X X_future] in Hshape.
    destruct X0 as [xs|].
    + destruct (Nat.ltb_spec 0 h) as [Hh|Hh].
      * destruct Hshape as [xf ->]. f_equal.
        specialize (HXf xf eq_refl). clear -HXf.
        induction HXf as [|row rows Hrow _ IH]; [reflexivity|].
        cbn [map]. rewrite IH. f_equal.
        replace ((0 + n) * h) with (length row) by (rewrite Hrow; unfold n; lia).
        replace (0 * h) with 0 by lia.
        apply slice_all.
      * symmetry. exact Hshape.
    + destruct (0 <? h); symmetry; exact Hshape.
Qed.
End PartitionOutcome.

Lemma partition_series_single_witness :
  Partition._partition_series
    (Partition.mkPayload
       (Partition.mkSeries [1; 2; 3]%Z [2; 1] (Some [[7; 8; 9]%Z])
          (Partition.Val [[21; 22; 23; 24]%Z])) tt) 1 2
  = Ok [Partition.mkPayload
          (Partition.mkSeries [1; 2; 3]%Z [2; 1] (Some [[7; 8; 9]%Z])
             (Partition.Val [[21; 22; 23; 24]%Z])) tt].
Proof.
  apply (partition_series_single
           (Partition.mkPayload
              (Partition.mkSeries [1; 2; 3]%Z [2; 1] (Some [[7; 8; 9]%Z])
                 (Partition.Val [[21; 22; 23; 24]%Z])) tt) 2).
  - simpl. lia.
  - unfold Partition.well_formed. simpl. split; [reflexivity|]. split.
    + intros xs [= <-]. repeat constructor.
    + intros xf [= <-]. repeat constructor.
  - simpl. eexists. reflexivity.
Defined.

(** ** Merged responses *)

Lemma rbind_ok {A B} (r : result A) (k : A -> result B) (b : B) :
  rbind r k = Ok b -> exists a, r = Ok a /\ k a = Ok b.
Proof. destruct r as [a|e]; simpl; [eauto | discriminate]. Qed.

Lemma for_each_ok {T U} (f : T -> result U) (l : list T) (us : list U) :
  Merger.for_each f l = Ok us -> Forall2 (fun t u => f t = Ok u) l us.
Proof.
  revert us. induction l as [|t l IH]; intros us H; simpl in H.
  - injection H as <-. constructor.
  - apply rbind_ok in H as (u & Hu & H).
    apply rbind_ok in H as (us' & Hus & H). injection H as <-.
    constructor; [exact Hu | apply IH; exact Hus].
Qed.

(** A loop over the items raises as soon as one item does: the error is
    that of an item which fails. *)
Lemma for_each_raise {T U} (f : T -> result U) (l : list T) t e :
  In t l -> f t = Raise e ->
  exists e' t', Merger.for_each f l = Raise e' /\ In t' l /\ f t' = Raise e'.
Proof.
  induction l as [|a l IH]; intros Hin Hf; [destruct Hin|].
  simpl. destruct (f a) as [u|ea] eqn:Ha.
  - destruct Hin as [->|Hin]; [congruence|].
    destruct (IH Hin Hf) as (e' & t' & Hrun & Hin' & Hf').
    exists e', t'. rewrite Hrun. simpl. auto.
  - exists ea, a. simpl. auto.
Qed.

Lemma np_hstack_ok {T} (arrays : list (list T)) out :
  np_hstack arrays = Ok out -> out = concat arrays.
Proof. destruct arrays; simpl; [discriminate | intros [= <-]; reflexivity]. Qed.

Lemma get_key_ok {T} k (v : option T) t : Merger.get_key k v = Ok t -> v = Some t.
Proof. destruct v; simpl; [intros [= ->]; reflexivity | discriminate]. Qed.

Section MergerTheorems.
Import Merger.
Context {A R V W : Type}.
Implicit Types (payloads : list (Partition.Payload A R))
         (request : Partition.Payload A R -> result (Response V W))
         (results : list (Response V W)) (m : Response V (list (option W))).

Lemma hstack_key_ok {T} k (get : Response V W -> option (list T))
      first_res rest o :
  hstack_key k get first_res (first_res :: rest) = Ok o ->
  MergeSpec.stacked get (first_res :: rest) o.
Proof.
  unfold hstack_key, MergeSpec.stacked. cbn [head].
  destruct (get first_res) as [a0|] eqn:Hfirst.
  - intros H. apply rbind_ok in H as (arrays & Harr & H).
    apply rbind_ok in H as (merged & Hm & H). injection H as <-.
    apply np_hstack_ok in Hm as ->. apply for_each_ok in Harr.
    exists arrays. split; [|reflexivity].
    eapply Forall2_impl; [exact Harr|]. intros r a Hr.
    apply get_key_ok in Hr. exact Hr.
  - intros [= <-]. reflexivity.
Qed.

(** A successful call answered every sub-payload. *)
Lemma partitioned_requests_ok request payloads m :
  _make_partitioned_requests request payloads = Ok m ->
  exists first_res rest,
    Forall2 (fun p r => request p = Ok r) payloads (first_res :: rest)
    /\ merge_results (first_res :: rest) payloads = Ok m.
Proof.
  intros H. destruct payloads as [|p ps]; [discriminate|].
  unfold _make_partitioned_requests in H.
  apply rbind_ok in H as (results & Hreq & H). apply for_each_ok in Hreq.
  destruct results as [|first_res rest]; [inversion Hreq|].
  exists first_res, rest. split; assumption.
Qed.

(** X8.  A failed request fails the whole call: no merged response is
    returned, and the error raised is that of a request which failed. *)
Theorem partitioned_requests_failure request payloads p e :
  In p payloads -> request p = Raise e ->
  exists e' p',
    _make_partitioned_requests request payloads = Raise e'
    /\ In p' payloads /\ request p' = Raise e'.
Proof.
  intros Hin Hreq.
  destruct (for_each_raise request payloads p e Hin Hreq)
    as (e' & p' & Hrun & Hin' & Hreq').
  exists e', p'. split; [|split; assumption].
  unfold _make_partitioned_requests.
  destruct payloads as [|q qs]; [destruct Hin|].
  rewrite Hrun. reflexivity.
Qed.

(** X9.  Whenever the call returns, every sub-payload was answered and the
    merged arrays are the concatenations, in partition order, of the
    arrays of the responses: [mean] always, [sizes], [anomaly] and
    [anomaly_score] when the first response has the key, and every bound
    of [intervals] when the first response has intervals. *)
Theorem merged_arrays_in_order request payloads m :
  _make_partitioned_requests request payloads = Ok m ->
  exists results,
    Forall2 (fun p r => request p = Ok r) payloads results
    /\ mean m = concat (map mean results)
    /\ MergeSpec.stacked sizes results (sizes m)
    /\ MergeSpec.stacked anomaly results (anomaly m)
    /\ MergeSpec.stacked anomaly_score results (anomaly_score m)
    /\ MergeSpec.stacked_intervals results (intervals m).
Proof.
  intros H.
  apply partitioned_requests_ok in H as (first_res & rest & Hreq & H).
  exists (first_res :: rest). split; [exact Hreq|].
  unfold merge_results in H.
  apply rbind_ok in H as (mean_ & Hmean & H).
  apply rbind_ok in H as (sizes_ & Hsizes & H).
  apply rbind_ok in H as (anomaly_ & Hanomaly & H).
  apply rbind_ok in H as (idxs_ & _ & H).
  apply rbind_ok in H as (score_ & Hscore & H).
  apply rbind_ok in H as (intervals_ & Hint & H).
  apply rbind_ok in H as (weights_ & _ & H).
  apply rbind_ok in H as (contributions_ & _ & H).
  injection H as <-. cbn [mean sizes anomaly anomaly_score intervals].
  split; [exact (np_hstack_ok _ _ Hmean)|].
  split; [exact (hstack_key_ok _ _ _ _ _ Hsizes)|].
  split; [exact (hstack_key_ok _ _ _ _ _ Hanomaly)|].
  split; [exact (hstack_key_ok _ _ _ _ _ Hscore)|].
  unfold MergeSpec.stacked_intervals. cbn [head].
  destruct (intervals first_res) as [d0|]; [|injection Hint as <-; reflexivity].
  apply rbind_ok in Hint as (d & Hd & Hint). injection Hint as <-.
  exists d. split; [reflexivity|].
  apply for_each_ok in Hd.
  eapply Forall2_impl; [exact Hd|]. intros kv0 kv Hkv. cbv beta in Hkv.
  apply rbind_ok in Hkv as (arrays & Harr & Hkv).
  apply rbind_ok in Hkv as (col & Hcol & Hkv). injection Hkv as <-.
  apply np_hstack_ok in Hcol as ->. apply for_each_ok in Harr.
  split; [reflexivity|]. exists arrays. split; [|reflexivity].
  eapply Forall2_impl; [exact Harr|]. intros r c Hr. cbv beta in Hr.
  destruct (intervals r) as [dr|]; [|discriminate].
  exists dr. split; [reflexivity|]. apply get_key_ok in Hr. exact Hr.
Qed.

(** X10.  With one or two partitions the merged [idxs] are the global row
    positions: every local index shifted by the rows of the partitions
    before its own. *)
Theorem merged_idxs_upto_two request payloads m ix :
  _make_partitioned_requests request payloads = Ok m ->
  length payloads <= 2 ->
  idxs m = Some ix ->
  exists results locals,
    Forall2 (fun p r => request p = Ok r) payloads results
    /\ Forall2 (fun r l => idxs r = Some l) results locals
    /\ ix = merged_idxs_spec locals payloads.
Proof.
  intros H Hlen Hix.
  apply partitioned_requests_ok in H as (first_res & rest & Hreq & H).
  exists (first_res :: rest).
  unfold merge_results in H.
  apply rbind_ok in H as (mean_ & _ & H).
  apply rbind_ok in H as (sizes_ & _ & H).
  apply rbind_ok in H as (anomaly_ & _ & H).
  apply rbind_ok in H as (idxs_ & Hidxs & H).
  apply rbind_ok in H as (score_ & _ & H).
  apply rbind_ok in H as (intervals_ & _ & H).
  apply rbind_ok in H as (weights_ & _ & H).
  apply rbind_ok in H as (contributions_ & _ & H).
  injection H as <-. cbn [idxs] in Hix. subst idxs_.
  destruct (idxs first_res) as [l0|] eqn:Hfirst; [|discriminate].
  apply rbind_ok in Hidxs as (arrays & Harr & Hidxs).
  apply rbind_ok in Hidxs as (merged & Hm & Hidxs). injection Hidxs as <-.
  apply np_hstack_ok in Hm as ->.
  inversion Hreq as [|p r ps rs Hp Hrest]; subst.
  destruct ps as [|q [|q' ps]]; [| |simpl in Hlen; lia].
  - inversion Hrest; subst. cbn in Harr. rewrite Hfirst in Harr.
    cbn in Harr. injection Harr as <-.
    exists [l0]. split; [exact Hreq|]. split; [repeat constructor; exact Hfirst|].
    unfold merged_idxs_spec. reflexivity.
  - inversion Hrest as [|? r2 ? ? Hq Hnil]; subst. inversion Hnil; subst.
    cbn in Harr. rewrite Hfirst in Harr. cbn in Harr.
    destruct (idxs r2) as [l1|] eqn:Hsecond; [|discriminate].
    cbn in Harr. injection Harr as <-.
    exists [l0; l1]. split; [exact Hreq|].
    split; [repeat constructor; assumption|].
    unfold merged_idxs_spec, rows. cbn. reflexivity.
Qed.
End MergerTheorems.

Lemma partitioned_requests_failure_witness :
  exists e,
    Merger._make_partitioned_requests
      (fun p : Partition.Payload Z unit =>
         if length (Partition.y (Partition.series p)) =? 3
         then Raise (ApiError (Some 429%Z) (BodyJson JNull))
         else first_row_stub p)
      three_parts
    = Raise e.
Proof.
  destruct (partitioned_requests_failure
              (V := Z) (W := unit)
              (fun p : Partition.Payload Z unit =>
                 if length (Partition.y (Partition.series p)) =? 3
                 then Raise (ApiError (Some 429%Z) (BodyJson JNull))
                 else first_row_stub p)
              three_parts
              (Partition.mkPayload
                 (Partition.mkSeries [3; 4; 5]%Z [3] None Partition.Absent) tt)
              (ApiError (Some 429%Z) (BodyJson JNull)))
    as (e' & p' & Hrun & _).
  - right. left. reflexivity.
  - reflexivity.
  - exists e'. exact Hrun.
Defined.

Lemma merged_arrays_in_order_witness :
  exists results,
    Forall2 (fun p r => first_row_stub p = Ok r) three_parts results
    /\ [0; 0; 0]%Z = concat (map Merger.mean results).
Proof.
  destruct (merged_arrays_in_order first_row_stub three_parts
              (Merger.mkResponse [0; 0; 0]%Z None None (Some [0; 2; 3]) None None
                 Partition.PyNone Partition.PyNone) eq_refl)
    as (results & Hreq & Hmean & _).
  exists results. split; [exact Hreq | exact Hmean].
Defined.

Lemma merged_idxs_upto_two_witness :
  exists results locals,
    Forall2 (fun p r => first_row_stub p = Ok r) (take 2 three_parts) results
    /\ Forall2 (fun r l => Merger.idxs r = Some l) results locals
    /\ [0; 2] = Merger.merged_idxs_spec locals (take 2 three_parts).
Proof.
  apply (merged_idxs_upto_two first_row_stub (take 2 three_parts)
           (Merger.mkResponse [0; 0]%Z None None (Some [0; 2]) None None
              Partition.PyNone Partition.PyNone) [0; 2]).
  - reflexivity.
  - simpl. lia.
  - reflexivity.
Defined.

(** ** Merged feature contributions *)

Section TransposeLemmas.
Import Merger.
Context {V : Type}.
Implicit Types (rows arrays : list (list V)) (r a : list V).

Lemma zip_with_nil_r {X Y Z'} (f : X -> Y -> Z') (l : list X) :
  zip_with f l [] = [].
Proof. destruct l; reflexivity. Qed.

Lemma transpose_length_le k rows : length (transpose k rows) <= k.
Proof.
  induction rows as [|r rows IH]; simpl.
  - rewrite length_replicate. lia.
  - rewrite length_zip_with. lia.
Qed.

Lemma transpose_length k rows :
  Forall (fun r => length r = k) rows -> length (transpose k rows) = k.
Proof.
  induction 1 as [|r rows Hr _ IH]; simpl.
  - apply length_replicate.
  - rewrite length_zip_with, IH, Hr. lia.
Qed.

Lemma transpose_0 rows : transpose 0 rows = [].
Proof.
  induction rows as [|r rows IH]; simpl; [reflexivity|].
  rewrite IH. apply zip_with_nil_r.
Qed.

Lemma zip_with_app_replicate k (t : list (list V)) :
  length t <= k -> zip_with app (replicate k []) t = t.
Proof.
  revert k. induction t as [|x t IH]; intros k Hk.
  - apply zip_with_nil_r.
  - destruct k as [|k]; [simpl in Hk; lia|]. simpl in *.
    rewrite IH by lia. reflexivity.
Qed.

Lemma zip_with_cons_app r (t1 t2 : list (list V)) :
  zip_with cons r (zip_with app t1 t2) = zip_with app (zip_with cons r t1) t2.
Proof.
  revert t1 t2. induction r as [|x r IH]; intros t1 t2; [reflexivity|].
  destruct t1 as [|a t1]; [reflexivity|].
  destruct t2 as [|b t2]; [reflexivity|].
  simpl. rewrite IH. reflexivity.
Qed.

(** Stacking rows under rows concatenates every column. *)
Lemma transpose_app k rows1 rows2 :
  transpose k (rows1 ++ rows2)
  = zip_with app (transpose k rows1) (transpose k rows2).
Proof.
  induction rows1 as [|r rows1 IH]; simpl.
  - symmetry. apply zip_with_app_replicate, transpose_length_le.
  - rewrite IH. apply zip_with_cons_app.
Qed.

Lemma transpose_zip_with_cons k a (m : list (list V)) :
  length a = length m ->
  transpose (S k) (zip_with cons a m) = a :: transpose k m.
Proof.
  revert m. induction a as [|x a IH]; intros [|r m] Hlen;
    try discriminate; [reflexivity|].
  simpl in Hlen. cbn [zip_with transpose].
  rewrite (IH m) by lia. reflexivity.
Qed.

(** Transposing twice gives back the arrays. *)
Lemma transpose_transpose k n arrays :
  length arrays = k -> Forall (fun a => length a = n) arrays ->
  transpose k (transpose n arrays) = arrays.
Proof.
  intros Hk Hn. revert k Hk.
  induction Hn as [|a arrays Ha Hn IH]; intros k Hk; simpl in Hk; subst k.
  - apply transpose_0.
  - cbn [transpose]. rewrite transpose_zip_with_cons.
    + rewrite (IH _ eq_refl). reflexivity.
    + rewrite (transpose_length _ _ Hn). exact Ha.
Qed.

Lemma np_stack_axis1_ok arrays (st : matrix V) :
  np_stack_axis1 arrays = Ok st ->
  exists n, Forall (fun a => length a = n) arrays
            /\ st = (length arrays, transpose n arrays).
Proof.
  unfold np_stack_axis1. destruct arrays as [|a arrays]; [discriminate|].
  destruct (same_lengths (length a) (a :: arrays)) eqn:Hsame; [|discriminate].
  intros [= <-]. exists (length a). split; [|reflexivity].
  unfold same_lengths in Hsame. rewrite forallb_forall in Hsame.
  apply Forall_forall. intros r Hr. apply Nat.eqb_eq, Hsame.
  apply list_elem_of_In. exact Hr.
Qed.

Lemma np_vstack_ok (ms : list (matrix V)) (out : matrix V) :
  np_vstack ms = Ok out ->
  Forall (fun m : matrix V => fst m = fst out) ms
  /\ snd out = concat (map snd ms).
Proof.
  unfold np_vstack. destruct ms as [|[k rows] ms]; [discriminate|].
  destruct (forallb _ _) eqn:Hall; [|discriminate].
  intros [= <-]. split; [|reflexivity].
  rewrite forallb_forall in Hall.
  apply Forall_forall. intros m Hm. apply Nat.eqb_eq, Hall.
  apply list_elem_of_In. exact Hm.
Qed.

Lemma transpose_stacked k (fcs : list (list (list V))) (stacked : list (matrix V)) :
  Forall2 (fun c st => np_stack_axis1 c = Ok st) fcs stacked ->
  Forall (fun st : matrix V => fst st = k) stacked ->
  Forall (fun c => length c = k) fcs
  /\ transpose k (concat (map snd stacked))
     = foldr (zip_with app) (replicate k []) fcs.
Proof.
  induction 1 as [|c st fcs stacked Hc _ IH]; intros Hk.
  - split; [constructor | reflexivity].
  - apply Forall_cons in Hk as [Hst Hk'].
    destruct (IH Hk') as [Hlen Heq].
    apply np_stack_axis1_ok in Hc as (n & Hn & ->). cbn [fst snd] in *.
    split; [constructor; [exact Hst | exact Hlen]|].
    cbn [map concat foldr snd]. rewrite transpose_app, Heq.
    rewrite (transpose_transpose _ n c Hst Hn). reflexivity.
Qed.

Lemma lookup_feature_concat k (fcs : list (list (list V))) f :
  Forall (fun c => length c = k) fcs -> f < k ->
  foldr (zip_with app) (replicate k []) fcs !! f
  = Some (MergeSpec.feature_concat f fcs).
Proof.
  intros Hlen Hf. unfold MergeSpec.feature_concat.
  induction Hlen as [|c fcs Hc _ IH]; cbn [foldr map concat].
  - apply lookup_replicate_2. exact Hf.
  - rewrite lookup_zip_with, IH.
    destruct (lookup_lt_is_Some_2 c f ltac:(lia)) as [a Ha].
    rewrite Ha. reflexivity.
Qed.

Lemma length_feature_rows k (fcs : list (list (list V))) :
  Forall (fun c => length c = k) fcs ->
  length (foldr (zip_with app) (replicate k []) fcs) = k.
Proof.
  induction 1 as [|c fcs Hc _ IH]; cbn [foldr].
  - apply length_replicate.
  - rewrite length_zip_with, IH, Hc. lia.
Qed.
End TransposeLemmas.

Section ContributionsTheorem.
Import Merger.
Context {A R V W : Type}.
Implicit Types (payloads : list (Partition.Payload A R))
         (request : Partition.Payload A R -> result (Response V W))
         (m : Response V (list (option W))).

(** X11.  When the call returns feature contributions, every response carried
    them with the same number of rows (one per feature, plus the base
    value), and row [f] of the merged contributions is the concatenation,
    in partition order, of row [f] of every response. *)
Theorem merged_feature_contributions request payloads m fc :
  _make_partitioned_requests request payloads = Ok m ->
  feature_contributions m = Partition.Val fc ->
  exists results fcs,
    Forall2 (fun p r => request p = Ok r) payloads results
    /\ Forall2 (fun r c => feature_contributions r = Partition.Val c) results fcs
    /\ Forall (fun c => length c = length fc) fcs
    /\ forall f, f < length fc -> fc !! f = Some (MergeSpec.feature_concat f fcs).
Proof.
  intros H Hfc.
  apply partitioned_requests_ok in H as (first_res & rest & Hreq & H).
  exists (first_res :: rest).
  unfold merge_results in H.
  apply rbind_ok in H as (mean_ & _ & H).
  apply rbind_ok in H as (sizes_ & _ & H).
  apply rbind_ok in H as (anomaly_ & _ & H).
  apply rbind_ok in H as (idxs_ & _ & H).
  apply rbind_ok in H as (score_ & _ & H).
  apply rbind_ok in H as (intervals_ & _ & H).
  apply rbind_ok in H as (weights_ & _ & H).
  apply rbind_ok in H as (contributions_ & Hc & H).
  injection H as <-. cbn [feature_contributions] in Hfc. subst contributions_.
  destruct (feature_contributions first_res) as [| |c0] eqn:Hfirst;
    try discriminate.
  apply rbind_ok in Hc as (stacked & Hst & Hc).
  apply rbind_ok in Hc as (mtx & Hv & Hc). injection Hc as <-.
  apply for_each_ok in Hst.
  assert (Hfcs : exists fcs,
             Forall2 (fun r c => feature_contributions r = Partition.Val c)
                     (first_res :: rest) fcs
             /\ Forall2 (fun c st => np_stack_axis1 c = Ok st) fcs stacked).
  { clear -Hst. induction Hst as [|r st rs sts Hr _ IH].
    - exists []. split; constructor.
    - destruct IH as (fcs & H1 & H2).
      destruct (feature_contributions r) as [| |c] eqn:Hrc; try discriminate.
      exists (c :: fcs). split; constructor; assumption. }
  destruct Hfcs as (fcs & Hvals & Hstack).
  exists fcs. split; [exact Hreq|]. split; [exact Hvals|].
  apply np_vstack_ok in Hv as [Hk Hrows]. rewrite Hrows.
  destruct (transpose_stacked (fst mtx) fcs stacked Hstack Hk) as [Hlen Heq].
  rewrite Heq, (length_feature_rows _ _ Hlen).
  split; [exact Hlen|].
  intros f Hf. apply lookup_feature_concat; assumption.
Qed.
End ContributionsTheorem.

Lemma merged_feature_contributions_witness :
  exists results fcs,
    Forall2 (fun p r => contributions_stub p = Ok r) three_parts results
    /\ Forall2 (fun r c => Merger.feature_contributions r = Partition.Val c)
               results fcs
    /\ Forall (fun c => length c = 2) fcs
    /\ forall f, f < 2 ->
         [[10; 11; 10; 11; 12; 10; 11; 12; 13];
          [20; 21; 20; 21; 22; 20; 21; 22; 23]]%Z !! f
         = Some (MergeSpec.feature_concat f fcs).
Proof.
  destruct (merged_feature_contributions contributions_stub three_parts
              (Merger.mkResponse [0; 0; 0]%Z None None None None None
                 Partition.PyNone
                 (Partition.Val [[10; 11; 10; 11; 12; 10; 11; 12; 13];
                                 [20; 21; 20; 21; 22; 20; 21; 22; 23]]%Z))
              [[10; 11; 10; 11; 12; 10; 11; 12; 13];
               [20; 21; 20; 21; 22; 20; 21; 22; 23]]%Z eq_refl eq_refl)
    as (results & fcs & Hreq & Hvals & Hlen & Hrows).
  exists results, fcs.
  split; [exact Hreq|]. split; [exact Hvals|]. split; [exact Hlen | exact Hrows].
Defined.

(** ** Retry policy: timing, log and number of attempts *)

Section RetryRuns.
Import Retry.
Context {T : Type}.
Variables (policy : Policy) (fn : nat -> Z -> result T * Z) (start_time : Z).

(** A decorated call with [max_retries >= 1] ends, with the shape of a
    run that starts with attempt 1 at [start_time]. *)
Lemma retry_call_shape :
  (1 <= max_retries policy)%Z ->
  exists res trace log,
    retry_call policy fn start_time = Finished res trace log
    /\ run_shape policy fn start_time 1 start_time res trace log.
Proof.
  intros Hmax. apply retry_loop_shape; lia.
Qed.

(** When no call takes longer than [D], attempt [i + 1] of a run ends at
    most [(i + 1) * D + i * retry_interval] after the start. *)
Lemma run_ended_bound k now res trace log (D : Z) :
  run_shape policy fn start_time k now res trace log ->
  (forall j t, 0 <= snd (fn j t) <= D)%Z ->
  (0 <= retry_interval policy)%Z ->
  forall i a, trace !! i = Some a ->
    (ended a - now
     <= (Z.of_nat i + 1) * D + Z.of_nat i * retry_interval policy)%Z.
Proof.
  intros ((a0 & Hhd & Hst) & Hnum & Hgap & _) Hdur Hint.
  induction i as [|i IH]; intros a Ha.
  - assert (a = a0) as ->.
    { destruct trace; simpl in *; congruence. }
    destruct (Hnum 0 a0 Ha) as (_ & _ & He).
    pose proof (Hdur (k + 0) (started a0)). simpl. lia.
  - destruct (lookup_lt_is_Some_2 trace i) as [b Hb].
    { apply lookup_lt_Some in Ha. lia. }
    specialize (IH b Hb).
    pose proof (Hgap i b a Hb Ha) as Hs.
    destruct (Hnum (S i) a Ha) as (_ & _ & He).
    pose proof (Hdur (k + S i) (started a)).
    rewrite Nat2Z.inj_succ. lia.
Qed.

Lemma logged_all_failed (trace : list (Attempt T)) :
  Forall (fun a => exists e, outcome a = Raise e /\ should_retry e = true) trace ->
  length (logged trace) = length trace.
Proof.
  induction 1 as [|a trace (e & He & Hr) _ IH]; [reflexivity|].
  unfold logged in *. cbn [flat_map]. rewrite He, Hr. simpl. rewrite IH.
  reflexivity.
Qed.

Lemma logged_app (t1 t2 : list (Attempt T)) :
  logged (t1 ++ t2) = logged t1 ++ logged t2.
Proof. unfold logged. apply flat_map_app. Qed.

(** Every attempt but the last is logged; the last one is logged when
    it failed with a retriable exception. *)
Lemma run_log_length k now res trace log :
  run_shape policy fn start_time k now res trace log ->
  length log
  = length trace - 1
    + match res with
      | Raise e => if should_retry e then 1 else 0
      | Ok _ => 0
      end.
Proof.
  intros (Hhd & Hnum & Hgap & (al & Hlast & Hres) & Hgo & Hlog).
  rewrite Hlog.
  destruct (exists_last (l := trace)) as (init & a & Htr).
  { destruct Hhd as (a0 & Hhd & _). destruct trace; discriminate. }
  subst trace. rewrite last_snoc in Hlast. injection Hlast as ->.
  rewrite logged_app, !length_app. simpl. rewrite Nat.add_sub.
  assert (Hinit : Forall (fun a => exists e, outcome a = Raise e
                                             /\ should_retry e = true) init).
  { apply Forall_forall. intros a Ha.
    apply list_elem_of_lookup in Ha as (i & Hi).
    pose proof (lookup_lt_Some _ _ _ Hi) as Hlt.
    assert (Hi' : (init ++ [al]) !! i = Some a)
      by (rewrite lookup_app_l; assumption).
    apply (Hgo i a Hi'); rewrite length_app; simpl; lia. }
  rewrite (logged_all_failed _ Hinit). f_equal.
  unfold logged. simpl. rewrite Hres.
  destruct res as [v|e]; [reflexivity|].
  destruct (should_retry e); reflexivity.
Qed.
End RetryRuns.

(** X12.  With [max_retries >= 1]: the first attempt starts when the call
    does; every attempt ends after the time its call takes; each further
    attempt starts exactly [retry_interval] after the previous one failed;
    and [after_retry] logs, in order, one line per attempt that failed
    with a retriable exception (the last one included), carrying the
    number of the attempt and its exception, and no line for any other
    attempt. *)
Theorem retry_timing_and_log {T} (policy : Retry.Policy)
        (fn : nat -> Z -> result T * Z) (start_time : Z) :
  (1 <= Retry.max_retries policy)%Z ->
  exists res trace log,
    Retry.retry_call policy fn start_time = Retry.Finished res trace log
    /\ (exists a0, head trace = Some a0 /\ Retry.started a0 = start_time)
    /\ (forall i a, trace !! i = Some a ->
          Retry.ended a
          = (Retry.started a + snd (fn (S i) (Retry.started a)))%Z)
    /\ (forall i a b, trace !! i = Some a -> trace !! S i = Some b ->
          Retry.started b = (Retry.ended a + Retry.retry_interval policy)%Z)
    /\ log = flat_map (fun a => match Retry.outcome a with
                                | Raise e => if Retry.should_retry e
                                             then [(Retry.attempt_number a, e)]
                                             else []
                                | Ok _ => []
                                end) trace
    /\ length log
       = length trace - 1
         + match res with
           | Raise e => if Retry.should_retry e then 1 else 0
           | Ok _ => 0
           end.
Proof.
  intros Hmax.
  destruct (retry_call_shape policy fn start_time Hmax)
    as (res & trace & log & Hrun & Hshape).
  exists res, trace, log. split; [exact Hrun|].
  pose proof (run_log_length _ _ _ _ _ _ _ _ Hshape) as Hlen.
  destruct Hshape as (Hhd & Hnum & Hgap & _ & _ & Hlog).
  split; [exact Hhd|]. split; [|split; [exact Hgap|split; [exact Hlog|exact Hlen]]].
  intros i a Ha. destruct (Hnum i a Ha) as (_ & _ & He). exact He.
Qed.

(** X13.  A call that keeps failing with retriable exceptions, each attempt
    taking at most [D], within a time budget that leaves room for
    [max_retries - 1] attempts and waits: exactly [max_retries] attempts
    are made, every one of them is logged, and the exception of the last
    attempt is raised. *)
Theorem retry_exhausted {T} (policy : Retry.Policy)
        (fn : nat -> Z -> result T * Z) (start_time D : Z) :
  (1 <= Retry.max_retries policy)%Z ->
  (0 <= Retry.retry_interval policy)%Z ->
  (forall k t, exists e, fst (fn k t) = Raise e /\ Retry.should_retry e = true) ->
  (forall k t, 0 <= snd (fn k t) <= D)%Z ->
  ((Retry.max_retries policy - 1) * (D + Retry.retry_interval policy)
   < Retry.max_wait_time policy)%Z ->
  exists e trace log,
    Retry.retry_call policy fn start_time = Retry.Finished (Raise e) trace log
    /\ Z.of_nat (length trace) = Retry.max_retries policy
    /\ length log = length trace
    /\ Retry.should_retry e = true
    /\ exists a, last trace = Some a /\ Retry.outcome a = Raise e
                 /\ Z.of_nat (Retry.attempt_number a) = Retry.max_retries policy.
Proof.
  intros Hmax Hint Hfail Hdur Hbudget.
  destruct (retry_call_shape policy fn start_time Hmax)
    as (res & trace & log & Hrun & Hshape).
  pose proof (run_ended_bound policy fn start_time 1 start_time res trace log D
                Hshape Hdur Hint) as Hend.
  destruct Hshape as ((a0 & Hhd & _) & Hnum & _ & (al & Hlast & Hres) & Hgo & Hlog).
  assert (Hne : 1 <= length trace) by (destruct trace; [discriminate | simpl; lia]).
  assert (Hall : forall i a, trace !! i = Some a ->
             exists e, Retry.outcome a = Raise e /\ Retry.should_retry e = true).
  { intros i a Ha. destruct (Hnum i a Ha) as (_ & Ho & _). rewrite Ho.
    apply Hfail. }
  assert (Hal : trace !! (length trace - 1) = Some al).
  { rewrite last_lookup in Hlast.
    replace (length trace - 1) with (pred (length trace)) by lia. exact Hlast. }
  assert (Hlen : Z.of_nat (length trace) = Retry.max_retries policy).
  { destruct (Z.lt_trichotomy (Z.of_nat (length trace)) (Retry.max_retries policy))
      as [Hlt|[Heq|Hgt]]; [exfalso | exact Heq | exfalso].
    - assert (Hgoes : Retry.goes_on policy start_time al).
      { split; [exact (Hall _ _ Hal)|].
        destruct (Hnum _ _ Hal) as (Hn & _ & _).
        specialize (Hend _ _ Hal). split; [lia|].
        assert (Z.of_nat (length trace - 1) + 1 <= Retry.max_retries policy - 1)%Z
          by lia.
        assert (0 <= D)%Z by (pose proof (Hdur 0 0%Z); lia).
        nia. }
      apply (Hgo _ _ Hal) in Hgoes. lia.
    - destruct (lookup_lt_is_Some_2 trace (length trace - 2) ltac:(lia)) as [a Ha].
      pose proof (proj1 (Hgo _ _ Ha) ltac:(lia)) as (_ & Hk & _).
      destruct (Hnum _ _ Ha) as (Hn & _). lia. }
  destruct (Hall _ _ Hal) as (e & He & Hr).
  exists e, trace, log.
  assert (Hre : res = Raise e) by congruence. rewrite Hre in Hrun, Hres.
  split; [exact Hrun|]. split; [exact Hlen|]. split; [|split; [exact Hr|]].
  - rewrite Hlog. apply logged_all_failed. apply Forall_forall. intros a Ha.
    apply list_elem_of_lookup in Ha as (i & Hi). exact (Hall i a Hi).
  - exists al. split; [exact Hlast|]. split; [exact Hres|].
    destruct (Hnum _ _ Hal) as (Hn & _). lia.
Qed.

Lemma retry_exhausted_witness :
  exists e trace log,
    Retry.retry_call (Retry.mkPolicy 3 10 360) always_503 0
    = Retry.Finished (Raise e) trace log
    /\ Z.of_nat (length trace) = 3%Z
    /\ length log = length trace.
Proof.
  destruct (retry_exhausted (Retry.mkPolicy 3 10 360) always_503 0%Z 2%Z)
    as (e & trace & log & Hrun & Hlen & Hlog & _).
  - simpl. lia.
  - simpl. lia.
  - intros k t. eexists. split; reflexivity.
  - intros k t. simpl. lia.
  - simpl. lia.
  - exists e, trace, log. split; [exact Hrun|]. split; [exact Hlen | exact Hlog].
Defined.

Lemma retry_timing_and_log_witness :
  exists res trace log,
    Retry.retry_call (Retry.mkPolicy 6 10 360) read_error_once 0
    = Retry.Finished res trace log
    /\ length log = length trace - 1
                    + match res with
                      | Raise e => if Retry.should_retry e then 1 else 0
                      | Ok _ => 0
                      end.
Proof.
  destruct (retry_timing_and_log (Retry.mkPolicy 6 10 360) read_error_once 0%Z)
    as (res & trace & log & Hrun & _ & _ & _ & _ & Hlen).
  - simpl. lia.
  - exists res, trace, log. split; [exact Hrun | exact Hlen].
Defined.

(** X14.  A call that fails [j] times with retriable exceptions and then
    returns, with [j < max_retries] and a time budget that leaves room for
    [j] attempts and waits: the value of attempt [j + 1] is returned after
    exactly [j + 1] attempts, and the [j] failures are logged. *)
Theorem retry_recovers {T} (policy : Retry.Policy)
        (fn : nat -> Z -> result T * Z) (start_time D : Z) (j : nat) (v : T) :
  (Z.of_nat j < Retry.max_retries policy)%Z ->
  (0 <= Retry.retry_interval policy)%Z ->
  (forall k t, 1 <= k <= j ->
     exists e, fst (fn k t) = Raise e /\ Retry.should_retry e = true) ->
  (forall t, fst (fn (S j) t) = Ok v) ->
  (forall k t, 0 <= snd (fn k t) <= D)%Z ->
  (Z.of_nat j * (D + Retry.retry_interval policy) < Retry.max_wait_time policy)%Z ->
  exists trace log,
    Retry.retry_call policy fn start_time = Retry.Finished (Ok v) trace log
    /\ length trace = S j
    /\ length log = j.
Proof.
  intros Hj Hint Hfail Hok Hdur Hbudget.
  destruct (retry_call_shape policy fn start_time ltac:(lia))
    as (res & trace & log & Hrun & Hshape).
  pose proof (run_ended_bound policy fn start_time 1 start_time res trace log D
                Hshape Hdur Hint) as Hend.
  pose proof (run_log_length _ _ _ _ _ _ _ _ Hshape) as Hloglen.
  destruct Hshape as ((a0 & Hhd & _) & Hnum & _ & (al & Hlast & Hres) & Hgo & _).
  assert (Hne : 1 <= length trace) by (destruct trace; [discriminate | simpl; lia]).
  assert (HD : (0 <= D)%Z) by (pose proof (Hdur 0 0%Z); lia).
  assert (Hreach : forall i, i <= j -> i < length trace).
  { induction i as [|i IH]; intros Hi; [lia|].
    destruct (lookup_lt_is_Some_2 trace i (IH ltac:(lia))) as [a Ha].
    apply (Hgo i a Ha). destruct (Hnum i a Ha) as (Hn & Ho & _).
    split; [rewrite Ho; apply Hfail; lia|].
    specialize (Hend i a Ha). split; [lia|].
    assert (Z.of_nat i + 1 <= Z.of_nat j)%Z by lia. nia. }
  destruct (lookup_lt_is_Some_2 trace j (Hreach j ltac:(lia))) as [a Ha].
  destruct (Hnum j a Ha) as (_ & Ho & _). cbn [Nat.add] in Ho. rewrite Hok in Ho.
  assert (Hlen : length trace = S j).
  { destruct (le_lt_dec (length trace) (S j)) as [Hle|Hgt].
    - pose proof (Hreach j ltac:(lia)). lia.
    - apply (Hgo j a Ha) in Hgt as ((e & He & _) & _). congruence. }
  rewrite (last_of_lookup _ _ _ Ha (eq_sym Hlen)) in Hlast. injection Hlast as <-.
  assert (Hre : res = Ok v) by congruence. rewrite Hre in Hrun, Hloglen.
  exists trace, log. split; [exact Hrun|]. split; [exact Hlen|]. lia.
Qed.

Lemma retry_recovers_witness :
  exists trace log,
    Retry.retry_call (Retry.mkPolicy 6 10 360) read_error_once 0
    = Retry.Finished (Ok 7%Z) trace log
    /\ length trace = 2
    /\ length log = 1.
Proof.
  apply (retry_recovers (Retry.mkPolicy 6 10 360) read_error_once 0%Z 1%Z 1 7%Z).
  - simpl. lia.
  - simpl. lia.
  - intros k t Hk. assert (k = 1) as -> by lia. eexists. split; reflexivity.
  - intros t. reflexivity.
  - intros k t. simpl. lia.
  - simpl. lia.
Defined.

(** ** Transport: what a request returns *)

Lemma make_request_non_200 {Bytes} (wire : Transport.Wire Bytes)
      (post : Transport.HttpRequest Bytes -> result (Transport.HttpResponse Bytes))
      endpoint payload mt req resp :
  fst (Transport._make_request wire post endpoint payload mt) = [req] ->
  post req = Ok resp -> Transport.status_code resp <> 200%Z ->
  exists body,
    snd (Transport._make_request wire post endpoint payload mt)
    = Raise (ApiError (Some (Transport.status_code resp)) body).
Proof.
  intros Hsent Hpost Hcode.
  destruct (make_request_sent wire post endpoint payload mt req Hsent) as [_ Hsnd].
  rewrite Hsnd, Hpost. cbn [rbind].
  destruct (Transport.loads wire (Transport.resp_content resp)) as [body|].
  - destruct (Z.eqb_spec (Transport.status_code resp) 200) as [Heq|_];
      [contradiction|]. simpl. eexists. reflexivity.
  - eexists. reflexivity.
Qed.

(** X15.  Once the request is sent: an exception of the client is passed on
    unchanged; a response with a status other than 200 always raises an
    [ApiError] carrying that status, whether its body parses or not; and a
    value is returned exactly for a response with status 200 whose body
    parses and on which the test ["data" in resp_body] and the indexing
    that follows succeed.  For such a response whose body is a dictionary
    the value is its ["data"] entry when it has one and the dictionary
    itself otherwise; a body that parses to a number, a boolean or null
    makes the test raise [TypeError], although the status is 200. *)
Theorem make_request_outcomes {Bytes} (wire : Transport.Wire Bytes)
        (post : Transport.HttpRequest Bytes -> result (Transport.HttpResponse Bytes))
        endpoint payload mt req :
  fst (Transport._make_request wire post endpoint payload mt) = [req] ->
  (forall e, post req = Raise e ->
     snd (Transport._make_request wire post endpoint payload mt) = Raise e)
  /\ (forall resp, post req = Ok resp -> Transport.status_code resp <> 200%Z ->
        exists body,
          snd (Transport._make_request wire post endpoint payload mt)
          = Raise (ApiError (Some (Transport.status_code resp)) body))
  /\ (forall v,
        snd (Transport._make_request wire post endpoint payload mt) = Ok v
        <-> exists resp resp_body,
              post req = Ok resp
              /\ Transport.status_code resp = 200%Z
              /\ Transport.loads wire (Transport.resp_content resp) = Some resp_body
              /\ Transport.unwrap_data resp_body = Ok v)
  /\ (forall resp resp_body,
        post req = Ok resp ->
        Transport.status_code resp = 200%Z ->
        Transport.loads wire (Transport.resp_content resp) = Some resp_body ->
        (forall kvs v,
           resp_body = JObj kvs -> Transport.assoc_json "data" kvs = Some v ->
           snd (Transport._make_request wire post endpoint payload mt) = Ok v)
        /\ (forall kvs,
              resp_body = JObj kvs -> Transport.assoc_json "data" kvs = None ->
              snd (Transport._make_request wire post endpoint payload mt)
              = Ok resp_body)
        /\ ((resp_body = JNull \/ (exists b, resp_body = JBool b)
             \/ (exists q, resp_body = JNum q)) ->
            exists msg,
              snd (Transport._make_request wire post endpoint payload mt)
              = Raise (TypeError msg))).
Proof.
  intros Hsent.
  destruct (make_request_sent wire post endpoint payload mt req Hsent) as [_ Hsnd].
  split; [|split; [|split]].
  - intros e He. rewrite Hsnd, He. reflexivity.
  - intros resp Hpost Hcode.
    exact (make_request_non_200 wire post endpoint payload mt req resp
             Hsent Hpost Hcode).
  - rewrite Hsnd. clear Hsnd. intros v. split.
    + intros H. apply rbind_ok in H as (resp & Hpost & H).
      destruct (Transport.loads wire (Transport.resp_content resp)) as [body|] eqn:Hl;
        [|discriminate].
      destruct (Z.eqb_spec (Transport.status_code resp) 200) as [Heq|Hne];
        simpl in H; [|discriminate].
      exists resp, body. repeat split; assumption.
    + intros (resp & body & -> & Hcode & Hl & Hv). cbn [rbind].
      rewrite Hl, Hcode. simpl. exact Hv.
  - intros resp resp_body Hpost Hcode Hl.
    rewrite Hsnd, Hpost. cbn [rbind]. rewrite Hl, Hcode. simpl.
    split; [|split].
    + intros kvs v -> Hdata. simpl. rewrite Hdata. reflexivity.
    + intros kvs -> Hdata. simpl. rewrite Hdata. reflexivity.
    + intros [-> | [[b ->] | [q ->]]]; simpl; eexists; reflexivity.
Qed.

Lemma make_request_outcomes_witness :
  exists body,
    snd (Transport._make_request text_wire (gateway_down 1) "v2/forecast" [] true)
    = Raise (ApiError (Some 503%Z) body).
Proof.
  destruct (make_request_outcomes text_wire (gateway_down 1) "v2/forecast" [] true
              (Transport.mkRequest "v2/forecast" "{}"%string []) eq_refl)
    as (_ & Hstatus & _).
  apply (Hstatus (Transport.mkHttpResponse 503%Z
                    "<html>Service Unavailable</html>"%string)).
  - reflexivity.
  - discriminate.
Defined.

(** X16.  A response whose status is neither 200 nor one of the retriable
    codes ends the call under the retry policy at once: one attempt, no
    line logged, and the [ApiError] with that status raised, whatever the
    body. *)
Theorem client_error_not_retried {Bytes} (policy : Retry.Policy)
        (wire : Transport.Wire Bytes)
        (posts : nat -> Transport.HttpRequest Bytes
                 -> result (Transport.HttpResponse Bytes))
        (duration : nat -> Z) (start_time : Z) endpoint payload mt req resp :
  fst (Transport._make_request wire (posts 1) endpoint payload mt) = [req] ->
  posts 1 req = Ok resp ->
  Transport.status_code resp <> 200%Z ->
  ~ In (Transport.status_code resp) Retry.retriable_codes ->
  exists body,
    Transport._make_request_with_retries policy wire posts duration start_time
                                          endpoint payload mt
    = Retry.Finished (Raise (ApiError (Some (Transport.status_code resp)) body))
        [Retry.mkAttempt 1 start_time (start_time + duration 1)
           (Raise (ApiError (Some (Transport.status_code resp)) body))]
        [].
Proof.
  intros Hsent Hpost Hcode Hnot.
  destruct (make_request_non_200 wire (posts 1) endpoint payload mt req resp
              Hsent Hpost Hcode) as (body & Hraise).
  exists body.
  assert (Hno : Retry.should_retry
                  (ApiError (Some (Transport.status_code resp)) body) = false).
  { apply not_true_is_false. intros Hr. cbn [Retry.should_retry] in Hr.
    apply retriable_code_iff in Hr. apply Hnot. exact Hr. }
  unfold Transport._make_request_with_retries, Retry.retry_call.
  cbn [Retry.retry_loop fst snd]. rewrite Hraise.
  cbv beta iota. rewrite Hno. reflexivity.
Qed.

Lemma client_error_not_retried_witness :
  exists body,
    Transport._make_request_with_retries (Retry.mkPolicy 6 10 360) text_wire
      (fun _ _ => Ok (Transport.mkHttpResponse 401%Z "denied"%string))
      (fun _ => 1%Z) 0 "v2/forecast" [] true
    = Retry.Finished (Raise (ApiError (Some 401%Z) body))
        [Retry.mkAttempt 1 0 1 (Raise (ApiError (Some 401%Z) body))] [].
Proof.
  apply (client_error_not_retried (Retry.mkPolicy 6 10 360) text_wire
           (fun _ _ => Ok (Transport.mkHttpResponse 401%Z "denied"%string))
           (fun _ => 1%Z) 0%Z "v2/forecast" [] true
           (Transport.mkRequest "v2/forecast" "{}"%string [])
           (Transport.mkHttpResponse 401%Z "denied"%string)).
  - reflexivity.
  - reflexivity.
  - discriminate.
  - simpl. intros H. repeat (destruct H as [H|H]; [discriminate|]). exact H.
Defined.

(** ** Frequency check with a pandas offset *)

Section OffsetValidation.
Import Validation.

Lemma run_validations_offset (c : Call) (n : Z) :
  earlier_checks_pass c -> freq c = FreqOffset n ->
  _run_validations c
  = if forallb (fun u =>
                  let ts := times_of u (df c) in
                  (list_min ts + n * (Z.of_nat (length ts) - 1) =? list_max ts)%Z)
               (ids (df c))
    then Ok (df c, freq c) else Raise frequency_error.
Proof.
  intros (Hkey & Hmodel & Hy) Hfreq. unfold _run_validations.
  rewrite Hkey, Hmodel. cbn [negb].
  replace (existsb _ (df c)) with false.
  - rewrite Hfreq. reflexivity.
  - symmetry. apply not_true_iff_false. intros Hex.
    apply existsb_exists in Hex as (r & Hr & Hnone).
    rewrite Forall_forall in Hy. specialize (Hy r).
    destruct (y r); [discriminate|]. apply Hy; [|reflexivity].
    apply list_elem_of_In. exact Hr.
Qed.

Lemma complete_extremes delta ts :
  complete delta ts -> (0 < delta)%Z ->
  (list_min ts + delta * (Z.of_nat (length ts) - 1) = list_max ts)%Z.
Proof.
  intros (t0 & m & Hperm) Hd.
  assert (Hmem : forall y, In y ts <->
                           exists i, i <= m /\ y = (t0 + Z.of_nat i * delta)%Z).
  { intros y. split.
    - intros Hy. apply (Permutation_in _ Hperm) in Hy.
      unfold regular_times in Hy. apply in_map_iff in Hy as (i & <- & Hi).
      apply in_seq in Hi. exists i. split; [lia | reflexivity].
    - intros (i & Hi & ->). apply (Permutation_in _ (Permutation_sym Hperm)).
      unfold regular_times. apply in_map_iff. exists i.
      split; [reflexivity | apply in_seq; lia]. }
  rewrite (list_min_char ts t0), (list_max_char ts (t0 + Z.of_nat m * delta)%Z).
  - rewrite (Permutation_length Hperm). unfold regular_times.
    rewrite length_map, length_seq. lia.
  - apply Hmem. exists m. split; [lia | reflexivity].
  - intros y Hy. apply Hmem in Hy as (i & Hi & ->). nia.
  - apply Hmem. exists 0. split; [lia | simpl; lia].
  - intros y Hy. apply Hmem in Hy as (i & Hi & ->). nia.
Qed.

Lemma gap_extremes delta ts :
  one_step_gap delta ts -> (0 < delta)%Z ->
  (list_min ts + delta * (Z.of_nat (length ts) - 1) <> list_max ts)%Z.
Proof.
  intros (t0 & m & k & Hk & Hperm) Hd.
  assert (Hmem : forall y, In y ts <->
                           exists i, i <= m /\ i <> k
                                     /\ y = (t0 + Z.of_nat i * delta)%Z).
  { intros y. split.
    - intros Hy. apply (Permutation_in _ Hperm) in Hy.
      unfold gap_times in Hy. apply in_map_iff in Hy as (i & <- & Hi).
      apply in_app_or in Hi. exists i.
      destruct Hi as [Hi|Hi]; apply in_seq in Hi; repeat split; lia.
    - intros (i & Hi & Hne & ->). apply (Permutation_in _ (Permutation_sym Hperm)).
      unfold gap_times. apply in_map_iff. exists i. split; [reflexivity|].
      apply in_or_app. destruct (Nat.lt_ge_cases i k) as [Hlt|Hge].
      + left. apply in_seq. lia.
      + right. apply in_seq. lia. }
  rewrite (list_min_char ts t0), (list_max_char ts (t0 + Z.of_nat m * delta)%Z).
  - rewrite (Permutation_length Hperm). unfold gap_times.
    rewrite length_map, length_app, !length_seq. nia.
  - apply Hmem. exists m. repeat split; lia.
  - intros y Hy. apply Hmem in Hy as (i & Hi & _ & ->). nia.
  - apply Hmem. exists 0. repeat split; [lia | lia | simpl; lia].
  - intros y Hy. apply Hmem in Hy as (i & Hi & _ & ->). nia.
Qed.

(** A series that passes the offset check fills its dense grid. *)
Lemma offset_check_grid delta ts :
  (0 < delta)%Z -> ts <> [] ->
  (list_min ts + delta * (Z.of_nat (length ts) - 1) = list_max ts)%Z ->
  length (series_grid delta ts) = length ts.
Proof.
  intros Hd Hne Hends. unfold series_grid, arange_step.
  rewrite length_map, length_seq, <- Hends.
  replace (list_min ts + delta * (Z.of_nat (length ts) - 1) + delta
           - list_min ts + delta - 1)%Z
    with (Z.of_nat (length ts) * delta + (delta - 1))%Z by lia.
  rewrite Z.div_add_l, Z.div_small by lia. lia.
Qed.

End OffsetValidation.


(** ** Exogenous features *)

Section ExogLemmas.
Import Exog.
Implicit Types (c : string) (l cols : list string).

Lemma mem_iff c l : mem c l = true <-> In c l.
Proof.
  unfold mem. rewrite existsb_exists. split.
  - intros (x & Hx & Heq). apply String.eqb_eq in Heq. subst. exact Hx.
  - intros H. exists c. split; [exact H | apply String.eqb_refl].
Qed.

Lemma mem_false_iff c l : mem c l = false <-> ~ In c l.
Proof. rewrite <- mem_iff. destruct (mem c l); split; congruence. Qed.

Lemma index_of_In c l :
  In c l -> exists i, index_of c l = Ok i /\ l !! i = Some c.
Proof.
  induction l as [|x l IH]; intros Hin; [destruct Hin|]. simpl.
  destruct (String.eqb_spec x c) as [->|Hne].
  - exists 0. split; reflexivity.
  - destruct Hin as [Heq|Hin]; [contradiction|].
    destruct (IH Hin) as (i & Hi & Hl). exists (S i). rewrite Hi. split; [reflexivity|].
    exact Hl.
Qed.

Lemma index_of_lookup c l i :
  List.NoDup l -> l !! i = Some c -> index_of c l = Ok i.
Proof.
  intros Hnd. revert i. induction Hnd as [|x l Hx Hnd IH]; intros i Hi;
    [discriminate|]. simpl.
  destruct i as [|i]; simpl in Hi.
  - injection Hi as ->. rewrite String.eqb_refl. reflexivity.
  - destruct (String.eqb_spec x c) as [->|Hne].
    + exfalso. apply Hx. apply list_elem_of_In, list_elem_of_lookup. eauto.
    + rewrite (IH i Hi). reflexivity.
Qed.

Lemma for_each_lookup {T U} (f : T -> result U) (g : nat -> U) (l : list T) :
  (forall k t, l !! k = Some t -> f t = Ok (g k)) ->
  Merger.for_each f l = Ok (map g (seq 0 (length l))).
Proof.
  revert g. induction l as [|t l IH]; intros g Hall; [reflexivity|].
  simpl. rewrite (Hall 0 t eq_refl). cbn [rbind].
  rewrite (IH (fun k => g (S k))) by (intros k t' Hk; exact (Hall (S k) t' Hk)).
  cbn [rbind]. rewrite <- seq_shift, map_map. reflexivity.
Qed.

Lemma for_each_total {T U} (f : T -> result U) (P : T -> U -> Prop) (l : list T) :
  (forall t, In t l -> exists u, f t = Ok u /\ P t u) ->
  exists us, Merger.for_each f l = Ok us /\ Forall2 P l us.
Proof.
  induction l as [|t l IH]; intros Hall.
  - exists []. split; [reflexivity | constructor].
  - destruct (Hall t (or_introl eq_refl)) as (u & Hu & HP).
    destruct IH as (us & Hus & HF); [intros t' Ht'; apply Hall; right; exact Ht'|].
    exists (u :: us). simpl. rewrite Hu, Hus. split; [reflexivity|].
    constructor; assumption.
Qed.

Lemma take_idxs_rows {B} (x : list B) (idxs : list nat) :
  Forall (fun i => i < length x) idxs ->
  exists out, take_idxs x idxs = Ok out
              /\ length out = length idxs
              /\ forall j i, idxs !! j = Some i -> out !! j = x !! i.
Proof.
  induction 1 as [|i idxs Hi _ IH].
  - exists []. split; [reflexivity|]. split; [reflexivity|]. intros j i Hj. discriminate.
  - destruct IH as (out & Hrun & Hlen & Hrows).
    destruct (lookup_lt_is_Some_2 x i Hi) as [v Hv].
    exists (v :: out). simpl. rewrite Hv, Hrun. split; [reflexivity|].
    split; [simpl; rewrite Hlen; reflexivity|].
    intros [|j] i' Hj; simpl in *.
    + injection Hj as <-. symmetry. exact Hv.
    + exact (Hrows j i' Hj).
Qed.

Lemma NoDup_filter_bool (f : string -> bool) l :
  List.NoDup l -> List.NoDup (List.filter f l).
Proof.
  induction 1 as [|x l Hx _ IH]; simpl; [constructor|].
  destruct (f x); [|exact IH]. constructor; [|exact IH].
  intros Hin. apply filter_In in Hin as [Hin _]. contradiction.
Qed.

(** The order [future ++ historic] is a rearrangement of the columns
    without repetition. *)
Lemma features_order_perm x_cols hist :
  List.NoDup x_cols -> List.NoDup hist -> (forall c, In c hist -> In c x_cols) ->
  let order := List.filter (fun c => negb (mem c hist)) x_cols ++ hist in
  List.NoDup order /\ Permutation order x_cols.
Proof.
  intros Hx Hh Hsub order.
  assert (Hnd : List.NoDup order).
  { unfold order. apply NoDup_ListNoDup, NoDup_app. split; [|split].
    - apply NoDup_ListNoDup, NoDup_filter_bool, Hx.
    - intros c Hin Hin'. apply list_elem_of_In in Hin, Hin'.
      apply filter_In in Hin as [_ Hc]. apply negb_true_iff, mem_false_iff in Hc.
      contradiction.
    - apply NoDup_ListNoDup, Hh. }
  split; [exact Hnd|].
  apply NoDup_Permutation; [apply NoDup_ListNoDup, Hnd | apply NoDup_ListNoDup, Hx|].
  intros c. rewrite !list_elem_of_In. unfold order. rewrite in_app_iff, filter_In.
  split.
  - intros [[Hc _]|Hc]; [exact Hc | apply Hsub, Hc].
  - intros Hc. destruct (mem c hist) eqn:Hm.
    + right. apply mem_iff. exact Hm.
    + left. split; [exact Hc | reflexivity].
Qed.
End ExogLemmas.

Section ExogTheorems.
Import Exog.
Context {A : Type}.
Implicit Types (data : Merger.matrix A) (x_cols hist : list string).

(** X18.  On a processed array with one column per feature after the target:
    without a list of historic features the feature rows are returned as
    they are; with a list naming a feature that is not a column the call
    raises; otherwise the rows are rearranged as [future ++ historic]
    (future features in their column order, historic ones in the order of
    the list), each row still the one of its feature, and [hist_exog]
    holds the positions of the historic features, the last ones.  An array
    with the target column only gives [(None, None)], whatever is
    declared. *)
Theorem process_exog_features_order data x_cols hist :
  let X := feature_rows data in
  let futr := List.filter (fun c => negb (mem c hist)) x_cols in
  fst data = S (length x_cols) ->
  Forall (fun row => length row = fst data) (snd data) ->
  List.NoDup x_cols -> List.NoDup hist ->
  (x_cols <> [] -> _process_exog_features data x_cols None = Ok (Some X, None))
  /\ (x_cols = [] ->
      _process_exog_features data x_cols (Some hist) = Ok (None, None))
  /\ (x_cols <> [] -> (exists c, In c hist /\ ~ In c x_cols) ->
      _process_exog_features data x_cols (Some hist) = Raise missing_hist_error)
  /\ (x_cols <> [] -> (forall c, In c hist -> In c x_cols) ->
      exists X',
        _process_exog_features data x_cols (Some hist)
        = Ok (Some X', Some (seq (length futr) (length hist)))
        /\ Permutation (futr ++ hist) x_cols
        /\ length X' = length x_cols
        /\ forall i j c, x_cols !! i = Some c -> (futr ++ hist) !! j = Some c ->
             X' !! j = X !! i).
Proof.
  intros X futr Hcols Hrows Hndx Hndh.
  assert (Hwide : x_cols <> [] -> (1 <? fst data) = true).
  { intros Hne. apply Nat.ltb_lt. rewrite Hcols.
    destruct x_cols; [congruence | simpl; lia]. }
  unfold _process_exog_features. fold X.
  split; [|split; [|split]].
  - intros Hne. rewrite (Hwide Hne). reflexivity.
  - intros ->. rewrite Hcols. reflexivity.
  - intros Hne (c & Hc & Hnot). rewrite (Hwide Hne).
    replace (existsb (fun c => negb (mem c x_cols)) hist) with true; [reflexivity|].
    symmetry. apply existsb_exists. exists c. split; [exact Hc|].
    apply negb_true_iff, mem_false_iff. exact Hnot.
  - intros Hne Hsub. rewrite (Hwide Hne).
    replace (existsb (fun c => negb (mem c x_cols)) hist) with false.
    2:{ symmetry. apply not_true_iff_false. intros Hex.
        apply existsb_exists in Hex as (c & Hc & Hm).
        apply negb_true_iff, mem_false_iff in Hm. apply Hm, Hsub, Hc. }
    fold futr.
    destruct (features_order_perm x_cols hist Hndx Hndh Hsub) as [Hnd Hperm].
    fold futr in Hnd, Hperm.
    assert (HlenX : length X = length x_cols).
    { unfold X, feature_rows. rewrite transpose_length.
      - rewrite Hcols. simpl. lia.
      - apply Forall_forall. intros r Hr.
        apply list_elem_of_fmap in Hr as (row & -> & Hrow).
        rewrite Forall_forall in Hrows. rewrite length_drop, (Hrows row Hrow). lia. }
    destruct (for_each_total (fun c => index_of c x_cols)
                (fun c i => x_cols !! i = Some c) (futr ++ hist))
      as (x_idxs & Hidx & Hpos).
    { intros c Hc. apply index_of_In. exact (Permutation_in _ Hperm Hc). }
    rewrite Hidx. cbn [rbind].
    destruct (take_idxs_rows X x_idxs) as (X' & Htake & Hlen & Hget).
    { apply Forall_forall. intros i Hi.
      apply list_elem_of_lookup in Hi as (j & Hj).
      destruct (Forall2_lookup_r _ _ _ _ _ Hpos Hj) as (c & _ & Hc).
      rewrite HlenX. exact (lookup_lt_Some _ _ _ Hc). }
    rewrite Htake. cbn [rbind].
    rewrite (for_each_lookup (fun c => index_of c (futr ++ hist))
               (fun k => length futr + k) hist).
    2:{ intros k c Hk. apply index_of_lookup; [exact Hnd|].
        rewrite lookup_app_r by lia.
        replace (length futr + k - length futr) with k by lia. exact Hk. }
    cbn [rbind]. exists X'. split; [|split; [exact Hperm|split]].
    + do 3 f_equal. clear. generalize (length futr) as a. intros a.
      change (fun k => a + k) with (Nat.add a).
      pose proof (fmap_add_seq a 0 (length hist)) as Hs.
      rewrite Nat.add_0_r in Hs. exact Hs.
    + rewrite Hlen, <- (Forall2_length _ _ _ Hpos).
      apply Permutation_length, Hperm.
    + intros i j c Hi Hj.
      destruct (Forall2_lookup_l _ _ _ _ _ Hpos Hj) as (i' & Hi' & Hc).
      rewrite (Hget j i' Hi'). f_equal.
      apply NoDup_ListNoDup in Hndx.
      exact (NoDup_lookup _ _ _ _ Hndx Hc Hi).
Qed.
End ExogTheorems.

Lemma process_exog_features_order_witness :
  exists X',
    Exog._process_exog_features exog_data ["price"; "promo"; "temp"]%string
                                (Some ["promo"]%string)
    = Ok (Some X', Some [2])
    /\ X' !! 2 = Some [20; 21]%Z.
Proof.
  destruct (process_exog_features_order exog_data ["price"; "promo"; "temp"]%string
              ["promo"]%string)
    as (_ & _ & _ & Hok).
  - reflexivity.
  - repeat constructor.
  - repeat constructor; simpl; intros H;
      repeat (destruct H as [H|H]; [discriminate|]); exact H.
  - repeat constructor. intros [].
  - destruct Hok as (X' & Hrun & _ & _ & Hrows).
    + discriminate.
    + intros c [<-|[]]. right. left. reflexivity.
    + exists X'. split; [exact Hrun|].
      rewrite (Hrows 1 2 "promo"%string eq_refl eq_refl). reflexivity.
Defined.

(** ** Declared exogenous features *)

Section SelectLemmas.
Import Levels.
Context {V : Type}.
Implicit Types (df out : DataFrame V) (cols : list string).

Lemma select_names df cols out : select df cols = Ok out -> map fst out = cols.
Proof.
  revert out. induction cols as [|c cols IH]; intros out H; simpl in H.
  - injection H as <-. reflexivity.
  - destruct (column c df) as [vals|]; [|discriminate].
    apply rbind_ok in H as (rest & Hrest & H). injection H as <-.
    simpl. rewrite (IH rest Hrest). reflexivity.
Qed.

(** [df[cols]] raises for a name that is no column, and only then. *)
Lemma select_missing df cols c :
  In c cols -> column c df = None ->
  exists c', select df cols = Raise (KeyError c')
             /\ In c' cols /\ column c' df = None.
Proof.
  induction cols as [|x cols IH]; intros Hin Hc; [destruct Hin|]. simpl.
  destruct (column x df) as [vals|] eqn:Hx.
  - destruct Hin as [->|Hin]; [congruence|].
    destruct (IH Hin Hc) as (c' & Hrun & Hin' & Hc').
    exists c'. rewrite Hrun. auto.
  - exists x. auto.
Qed.

Lemma select_raises_key df cols e :
  select df cols = Raise e -> exists c, e = KeyError c.
Proof.
  induction cols as [|x cols IH]; simpl; [discriminate|].
  destruct (column x df); [|intros [= <-]; eauto].
  destruct (select df cols); simpl; [discriminate|].
  intros [= <-]. apply IH. reflexivity.
Qed.

Lemma column_in_names df c : is_Some (column c df) <-> In c (map fst df).
Proof.
  split; [|apply column_of_name].
  induction df as [|[c' vals] df IH]; simpl; intros [v Hv]; [discriminate|].
  destruct (String.eqb_spec c c') as [->|Hne]; [left; reflexivity|].
  right. apply IH. eauto.
Qed.
End SelectLemmas.

Section ValidateExogTheorems.
Import Levels ValidateExog.
Context {V : Type}.
Implicit Types (df X_df : DataFrame V) (hist : list string).

(** X19.  Without [X_df], on a table that has its three base columns,
    [_validate_exog] always returns: the table keeps the base columns and
    then, in their order in the table, exactly the exogenous columns
    declared as historic, with their values; every other exogenous column
    is dropped, and a warning is emitted exactly when one is; a declared
    name that is no column is ignored. *)
Theorem validate_exog_without_future df id_col time_col target_col hist_exog :
  let hist := match hist_exog with Some l => l | None => [] end in
  let base_cols := [id_col; time_col; target_col] in
  let exogs := List.filter (fun c => negb (Exog.mem c base_cols)) (map fst df) in
  (forall c, In c base_cols -> In c (map fst df)) ->
  exists warnings df',
    _validate_exog df None id_col time_col target_col hist_exog
    = Ok (warnings, df', None)
    /\ map fst df' = base_cols ++ List.filter (fun c => Exog.mem c hist) exogs
    /\ (forall c, In c (map fst df') -> column c df' = column c df)
    /\ (forall c, In c exogs -> (In c (map fst df') <-> In c hist))
    /\ (warnings = [] <-> forall c, In c exogs -> In c hist).
Proof.
  intros hist base_cols exogs Hbase.
  unfold _validate_exog. fold hist. fold base_cols. fold exogs.
  set (kept := List.filter (fun c => Exog.mem c hist) exogs).
  destruct (select_ok df (base_cols ++ kept))
    as (df' & Hsel & Hvals).
  { intros c Hc. apply column_in_names. apply in_app_or in Hc as [Hc|Hc].
    - apply Hbase, Hc.
    - apply filter_In in Hc as [Hc _]. apply filter_In in Hc as [Hc _]. exact Hc. }
  rewrite Hsel. cbn [rbind]. do 2 eexists. split; [reflexivity|].
  pose proof (select_names _ _ _ Hsel) as Hnames.
  split; [exact Hnames|]. split; [|split].
  - intros c Hc. apply Hvals. rewrite <- Hnames. exact Hc.
  - intros c Hc. rewrite Hnames, in_app_iff. unfold kept. rewrite filter_In.
    rewrite mem_iff. split.
    + intros [Hb|[_ Hh]]; [|exact Hh]. exfalso.
      apply filter_In in Hc as [_ Hnb].
      apply negb_true_iff, mem_false_iff in Hnb. contradiction.
    + intros Hh. right. split; assumption.
  - set (ignored := List.filter (fun c => negb (Exog.mem c hist)) exogs).
    assert (Hign : ignored = [] <-> forall c, In c exogs -> In c hist).
    { split.
      - intros Hnil c Hc. destruct (Exog.mem c hist) eqn:Hm; [apply mem_iff, Hm|].
        assert (Hin : In c ignored)
          by (apply filter_In; split; [exact Hc | rewrite Hm; reflexivity]).
        rewrite Hnil in Hin. destruct Hin.
      - intros Hall. destruct ignored as [|c l] eqn:Hi; [reflexivity|].
        assert (Hin : In c ignored) by (rewrite Hi; left; reflexivity).
        apply filter_In in Hin as [Hc Hm].
        apply negb_true_iff, mem_false_iff in Hm. exfalso. apply Hm, Hall, Hc. }
    rewrite <- Hign. unfold when_nonempty.
    destruct ignored; split; intros H; try reflexivity; discriminate.
Qed.

(** X20.  With [X_df], on tables that have their base columns:
    [_validate_exog] raises [ValueError] exactly when a feature column of
    [X_df] is no exogenous column of [df]; failing that, it raises
    [KeyError] when a name declared as historic is no column of [df]; and
    otherwise it returns [df] with the base columns, then the future
    features that are not declared historic, in the order of [X_df], then
    the historic ones in the order declared, and [X_df] with its
    identifier, its time and the same future features in the same order,
    all columns with their values. *)
Theorem validate_exog_with_future df X_df id_col time_col target_col hist_exog :
  let hist := match hist_exog with Some l => l | None => [] end in
  let base_cols := [id_col; time_col; target_col] in
  let exogs := List.filter (fun c => negb (Exog.mem c base_cols)) (map fst df) in
  let futr := List.filter (fun c => negb (Exog.mem c base_cols)) (map fst X_df) in
  let futr' := List.filter (fun c => negb (Exog.mem c hist)) futr in
  (forall c, In c base_cols -> In c (map fst df)) ->
  In id_col (map fst X_df) -> In time_col (map fst X_df) ->
  (_validate_exog df (Some X_df) id_col time_col target_col hist_exog
   = Raise missing_futr_error
   <-> exists c, In c futr /\ ~ In c exogs)
  /\ ((forall c, In c futr -> In c exogs) ->
      (exists c, In c hist /\ ~ In c (map fst df)) ->
      exists c,
        _validate_exog df (Some X_df) id_col time_col target_col hist_exog
        = Raise (KeyError c)
        /\ In c hist /\ ~ In c (map fst df))
  /\ ((forall c, In c futr -> In c exogs) ->
      (forall c, In c hist -> In c (map fst df)) ->
      exists warnings df' X_df',
        _validate_exog df (Some X_df) id_col time_col target_col hist_exog
        = Ok (warnings, df', Some X_df')
        /\ map fst df' = base_cols ++ futr' ++ hist
        /\ map fst X_df' = [id_col; time_col] ++ futr'
        /\ (forall c, In c (map fst df') -> column c df' = column c df)
        /\ (forall c, In c (map fst X_df') -> column c X_df' = column c X_df)).
Proof.
  intros hist base_cols exogs futr futr' Hbase Hid Htime.
  unfold _validate_exog. fold hist. fold base_cols. fold exogs. fold futr.
  set (missing := List.filter (fun c => negb (Exog.mem c exogs)) futr).
  assert (Hmiss : missing = [] <-> forall c, In c futr -> In c exogs).
  { split.
    - intros Hnil c Hc. destruct (Exog.mem c exogs) eqn:Hm; [apply mem_iff, Hm|].
      assert (Hin : In c missing)
        by (apply filter_In; split; [exact Hc | rewrite Hm; reflexivity]).
      rewrite Hnil in Hin. destruct Hin.
    - intros Hall. destruct missing as [|c l] eqn:Hi; [reflexivity|].
      assert (Hin : In c missing) by (rewrite Hi; left; reflexivity).
      apply filter_In in Hin as [Hc Hm].
      apply negb_true_iff, mem_false_iff in Hm. exfalso. apply Hm, Hall, Hc. }
  set (both := List.filter (fun c => Exog.mem c hist) futr).
  assert (Hfutr' : match both with
                   | _ :: _ => List.filter (fun f => negb (Exog.mem f hist)) futr
                   | [] => futr
                   end = futr').
  { unfold futr'. destruct both as [|c l] eqn:Hb; [|reflexivity].
    symmetry. apply forallb_filter_id. apply forallb_forall. intros c Hc.
    destruct (Exog.mem c hist) eqn:Hm; [|reflexivity].
    assert (Hin : In c both) by (apply filter_In; split; assumption).
    rewrite Hb in Hin. destruct Hin. }
  rewrite Hfutr'. clear Hfutr'.
  split; [|split].
  - split.
    + intros Hrun. destruct missing as [|c l] eqn:Hi.
      * exfalso.
        destruct (select df (base_cols ++ futr' ++ hist)) as [d|e] eqn:Hs.
        -- cbn [rbind] in Hrun.
           destruct (select X_df ([id_col; time_col] ++ futr')) as [d'|e] eqn:Hs';
             [discriminate|].
           apply select_raises_key in Hs' as [c' ->]. discriminate.
        -- apply select_raises_key in Hs as [c' ->]. discriminate.
      * exists c. assert (Hin : In c missing) by (rewrite Hi; left; reflexivity).
        apply filter_In in Hin as [Hc Hm].
        apply negb_true_iff, mem_false_iff in Hm. split; assumption.
    + intros (c & Hc & Hnot). destruct missing as [|c' l] eqn:Hi; [|reflexivity].
      exfalso. apply Hnot. apply (proj1 Hmiss eq_refl c Hc).
  - intros Hall (c & Hc & Hnot). rewrite (proj2 Hmiss Hall).
    destruct (select_missing df (base_cols ++ futr' ++ hist) c)
      as (c' & Hrun & Hin' & Hnone).
    { apply in_or_app. right. apply in_or_app. right. exact Hc. }
    { destruct (column c df) eqn:Hcol; [|reflexivity].
      exfalso. apply Hnot, column_in_names. eauto. }
    exists c'. rewrite Hrun. split; [reflexivity|].
    assert (Hnot' : ~ In c' (map fst df)).
    { intros Hin. apply column_in_names in Hin as [v Hv]. congruence. }
    split; [|exact Hnot'].
    apply in_app_or in Hin' as [Hin'|Hin']; [exfalso; apply Hnot', Hbase, Hin'|].
    apply in_app_or in Hin' as [Hin'|Hin']; [|exact Hin'].
    exfalso. apply Hnot'. apply filter_In in Hin' as [Hin' _].
    apply Hall in Hin'. apply filter_In in Hin' as [Hin' _]. exact Hin'.
  - intros Hall Hhist. rewrite (proj2 Hmiss Hall).
    destruct (select_ok df (base_cols ++ futr' ++ hist))
      as (df' & Hsel & Hvals).
    { intros c Hc. apply column_in_names.
      apply in_app_or in Hc as [Hc|Hc]; [apply Hbase, Hc|].
      apply in_app_or in Hc as [Hc|Hc]; [|apply Hhist, Hc].
      apply filter_In in Hc as [Hc _].
      apply Hall in Hc. apply filter_In in Hc as [Hc _]. exact Hc. }
    destruct (select_ok X_df ([id_col; time_col] ++ futr')) as (X_df' & Hsel' & Hvals').
    { intros c Hc. apply column_in_names.
      destruct Hc as [<-|[<-|Hc]]; [exact Hid | exact Htime |].
      apply filter_In in Hc as [Hc _]. apply filter_In in Hc as [Hc _]. exact Hc. }
    rewrite Hsel. cbn [rbind]. rewrite Hsel'. cbn [rbind].
    do 3 eexists. split; [reflexivity|].
    pose proof (select_names _ _ _ Hsel) as Hn.
    pose proof (select_names _ _ _ Hsel') as Hn'.
    split; [exact Hn|]. split; [exact Hn'|]. split.
    + intros c Hc. apply Hvals. rewrite <- Hn. exact Hc.
    + intros c Hc. apply Hvals'. rewrite <- Hn'. exact Hc.
Qed.
End ValidateExogTheorems.

Lemma validate_exog_without_future_witness :
  exists warnings df',
    ValidateExog._validate_exog sales_df None "unique_id" "ds" "y"
                                (Some ["price"; "weather"]%string)
    = Ok (warnings, df', None)
    /\ map fst df' = ["unique_id"; "ds"; "y"; "price"]%string.
Proof.
  destruct (validate_exog_without_future sales_df "unique_id" "ds" "y"
              (Some ["price"; "weather"]%string))
    as (warnings & df' & Hrun & Hnames & _).
  - intros c Hc. simpl in *. tauto.
  - exists warnings, df'. split; [exact Hrun | exact Hnames].
Defined.

Lemma validate_exog_with_future_witness :
  exists warnings df' X_df',
    ValidateExog._validate_exog sales_df (Some sales_future) "unique_id" "ds" "y"
                                (Some ["temp"]%string)
    = Ok (warnings, df', Some X_df')
    /\ map fst df' = ["unique_id"; "ds"; "y"; "price"; "temp"]%string
    /\ map fst X_df' = ["unique_id"; "ds"; "price"]%string.
Proof.
  destruct (validate_exog_with_future sales_df sales_future "unique_id" "ds" "y"
              (Some ["temp"]%string))
    as (_ & _ & Hok).
  - intros c Hc. simpl in *. tauto.
  - left. reflexivity.
  - right. left. reflexivity.
  - destruct Hok as (warnings & df' & X_df' & Hrun & Hn & Hn' & _).
    + intros c Hc. vm_compute in Hc. destruct Hc as [<-|[]]. vm_compute. tauto.
    + intros c [<-|[]]. simpl. tauto.
    + exists warnings, df', X_df'. split; [exact Hrun|]. split; [exact Hn | exact Hn'].
Defined.

(** ** Assembly of the forecast table *)

Section OutputLemmas.
Import Levels Output.
Context {V : Type}.
Implicit Types (df : DataFrame V) (d : list (string * list V)).

Lemma column_app df1 df2 c :
  column c (df1 ++ df2)
  = match column c df1 with Some v => Some v | None => column c df2 end.
Proof.
  induction df1 as [|[c' v] df1 IH]; simpl; [reflexivity|].
  destruct (String.eqb c c'); [reflexivity | exact IH].
Qed.

Lemma insert_name_perm k l : Permutation (insert_name k l) (k :: l).
Proof.
  induction l as [|x l IH]; simpl; [reflexivity|].
  destruct (String.leb k x); [reflexivity|].
  rewrite IH. apply perm_swap.
Qed.

Lemma sorted_names_perm l : Permutation (sorted_names l) l.
Proof.
  induction l as [|k l IH]; simpl; [reflexivity|].
  rewrite insert_name_perm, IH. reflexivity.
Qed.

Lemma assoc_In d k vals :
  List.NoDup (map fst d) -> In (k, vals) d -> Merger.assoc k d = Some vals.
Proof.
  induction d as [|[k' v'] d IH]; simpl; intros Hnd Hin; [destruct Hin|].
  inversion Hnd as [|? ? Hk' Hnd']; subst.
  destruct Hin as [[= -> ->]|Hin].
  - rewrite String.eqb_refl. reflexivity.
  - destruct (String.eqb_spec k k') as [->|Hne]; [|exact (IH Hnd' Hin)].
    exfalso. apply Hk'. apply in_map_iff. exists (k', vals). split; [reflexivity | exact Hin].
Qed.

Lemma for_each_map {T U} (f : T -> result U) (g : T -> U) (l : list T) :
  (forall t, In t l -> f t = Ok (g t)) -> Merger.for_each f l = Ok (map g l).
Proof.
  induction l as [|t l IH]; intros Hall; [reflexivity|].
  simpl. rewrite (Hall t (or_introl eq_refl)). cbn [rbind].
  rewrite IH by (intros t' Ht'; apply Hall; right; exact Ht'). reflexivity.
Qed.

Lemma column_of_key (val : string -> list V) (keys : list string) k :
  In k keys ->
  column ("TimeGPT-" ++ k) (map (fun k' => (("TimeGPT-" ++ k')%string, val k')) keys)
  = Some (val k).
Proof.
  induction keys as [|k' keys IH]; intros Hin; [destruct Hin|]. cbn [map column].
  destruct (String.eqb_spec ("TimeGPT-" ++ k) ("TimeGPT-" ++ k')) as [Heq|Hne].
  - cbv [String.append] in Heq. injection Heq as ->. reflexivity.
  - destruct Hin as [->|Hin]; [congruence | exact (IH Hin)].
Qed.

(** The frame with its intervals: every bound of the response is a
    column named after its key, the columns of the frame come first. *)
Lemma add_intervals_ok df d :
  List.NoDup (map fst d) ->
  exists out,
    _maybe_add_intervals df (Bounds d) = Ok out
    /\ map fst out
       = map fst df ++ map (String.append "TimeGPT-") (sorted_names (map fst d))
    /\ (forall c, is_Some (column c df) -> column c out = column c df)
    /\ (forall k vals, In (k, vals) d -> column ("TimeGPT-" ++ k) df = None ->
          column ("TimeGPT-" ++ k) out = Some vals).
Proof.
  intros Hnd.
  set (val := fun k => match Merger.assoc k d with Some v => v | None => [] end).
  assert (Hrun : Merger.for_each
                   (fun k => let* vals := Merger.get_key k (Merger.assoc k d) in
                             Ok (("TimeGPT-" ++ k)%string, vals))
                   (sorted_names (map fst d))
                 = Ok (map (fun k => (("TimeGPT-" ++ k)%string, val k))
                           (sorted_names (map fst d)))).
  { apply for_each_map. intros k Hk.
    apply (Permutation_in _ (sorted_names_perm _)) in Hk.
    apply in_map_iff in Hk as ([k' v] & <- & Hin). unfold val. cbn [fst].
    rewrite (assoc_In d k' v Hnd Hin). reflexivity. }
  exists (df ++ map (fun k => (("TimeGPT-" ++ k)%string, val k))
                    (sorted_names (map fst d))).
  split.
  { unfold _maybe_add_intervals. destruct d as [|kv d'].
    - simpl. rewrite app_nil_r. reflexivity.
    - rewrite Hrun. reflexivity. }
  split; [rewrite map_app, map_map; reflexivity|]. split.
  - intros c [v Hc]. rewrite column_app, Hc. reflexivity.
  - intros k vals Hin Hnone. rewrite column_app, Hnone.
    rewrite (column_of_key val).
    + unfold val. rewrite (assoc_In d k vals Hnd Hin). reflexivity.
    + apply (Permutation_in _ (Permutation_sym (sorted_names_perm _))).
      apply in_map_iff. exists (k, vals). split; [reflexivity | exact Hin].
Qed.

Lemma source_col_bound q :
  SFeqb q half = false ->
  source_col q = let* k := bound_key q in Ok ("TimeGPT-" ++ k)%string.
Proof.
  intros Hq. unfold source_col, bound_key. rewrite Hq.
  destruct (signed_level q) as [lv|e]; [|reflexivity]. cbn [rbind].
  destruct (0 <? lv)%Z; reflexivity.
Qed.

Lemma Forall2_In_l {A B} (P : A -> B -> Prop) (l : list A) (k : list B) (x : A) :
  Forall2 P l k -> In x l -> exists y, In y k /\ P x y.
Proof.
  induction 1 as [|x' y l k Hxy _ IH]; intros Hin; [destruct Hin|].
  destruct Hin as [<- | Hin].
  - exists y. split; [left; reflexivity | exact Hxy].
  - destruct (IH Hin) as (y' & Hy' & HP). exists y'. split; [right; exact Hy' | exact HP].
Qed.

(** The columns read, next to the columns written. *)
Lemma pair_columns (qs : list spec_float) (dests : list string) :
  Forall2 (fun q dest => quantile_col q = Ok dest) qs dests ->
  (forall q, In q qs -> exists s, source_col q = Ok s) ->
  exists cols, Forall2 reads_writes qs cols /\ map snd cols = dests.
Proof.
  induction 1 as [|q dest qs dests Hq _ IH]; intros Hsrc.
  - exists []. split; [constructor | reflexivity].
  - destruct (Hsrc q (or_introl eq_refl)) as [s Hs].
    destruct IH as (cols & Hrw & Hmap); [intros q' Hq'; apply Hsrc; right; exact Hq'|].
    exists ((s, dest) :: cols). split; [|simpl; rewrite Hmap; reflexivity].
    constructor; [split; assumption | exact Hrw].
Qed.
End OutputLemmas.



(** ** In-sample output *)

Section RowIds.
Import Tails InSample.
Context {U : Type}.
Implicit Types (uids : list U) (indptr sizes : list nat).

Lemma slice_app_exact {B} (pre mid post : list B) a b :
  length pre = a -> length mid = b - a -> a <= b ->
  slice a b (pre ++ mid ++ post) = mid.
Proof.
  intros Ha Hb Hab. unfold slice.
  rewrite drop_app_length' by (symmetry; exact Ha).
  rewrite take_app_length' by (symmetry; exact Hb). reflexivity.
Qed.

Lemma last_n_replicate (u : U) s n : s <= n -> last_n s (replicate n u) = replicate s u.
Proof.
  intros Hs. unfold last_n. rewrite length_replicate, drop_replicate.
  f_equal. lia.
Qed.

(** Taking the last rows of every series keeps, for every series, its
    own identifier on each row kept. *)
Lemma tails_of_row_ids uids indptr sizes :
  nondecreasing indptr -> length uids = length sizes ->
  Forall2 le sizes (np_diff indptr) ->
  forall pre, Some (length pre) = head indptr ->
    tails_spec (pre ++ row_ids uids indptr) indptr sizes
    = concat (zip_with (fun u s => replicate s u) uids sizes).
Proof.
  unfold row_ids. revert uids sizes.
  induction indptr as [|a [|b r] IH]; intros uids sizes Hnd Hlen Hle pre Hpre.
  - discriminate.
  - inversion Hle; subst. destruct uids; [reflexivity | discriminate].
  - destruct Hnd as [Hab Hnd]. rewrite np_diff_cons in *.
    inversion Hle as [|s d ss ds Hsd Hle']; subst.
    destruct uids as [|u uids]; [discriminate|]. injection Hlen as Hlen.
    injection Hpre as Hpre.
    rewrite tails_spec_cons. cbn [zip_with concat].
    rewrite slice_app_exact by (rewrite ?length_replicate; lia).
    rewrite last_n_replicate by exact Hsd. f_equal.
    rewrite app_assoc.
    apply (IH uids ss Hnd Hlen Hle' (pre ++ replicate (b - a) u)).
    simpl. rewrite length_app, length_replicate. f_equal. lia.
Qed.
End RowIds.

Lemma length_repeated {U} (uids : list U) (sizes : list nat) :
  length uids = length sizes ->
  length (concat (zip_with (fun u s => replicate s u) uids sizes)) = sum_list sizes.
Proof.
  revert sizes. induction uids as [|u uids IH]; intros [|s sizes] Hlen;
    try discriminate; [reflexivity|].
  simpl. rewrite length_app, length_replicate, IH by (simpl in Hlen; lia).
  reflexivity.
Qed.

Lemma sum_list_diff (indptr : list nat) n :
  Tails.nondecreasing indptr -> head indptr = Some 0 -> last indptr = Some n ->
  sum_list (np_diff indptr) = n.
Proof.
  intros Hnd Hhd Hlast.
  pose proof (cumsum_from_last 0 (np_diff indptr)) as Hc.
  rewrite (cumsum_of_diff indptr Hnd Hhd), Hlast in Hc.
  injection Hc as ->. reflexivity.
Qed.



(** ** Model metadata *)

(** X23.  [_get_request] returns the parsed body exactly for a response with
    status 200 whose body parses, without unwrapping any ["data"] entry; a
    body that does not parse raises the decoding error whatever the status
    (also a retriable one), and the retry policy never retries that error;
    a parsed body with another status raises [ApiError] with that status. *)
Theorem get_request_outcomes {Bytes} (wire : Transport.Wire Bytes)
        (get : string -> list (string * string)
               -> result (Transport.HttpResponse Bytes))
        endpoint params resp :
  get endpoint params = Ok resp ->
  (Transport.loads wire (Transport.resp_content resp) = None ->
   ModelParams._get_request wire get endpoint params
   = Raise ModelParams.json_decode_error)
  /\ Retry.should_retry ModelParams.json_decode_error = false
  /\ (forall body,
        Transport.loads wire (Transport.resp_content resp) = Some body ->
        Transport.status_code resp <> 200%Z ->
        ModelParams._get_request wire get endpoint params
        = Raise (ApiError (Some (Transport.status_code resp)) (BodyJson body)))
  /\ (forall v,
        ModelParams._get_request wire get endpoint params = Ok v
        <-> Transport.status_code resp = 200%Z
            /\ Transport.loads wire (Transport.resp_content resp) = Some v).
Proof.
  intros Hget. unfold ModelParams._get_request. rewrite Hget. cbn [rbind].
  split; [intros ->; reflexivity|]. split; [reflexivity|]. split.
  - intros body -> Hcode.
    destruct (Z.eqb_spec (Transport.status_code resp) 200); [contradiction|].
    reflexivity.
  - intros v.
    destruct (Transport.loads wire (Transport.resp_content resp)) as [body|].
    + destruct (Z.eqb_spec (Transport.status_code resp) 200) as [Heq|Hne]; simpl.
      * split; [intros [= ->]; auto | intros [_ [= ->]]; reflexivity].
      * split; [discriminate | intros [Hc _]; contradiction].
    + split; [discriminate | intros [_ Hc]; discriminate].
Qed.

Lemma get_request_outcomes_witness :
  ModelParams._get_request text_wire
    (fun _ _ => Ok (Transport.mkHttpResponse 503%Z "<html></html>"%string))
    "/model_params" []
  = Raise ModelParams.json_decode_error.
Proof.
  destruct (get_request_outcomes text_wire
              (fun _ _ => Ok (Transport.mkHttpResponse 503%Z "<html></html>"%string))
              "/model_params" []
              (Transport.mkHttpResponse 503%Z "<html></html>"%string) eq_refl)
    as (Hraw & _).
  apply Hraw. reflexivity.
Defined.

Section ModelParamsTheorems.
Import ModelParams.
Variables (post_with_retries get_with_retries
           : string -> list (string * string) -> result Json).
Variable is_azure : bool.

(** X24.  A call makes at most one request, to the endpoint of the
    deployment, and only for a key that is not in the cache.  When it
    returns, the value is in the cache under its key and nothing else has
    changed, so that any later call for that key, whatever the service
    would answer then, makes no request and returns the same value.  When
    it raises, the cache is unchanged. *)
Theorem model_params_cached (cache : Cache) (model freq : string) :
  let run := _get_model_params post_with_retries get_with_retries is_azure
                               cache model freq in
  let requests := fst (fst run) in
  let cache' := snd (fst run) in
  (requests = [] <-> is_Some (cache !! (model, freq)))
  /\ length requests <= 1
  /\ (forall endpoint payload, In (endpoint, payload) requests ->
        endpoint = (if is_azure then "model_params" else "/model_params")%string
        /\ payload = [("model"%string, model); ("freq"%string, freq)])
  /\ (forall params, snd run = Ok params ->
        cache' !! (model, freq) = Some params
        /\ (forall key, key <> (model, freq) -> cache' !! key = cache !! key)
        /\ forall post' get' azure',
             _get_model_params post' get' azure' cache' model freq
             = ([], cache', Ok params))
  /\ (forall e, snd run = Raise e -> cache' = cache).
Proof.
  intros run requests cache'. subst requests cache' run.
  unfold _get_model_params, Cache in *. cbv zeta.
  destruct (cache !! (model, freq)) as [params|] eqn:Hkey.
  - cbn [fst snd]. split; [split; eauto|]. split; [simpl; lia|].
    split; [intros ? ? []|]. split; [|discriminate].
    intros params' [= <-]. split; [exact Hkey|]. split; [reflexivity|].
    intros post' get' azure'. rewrite Hkey. reflexivity.
  - match goal with
    | |- context [match ?r with Ok _ => _ | Raise _ => _ end] =>
        destruct r as [params|e] eqn:Hanswer
    end; cbn [fst snd].
    + split; [split; [discriminate | intros [? ?]; discriminate]|].
      split; [simpl; lia|]. split.
      { intros endpoint payload [[= <- <-]|[]]. split; reflexivity. }
      split; [|discriminate].
      intros params' [= <-]. split; [apply lookup_insert_eq|].
      split; [intros key Hne; apply lookup_insert_ne; congruence|].
      intros post' get' azure'. rewrite lookup_insert_eq. reflexivity.
    + split; [split; [discriminate | intros [? ?]; discriminate]|].
      split; [simpl; lia|]. split.
      { intros endpoint payload [[= <- <-]|[]]. split; reflexivity. }
      split; [discriminate | reflexivity].
Qed.
End ModelParamsTheorems.

(** ** In-sample payloads of a partitioned forecast *)

Section ToInSampleTheorems.
Import Partition ToInSample.
Context {A T : Type}.
Implicit Types (payload p : Partition.Payload A (list (string * T))).

Lemma make_part_future (s : Series A) h spp i prev part prev' :
  make_part s h spp i prev = Ok (part, prev') ->
  (0 < h -> X_future part <> Absent) /\ (h = 0 -> X_future part = Absent).
Proof.
  unfold make_part. destruct (X s) as [xs|].
  - destruct (Nat.ltb_spec 0 h) as [Hh|Hh].
    + destruct (X_future s); try discriminate.
      intros [= <- _]. simpl. split; [discriminate | lia].
    + intros [= <- _]. simpl. split; [lia | reflexivity].
  - destruct (Nat.ltb_spec 0 h) as [Hh|Hh]; intros [= <- _]; simpl;
      split; try discriminate; try lia; reflexivity.
Qed.

Lemma parts_loop_future (s : Series A) (other : list (string * T)) h spp starts :
  forall prev parts,
    parts_loop s other h spp starts prev = Ok parts ->
    Forall (fun p => rest p = other
                     /\ (0 < h -> X_future (series p) <> Absent)
                     /\ (h = 0 -> X_future (series p) = Absent)) parts.
Proof.
  induction starts as [|i starts IH]; intros prev parts H; simpl in H.
  - injection H as <-. constructor.
  - apply rbind_ok in H as ([part prev'] & Hpart & H).
    apply rbind_ok in H as (parts' & Hrest & H). injection H as <-.
    constructor; [|exact (IH _ _ Hrest)].
    cbn [series rest fst]. split; [reflexivity|].
    exact (make_part_future _ _ _ _ _ _ _ Hpart).
Qed.

(** X25.  Every sub-payload of a forecast ([h > 0]) can be turned into an
    in-sample payload: the same series without the future matrix, and the
    other entries without [h], [finetune_steps] and [finetune_loss].  The
    call removes the future matrix from the sub-payload itself, so that a
    second conversion of the same sub-payload raises [KeyError], as does
    the conversion of a sub-payload made with [h = 0]. *)
Theorem in_sample_payloads_of_parts payload n_part h parts :
  _partition_series payload n_part h = Ok parts ->
  Forall (fun p =>
            (0 < h ->
             exists in_sample p',
               _forecast_payload_to_in_sample p = Ok (in_sample, p')
               /\ y (series in_sample) = y (series p)
               /\ sizes (series in_sample) = sizes (series p)
               /\ X (series in_sample) = X (series p)
               /\ X_future (series in_sample) = Absent
               /\ rest in_sample
                  = List.filter (fun kv => negb (Exog.mem (fst kv) dropped_keys))
                                (rest payload)
               /\ series p' = series in_sample
               /\ rest p' = rest p
               /\ _forecast_payload_to_in_sample p' = Raise (KeyError "X_future"))
            /\ (h = 0 ->
                _forecast_payload_to_in_sample p = Raise (KeyError "X_future")))
         parts.
Proof.
  intros Hrun. unfold _partition_series in Hrun.
  destruct (Nat.min n_part (length (sizes (series payload))) =? 0);
    [discriminate|].
  apply rbind_ok in Hrun as (starts & _ & Hloop).
  apply parts_loop_future in Hloop.
  eapply Forall_impl; [exact Hloop|].
  intros p (Hrest & Hpos & Hzero). cbv beta. split.
  - intros Hh. specialize (Hpos Hh).
    unfold _forecast_payload_to_in_sample.
    destruct (X_future (series p)) eqn:Hxf; [contradiction| |];
      (do 2 eexists; split; [reflexivity|]; cbn [series rest y sizes X X_future];
       rewrite Hrest; repeat split; reflexivity).
  - intros Hh. unfold _forecast_payload_to_in_sample. rewrite (Hzero Hh).
    reflexivity.
Qed.
End ToInSampleTheorems.

Lemma in_sample_payloads_of_parts_witness :
  Forall (fun p =>
            exists in_sample p',
              ToInSample._forecast_payload_to_in_sample p = Ok (in_sample, p')
              /\ Partition.rest in_sample = [("model"%string, 1%Z)]
              /\ ToInSample._forecast_payload_to_in_sample p'
                 = Raise (KeyError "X_future"))
         [ Partition.mkPayload
             (Partition.mkSeries [1; 2]%Z [2] None Partition.PyNone)
             [("model"%string, 1%Z); ("h"%string, 2%Z)];
           Partition.mkPayload
             (Partition.mkSeries [3]%Z [1] None Partition.PyNone)
             [("model"%string, 1%Z); ("h"%string, 2%Z)] ].
Proof.
  pose proof (in_sample_payloads_of_parts
                (Partition.mkPayload
                   (Partition.mkSeries [1; 2; 3]%Z [2; 1] None Partition.PyNone)
                   [("model"%string, 1%Z); ("h"%string, 2%Z)])
                2 2 _ eq_refl) as Hall.
  eapply Forall_impl; [exact Hall|].
  intros p [Hpos _]. cbv beta in *.
  destruct (Hpos ltac:(lia))
    as (in_sample & p' & Hrun & _ & _ & _ & _ & Hrest & _ & _ & Hagain).
  exists in_sample, p'. split; [exact Hrun|]. split; [exact Hrest | exact Hagain].
Defined.

(** ** Sizing of the forecast input *)

Lemma validate_input_size_cases {U T A} (processed : Tails.ProcessedDF U T A)
      (model_input_size model_horizon : nat) :
  let sizes := np_diff (Tails.indptr processed) in
  let needed := model_input_size + model_horizon in
  sizes <> [] ->
  (Forall (fun s => needed <= s) sizes ->
   Sizing._validate_input_size processed model_input_size model_horizon = Ok tt)
  /\ (Exists (fun s => s < needed) sizes ->
      Sizing._validate_input_size processed model_input_size model_horizon
      = Raise (Sizing.too_short needed)).
Proof.
  intros sizes needed Hne. unfold Sizing._validate_input_size.
  fold sizes. fold needed.
  destruct sizes as [|x r]; [congruence|]. cbn [Sizing.np_min rbind].
  destruct (Nat.ltb_spec (foldr Nat.min x r) needed) as [Hlt|Hge].
  - split; [|reflexivity]. intros Hall. apply foldr_min_ge in Hall. lia.
  - split; [reflexivity|]. intros Hex. apply foldr_min_ge in Hge.
    apply Exists_exists in Hex as (s & Hs & Hlt).
    rewrite Forall_forall in Hge. specialize (Hge s Hs). lia.
Qed.

(** X26.  On a well-formed frame with at least one series.  When the model is
    fine-tuned or the history is asked for, the frame is sent whole if
    every series has [model_input_size + model_horizon] observations, and
    the call raises otherwise.  In a plain forecast no series is ever
    refused for its length: with exogenous features the frame is sent
    whole; without them every series is cut to its last [min(len_i, n)]
    rows, where [n] is at least the input size of the model. *)
Theorem forecast_sizing_spec {U T A L} (processed : Tails.ProcessedDF U T A)
        (finetune_steps : nat) (add_history : bool) (x_cols : list string)
        (level : option L) (model_input_size model_horizon h : nat) :
  let sizes := np_diff (Tails.indptr processed) in
  let needed := model_input_size + model_horizon in
  let n := Sizing._restrict_input_samples level model_input_size model_horizon h in
  let run := forecast_sizing processed finetune_steps add_history x_cols level
                             model_input_size model_horizon h in
  Tails.ragged (Tails.data processed) (Tails.indptr processed) ->
  sizes <> [] ->
  (0 < finetune_steps \/ add_history = true ->
     (Forall (fun s => needed <= s) sizes -> run = Ok processed)
     /\ (Exists (fun s => s < needed) sizes -> run = Raise (Sizing.too_short needed)))
  /\ (finetune_steps = 0 -> add_history = false -> x_cols <> [] ->
      run = Ok processed)
  /\ (finetune_steps = 0 -> add_history = false -> x_cols = [] ->
      model_input_size <= n
      /\ exists processed',
          run = Ok processed'
          /\ np_diff (Tails.indptr processed') = map (fun s => Nat.min s n) sizes
          /\ Tails.data processed'
             = Tails.tails_spec (Tails.data processed) (Tails.indptr processed)
                                (map (fun s => Nat.min s n) sizes)
          /\ Tails.uids processed' = Tails.uids processed).
Proof.
  intros sizes needed n run Hr Hne. subst run. unfold forecast_sizing.
  split; [|split].
  - intros Hval.
    assert (Hcheck : (0 <? finetune_steps) || add_history = true).
    { destruct Hval as [Hf| ->]; [|apply orb_true_r].
      apply orb_true_iff. left. apply Nat.ltb_lt. exact Hf. }
    assert (Hno : (finetune_steps =? 0)
                  && (match x_cols with [] => true | _ => false end)
                  && negb add_history = false).
    { destruct Hval as [Hf| ->].
      - destruct (Nat.eqb_spec finetune_steps 0); [lia | reflexivity].
      - apply andb_false_r. }
    rewrite Hcheck, Hno.
    destruct (validate_input_size_cases processed model_input_size model_horizon Hne)
      as [Hok Hbad].
    split.
    + intros Hall. rewrite (Hok Hall). reflexivity.
    + intros Hex. rewrite (Hbad Hex). reflexivity.
  - intros -> -> Hx. cbn. destruct x_cols; [congruence | reflexivity].
  - intros -> -> ->. cbn [Nat.ltb Nat.leb orb rbind Nat.eqb andb negb].
    split.
    + subst n. unfold Sizing._restrict_input_samples. destruct level; lia.
    + fold n. rewrite (tail_keeps_last processed n Hr Hne).
      eexists. split; [reflexivity|]. cbn [Tails.indptr Tails.data Tails.uids].
      split; [apply cumsum_from_diff|]. split; reflexivity.
Qed.

Lemma forecast_sizing_spec_witness :
  exists processed',
    forecast_sizing
      (Tails.mkProcessedDF ["A"; "B"]%string [4; 9]%Z
         [10; 20; 30; 40; 50] [0; 2; 5] None)
      0 false [] (@None (list Q)) 2 1 1
    = Ok processed'
    /\ np_diff (Tails.indptr processed') = [2; 2]
    /\ Tails.data processed' = [10; 20; 40; 50].
Proof.
  destruct (forecast_sizing_spec
              (Tails.mkProcessedDF ["A"; "B"]%string [4; 9]%Z
                 [10; 20; 30; 40; 50] [0; 2; 5] None)
              0 false [] (@None (list Q)) 2 1 1)
    as (_ & _ & Hplain).
  - unfold Tails.ragged. simpl. repeat split; lia.
  - discriminate.
  - destruct Hplain as (_ & processed' & Hrun & Hsizes & Hdata & _);
      [reflexivity | reflexivity | reflexivity |].
    exists processed'. split; [exact Hrun|]. split; [exact Hsizes | exact Hdata].
Defined.

(** ** Data audit *)

Section AuditTheorems.
Import Validation Audit.
Implicit Types (df : list Row) (r : Row).

Lemma filter_length_mono {B} (P Q : B -> bool) (l : list B) :
  (forall x, In x l -> P x = true -> Q x = true) ->
  length (List.filter P l) <= length (List.filter Q l).
Proof.
  induction l as [|x l IH]; intros Hall; [reflexivity|]. simpl.
  specialize (IH (fun y Hy => Hall y (or_intror Hy))).
  destruct (P x) eqn:HP.
  - rewrite (Hall x (or_introl eq_refl) HP). simpl. lia.
  - destruct (Q x); simpl; lia.
Qed.

Lemma duplicated_false_iff df :
  existsb (duplicated df) df = false <-> List.NoDup (map row_key df).
Proof.
  rewrite (NoDup_count_occ key_eq_dec).
  rewrite <- not_true_iff_false, existsb_exists. split.
  - intros Hno k.
    destruct (le_lt_dec (count_occ key_eq_dec (map row_key df) k) 1) as [Hle|Hgt];
      [exact Hle|].
    exfalso. apply Hno.
    assert (Hin : In k (map row_key df))
      by (apply (count_occ_In key_eq_dec); lia).
    apply in_map_iff in Hin as (r & <- & Hr).
    exists r. split; [exact Hr|]. unfold duplicated. apply Nat.ltb_lt. exact Hgt.
  - intros Hall (r & _ & Hdup). unfold duplicated in Hdup.
    apply Nat.ltb_lt in Hdup. specialize (Hall (row_key r)). lia.
Qed.

Lemma count_same_key df r :
  count_occ key_eq_dec (map row_key df) (row_key r)
  = length (List.filter (fun r' => bool_decide (row_key r' = row_key r)) df).
Proof.
  induction df as [|r' l IH]; [reflexivity|]. cbn [map count_occ List.filter].
  destruct (key_eq_dec (row_key r') (row_key r)) as [Heq|Hne].
  - rewrite bool_decide_true by exact Heq. cbn [length]. rewrite IH. reflexivity.
  - rewrite bool_decide_false by exact Hne. exact IH.
Qed.

Lemma audit_duplicate_rows_verdict df :
  (fst (_audit_duplicate_rows df) = PASS /\ List.NoDup (map row_key df))
  \/ (fst (_audit_duplicate_rows df) = FAIL /\ ~ List.NoDup (map row_key df)).
Proof.
  unfold _audit_duplicate_rows. pose proof (duplicated_false_iff df) as Hiff.
  destruct (existsb (duplicated df) df); cbn [fst].
  - right. split; [reflexivity|]. intros H. apply Hiff in H. discriminate.
  - left. split; [reflexivity | apply Hiff; reflexivity].
Qed.

(** X27.  The test for duplicate rows passes exactly when no two rows have the
    same identifier and timestamp, and then returns an empty table; when it
    fails it returns, in the order of the table, exactly the rows whose
    identifier and timestamp occur more than once, at least two of them.
    Its verdict is never [CASE_SPECIFIC]. *)
Theorem audit_duplicate_rows_spec df :
  (fst (_audit_duplicate_rows df) = PASS <-> List.NoDup (map row_key df))
  /\ (fst (_audit_duplicate_rows df) = FAIL <-> ~ List.NoDup (map row_key df))
  /\ (fst (_audit_duplicate_rows df) = PASS ->
      snd (_audit_duplicate_rows df) = Rows [])
  /\ (fst (_audit_duplicate_rows df) = FAIL ->
      exists rows,
        snd (_audit_duplicate_rows df) = Rows rows
        /\ rows = List.filter (duplicated df) df
        /\ 2 <= length rows
        /\ forall r, In r rows <->
             In r df /\ 2 <= length (List.filter
                                       (fun r' => bool_decide (row_key r' = row_key r))
                                       df)).
Proof.
  unfold _audit_duplicate_rows.
  pose proof (duplicated_false_iff df) as Hiff.
  pose proof (count_same_key df) as Hcount.
  destruct (existsb (duplicated df) df) eqn:Hex; cbn [fst snd].
  - assert (Hnot : ~ List.NoDup (map row_key df)).
    { intros Hnd. apply Hiff in Hnd. congruence. }
    split; [split; [discriminate | contradiction]|].
    split; [split; [intros _; exact Hnot | reflexivity]|].
    split; [discriminate|]. intros _.
    eexists. split; [reflexivity|]. split; [reflexivity|].
    assert (Hmem : forall r, In r (List.filter (duplicated df) df) <->
                     In r df /\ 2 <= length (List.filter
                                               (fun r' => bool_decide
                                                            (row_key r' = row_key r))
                                               df)).
    { intros r. rewrite filter_In. unfold duplicated.
      rewrite Nat.ltb_lt, Hcount. reflexivity. }
    split; [|exact Hmem].
    apply existsb_exists in Hex as (r & Hr & Hdup).
    assert (Hin : In r (List.filter (duplicated df) df))
      by (apply filter_In; split; assumption).
    apply Hmem in Hin as [_ Htwo].
    eapply Nat.le_trans; [exact Htwo|].
    apply filter_length_mono. intros x _ Hx.
    apply bool_decide_eq_true in Hx. unfold duplicated in *.
    rewrite Hx. exact Hdup.
  - assert (Hnd : List.NoDup (map row_key df)) by (apply Hiff; reflexivity).
    split; [split; [intros _; exact Hnd | reflexivity]|].
    split; [split; [discriminate | contradiction]|].
    split; [reflexivity | discriminate].
Qed.
End AuditTheorems.

Section AuditDataTheorems.
Import Validation Audit.
Variable _audit_missing_dates : list Row -> AuditDataSeverity * ErrorDF.
Variables audit_categorical audit_leading_zeros : AuditDataSeverity * ErrorDF.

Lemma negative_filter_nil (df : list Row) :
  List.filter is_negative df = [] <-> Forall (fun r => is_negative r = false) df.
Proof.
  induction df as [|r df IH]; simpl.
  - split; [constructor | reflexivity].
  - destruct (is_negative r) eqn:Hr.
    + split; [discriminate | intros H; inversion H; congruence].
    + rewrite IH. split; [intros H; constructor; assumption
                         | intros H; inversion H; assumption].
Qed.

Ltac audit_cases :=
  cbn; repeat split; unfold not; intros;
  repeat match goal with
         | H : _ /\ _ |- _ => destruct H
         | H : In _ _ |- _ => simpl in H
         | H : _ \/ _ |- _ => destruct H
         | H : False |- _ => destruct H
         end;
  try discriminate; try congruence; try tauto; auto.

(** X28.  [audit_data] reports that all tests pass exactly when no two rows
    share identifier and timestamp, no target is negative and the three
    other tests pass, which is exactly when both dictionaries are empty.
    With duplicate rows, the test for missing dates is not run: it is
    reported under [D002] as failed with no table.  Negative values are
    reported under [V001] as case specific, exactly when there are some,
    and never as a failure. *)
Theorem audit_data_spec (df : list Row) :
  let report := audit_data _audit_missing_dates audit_categorical
                           audit_leading_zeros df in
  (all_pass report = true
   <-> List.NoDup (map row_key df)
       /\ fst (_audit_missing_dates df) = PASS
       /\ fst audit_categorical = PASS
       /\ Forall (fun r => is_negative r = false) df
       /\ fst audit_leading_zeros = PASS)
  /\ (all_pass report = true
      <-> fail_dict report = [] /\ case_specific_dict report = [])
  /\ (~ List.NoDup (map row_key df) ->
      In ("D002"%string, None) (fail_dict report)
      /\ forall other_test,
           audit_data other_test audit_categorical audit_leading_zeros df = report)
  /\ (In "V001"%string (map fst (case_specific_dict report))
      <-> ~ Forall (fun r => is_negative r = false) df)
  /\ ~ In "V001"%string (map fst (fail_dict report))
  /\ ~ In "D001"%string (map fst (case_specific_dict report)).
Proof.
  intros report. subst report.
  pose proof (duplicated_false_iff df) as HD.
  pose proof (negative_filter_nil df) as HN.
  unfold audit_data, _audit_duplicate_rows, _audit_negative_values.
  destruct (existsb (duplicated df) df) eqn:Hdup;
    destruct (List.filter is_negative df) as [|neg0 negs] eqn:Hneg.
  - assert (Hnd : ~ List.NoDup (map row_key df))
      by (intros H; apply HD in H; discriminate).
    assert (Hall : Forall (fun r => is_negative r = false) df)
      by (apply HN; reflexivity).
    destruct audit_categorical as [[| |] e3];
      destruct audit_leading_zeros as [[| |] e5]; audit_cases.
  - assert (Hnd : ~ List.NoDup (map row_key df))
      by (intros H; apply HD in H; discriminate).
    assert (Hall : ~ Forall (fun r => is_negative r = false) df)
      by (intros H; apply HN in H; discriminate).
    destruct audit_categorical as [[| |] e3];
      destruct audit_leading_zeros as [[| |] e5]; audit_cases.
  - assert (Hnd : List.NoDup (map row_key df)) by (apply HD; reflexivity).
    assert (Hall : Forall (fun r => is_negative r = false) df)
      by (apply HN; reflexivity).
    destruct (_audit_missing_dates df) as [[| |] e2];
      destruct audit_categorical as [[| |] e3];
      destruct audit_leading_zeros as [[| |] e5]; audit_cases.
  - assert (Hnd : List.NoDup (map row_key df)) by (apply HD; reflexivity).
    assert (Hall : ~ Forall (fun r => is_negative r = false) df)
      by (intros H; apply HN in H; discriminate).
    destruct (_audit_missing_dates df) as [[| |] e2];
      destruct audit_categorical as [[| |] e3];
      destruct audit_leading_zeros as [[| |] e5]; audit_cases.
Qed.
End AuditDataTheorems.

(** X29.  The fix of negative values sets every negative target to zero and
    leaves every other row, and the identifier and timestamp of every row,
    as they are; the test for negative values then passes, and the test for
    duplicate rows gives the verdict it gave before. *)
Theorem remove_negative_values_spec (df : list Validation.Row) :
  let cleaned := Audit.remove_negative_values df in
  Audit._audit_negative_values cleaned = (Audit.PASS, Audit.Rows [])
  /\ map Audit.row_key cleaned = map Audit.row_key df
  /\ Forall2 (fun r r' =>
                if Audit.is_negative r then Validation.y r' = Some 0%Q
                else r' = r) df cleaned
  /\ fst (Audit._audit_duplicate_rows cleaned) = fst (Audit._audit_duplicate_rows df).
Proof.
  intros cleaned. subst cleaned.
  assert (Hkeys : map Audit.row_key (Audit.remove_negative_values df)
                  = map Audit.row_key df).
  { unfold Audit.remove_negative_values. rewrite map_map. apply map_ext.
    intros r. destruct (Audit.is_negative r); reflexivity. }
  split; [|split; [exact Hkeys|split]].
  - unfold Audit._audit_negative_values.
    replace (List.filter Audit.is_negative (Audit.remove_negative_values df))
      with (@nil Validation.Row); [reflexivity|].
    symmetry. apply negative_filter_nil. unfold Audit.remove_negative_values.
    apply Forall_forall. intros r' Hr'.
    apply list_elem_of_fmap in Hr' as (r & -> & _).
    destruct (Audit.is_negative r) eqn:Hr; [reflexivity | exact Hr].
  - unfold Audit.remove_negative_values. clear Hkeys.
    induction df as [|r df IH]; simpl; [constructor|].
    constructor; [|exact IH].
    destruct (Audit.is_negative r); reflexivity.
  - destruct (audit_duplicate_rows_verdict (Audit.remove_negative_values df))
      as [[Hp Hnd]|[Hf Hnd]];
      destruct (audit_duplicate_rows_verdict df) as [[Hp' Hnd']|[Hf' Hnd']];
      rewrite Hkeys in Hnd; try congruence; contradiction.
Qed.

(** ** Columns of the table of quantiles *)

Section QuantileColumns.
Import Levels.

(** [<] and [<=] on floats other than NaN. *)
Lemma SFcompare_antisym (x y : spec_float) :
  SFcompare y x = option_map CompOpp (SFcompare x y).
Proof.
  destruct x as [sx|sx| |sx mx ex], y as [sy|sy| |sy my ey];
    try reflexivity;
    try (destruct sx; reflexivity); try (destruct sy; reflexivity);
    try (destruct sx, sy; reflexivity).
  cbn [SFcompare option_map].
  rewrite (Z.compare_antisym ey ex).
  pose proof (Pos.compare_cont_antisym mx my Eq) as HP. cbn [CompOpp] in HP.
  destruct sx, sy; try reflexivity; destruct (ey ?= ex)%Z; cbn [CompOpp];
    rewrite <- ?HP, ?CompOpp_involutive; reflexivity.
Qed.

Lemma SFcompare_defined (x y : spec_float) :
  is_nan x = false -> is_nan y = false -> exists c, SFcompare x y = Some c.
Proof.
  destruct x as [sx|sx| |sx mx ex], y as [sy|sy| |sy my ey];
    intros Hx Hy; try discriminate; cbn [SFcompare]; eauto.
Qed.

Lemma SFltb_le (x y : spec_float) : SFltb x y = true -> SFleb x y = true.
Proof. unfold SFltb, SFleb. destruct (SFcompare x y) as [[]|]; congruence. Qed.

Lemma SFltb_false_le (x y : spec_float) :
  is_nan x = false -> is_nan y = false -> SFltb x y = false -> SFleb y x = true.
Proof.
  intros Hx Hy. unfold SFltb, SFleb. rewrite (SFcompare_antisym x y).
  destruct (SFcompare_defined x y Hx Hy) as [c ->].
  destruct c; cbn; congruence.
Qed.

Lemma quantile_col_not_nan q dest : quantile_col q = Ok dest -> is_nan q = false.
Proof. destruct q; [reflexivity | reflexivity | discriminate | reflexivity]. Qed.

Lemma insert_sorted_ascending q l :
  is_nan q = false -> Forall (fun x => is_nan x = false) l ->
  ascending l -> ascending (insert_sorted q l).
Proof.
  intros Hq. induction l as [|x r IH]; intros Hl Hasc; [exact I|].
  apply Forall_cons in Hl as [Hx Hr].
  cbn [insert_sorted].
  destruct (SFltb x q) eqn:Hxq.
  - destruct r as [|y r'].
    + cbn. split; [apply SFltb_le; exact Hxq | exact I].
    + destruct Hasc as [Hxy Hasc]. specialize (IH Hr Hasc).
      cbn [insert_sorted] in *.
      destruct (SFltb y q); split; try assumption.
      apply SFltb_le. exact Hxq.
  - split; [apply SFltb_false_le; assumption | exact Hasc].
Qed.

Lemma sorted_ascending l :
  Forall (fun x => is_nan x = false) l -> ascending (sorted l).
Proof.
  induction l as [|q l IH]; intros Hl; [exact I|].
  apply Forall_cons in Hl as [Hq Hl].
  apply insert_sorted_ascending; [exact Hq | | exact (IH Hl)].
  rewrite (sorted_perm l). exact Hl.
Qed.
End QuantileColumns.

(** X30.  Without quantiles the table is returned as it is.  With quantiles
    (distinct column names, source columns in the table) the result holds,
    in this order: the columns of the table whose name contains neither
    [-lo-] nor [-hi-], in their order and with their values unless a
    quantile column replaces them, then one column per quantile in
    ascending order of the quantiles; the interval columns are dropped.
    Quantiles are binary64 floats and the column names come from
    [int(q * 100)] and [int(100 - 200 * q)] in that arithmetic. *)
Theorem quantile_output_columns {V} (df : Levels.DataFrame V)
        (qs : list spec_float) (cols : list (string * string)) :
  Forall2 Levels.reads_writes qs cols ->
  NoDup (map snd cols) ->
  (forall c, In c cols -> is_Some (Levels.column (fst c) df)) ->
  Levels._maybe_convert_level_to_quantiles df None = Ok df
  /\ exists out cols',
      Levels._maybe_convert_level_to_quantiles df (Some qs) = Ok out
      /\ Forall2 Levels.reads_writes (Levels.sorted qs) cols'
      /\ map fst out
         = List.filter (fun c => negb (Levels.is_interval_col c)) (map fst df)
           ++ map snd cols'
      /\ Permutation (Levels.sorted qs) qs
      /\ ascending (Levels.sorted qs)
      /\ (forall c, In c (map fst df) -> Levels.is_interval_col c = false ->
            ~ In c (map snd cols) ->
            Levels.column c out = Levels.column c df)
      /\ (forall c, Levels.is_interval_col c = true ->
            ~ In c (map snd cols) -> ~ In c (map fst out)).
Proof.
  intros Hrw Hnd Hsrc. split; [reflexivity|].
  pose proof (sorted_perm qs) as Hperm.
  destruct (sorted_reads_writes qs cols Hrw) as (cols' & Hpc & Hrw').
  set (out_cols := List.filter (fun c => negb (Levels.is_interval_col c)) (map fst df)).
  destruct (convert_loop_spec (Levels.sorted qs) cols' Hrw' df out_cols)
    as (df' & Hrun & Hqs & Hrest).
  { intros c Hin. apply Hsrc. exact (Permutation_in _ (Permutation_sym Hpc) Hin). }
  { rewrite <- Hpc. exact Hnd. }
  assert (Hmem : forall c, In c (map snd cols') <-> In c (map snd cols)).
  { intros c. split; apply Permutation_in; [symmetry|];
      apply Permutation_map; exact Hpc. }
  destruct (select_ok df' (out_cols ++ map snd cols')) as (out & Hsel & Hout).
  { intros c Hc.
    destruct (in_dec string_dec c (map snd cols')) as [Hq|Hnq].
    - apply in_map_iff in Hq as (sd & <- & Hin).
      rewrite (Hqs sd Hin). apply Hsrc.
      exact (Permutation_in _ (Permutation_sym Hpc) Hin).
    - rewrite (Hrest c Hnq). apply column_of_name.
      apply in_app_or in Hc as [Hc|Hc]; [|contradiction].
      unfold out_cols in Hc. apply filter_In in Hc as [Hc _]. exact Hc. }
  pose proof (select_names _ _ _ Hsel) as Hnames.
  exists out, cols'. split.
  { unfold Levels._maybe_convert_level_to_quantiles. fold out_cols.
    rewrite Hrun. cbn [rbind fst snd]. exact Hsel. }
  split; [exact Hrw'|]. split; [exact Hnames|]. split; [exact Hperm|]. split.
  { apply sorted_ascending. apply Forall_forall. intros q Hq.
    apply list_elem_of_In in Hq.
    destruct (Forall2_In_l _ _ _ _ Hrw Hq) as (c & _ & _ & Hw).
    exact (quantile_col_not_nan _ _ Hw). }
  split.
  - intros c Hc Hint Hnq. rewrite Hout.
    + apply Hrest. rewrite Hmem. exact Hnq.
    + apply in_or_app. left. unfold out_cols. apply filter_In.
      split; [exact Hc | rewrite Hint; reflexivity].
  - intros c Hint Hnq Hin. rewrite Hnames in Hin.
    apply in_app_or in Hin as [Hin|Hin].
    + unfold out_cols in Hin. apply filter_In in Hin as [_ Hc].
      rewrite Hint in Hc. discriminate.
    + apply Hnq. apply Hmem. exact Hin.
Qed.

Lemma quantile_output_columns_witness :
  exists out,
    Levels._maybe_convert_level_to_quantiles forecast_80
      (Some [Levels.float_lit 9 10; Levels.float_lit 1 10; Levels.half]) = Ok out
    /\ map fst out
       = ["unique_id"; "TimeGPT"; "TimeGPT-q-10"; "TimeGPT-q-50"; "TimeGPT-q-90"]%string.
Proof.
  destruct (quantile_output_columns forecast_80
              [Levels.float_lit 9 10; Levels.float_lit 1 10; Levels.half]
              [("TimeGPT-hi-80"%string, "TimeGPT-q-90"%string);
               ("TimeGPT-lo-80"%string, "TimeGPT-q-10"%string);
               ("TimeGPT"%string, "TimeGPT-q-50"%string)])
    as (_ & out & cols' & Hrun & Hrw' & Hnames & _).
  - repeat constructor.
  - vm_compute. repeat constructor; rewrite ?list_elem_of_In; simpl; intros H;
      repeat (destruct H as [H|H]; [discriminate|]); exact H.
  - intros c Hc. simpl in Hc.
    destruct Hc as [<-|[<-|[<-|[]]]]; vm_compute; eauto.
  - exists out. split; [exact Hrun|]. rewrite Hnames.
    assert (Hs : Levels.sorted [Levels.float_lit 9 10; Levels.float_lit 1 10; Levels.half]
                 = [Levels.float_lit 1 10; Levels.half; Levels.float_lit 9 10])
      by (vm_compute; reflexivity).
    rewrite Hs in Hrw'.
    repeat match goal with
           | H : Forall2 _ _ _ |- _ => inversion H; clear H; subst
           end.
    repeat match goal with
           | H : Levels.reads_writes _ ?c |- _ =>
               destruct c as [? ?]; destruct H as [_ H]; vm_compute in H;
               injection H as <-
           end.
    reflexivity.
Defined.
